(** * Paellaaa: the token sampler and its noise schedule

    A shallow embedding of [sample] and [gumbel_sample] (utils.py) and of
    [DenoiseUNet.gamma] and [DenoiseUNet.add_noise] (modules.py).

    Conventions of the embedding:
    - a float tensor entry is a real number of [R]. Rounding is not
      modelled, with one exception: [torch.pi] is the float32 number by
      which a float32 tensor is multiplied, since its excess over pi decides
      whether [torch.bernoulli] accepts the probability at the progress 1.
      Where rounding can decide whether the code raises (the running mass of
      the typical filter against a [typical_mass] near 1, float32 products
      that overflow), a property that asserts a result carries hypotheses
      that keep the inputs away from those values, and the other properties
      are stated for the runs that return;
    - a token grid of shape (batch, H, W) is a [list (list Z)]: one row per
      batch element, the H*W positions of that element in row-major order
      (every operation of the sampler on the two spatial axes is pointwise);
    - logits of shape (batch, num_labels, H, W) are kept in the layout the
      sampler gives them with [permute(0, 2, 3, 1)]: batch, position, class;
    - the operands of a pointwise operation have one shape: broadcasting
      is not modelled, and the properties below are stated for grids, masks
      and logits of matching shapes;
    - Python exceptions are values of [exn]; the random generator is an
      explicit state threaded through the sampler monad [M].

    The later parts embed, from utils.py, the image pipeline
    ([resize_image], [crop_random], [preprocess]), the filters and collate
    functions of the datasets and the [__call__] methods of
    [ProcessDataLaionCoco] and [ProcessDataLaionA]; from modules.py,
    [gen_r_embedding], the layers that [DenoiseUNet.__init__] builds and the
    order of the calls in [_down_encode_] and [_up_decode]. There an image
    is its size, a tensor its shape, and the exceptions are values of
    [pyexn]. *)

From Stdlib Require Import String.
From Stdlib Require Import Reals Machin List ZArith Bool Arith Lia Lra.
From Stdlib Require Import Sorted Permutation.
Import ListNotations.

(** ** Exceptions and the sampler monad *)

Inductive exn : Set :=
| IndexError
| TypeError
| RuntimeError.

(** The generator: a tape of raw draws and a read position. *)
Record Rng : Type := mkRng { tape : nat -> Z; cursor : nat }.

Definition M (A : Type) : Type := Rng -> exn + (A * Rng).

Definition ret {A : Type} (a : A) : M A := fun g => inr (a, g).

Definition raise {A : Type} (e : exn) : M A := fun _ => inl e.

Definition bind {A B : Type} (m : M A) (f : A -> M B) : M B :=
  fun g => match m g with
           | inl e => inl e
           | inr (a, g') => f a g'
           end.

Declare Scope sampler_scope.
Delimit Scope sampler_scope with sampler.
Notation "x <- m ;; k" := (bind m (fun x => k))
  (at level 61, m at next level, right associativity) : sampler_scope.
Notation "' p <- m ;; k" := (bind m (fun p => k))
  (at level 61, p pattern, m at next level, right associativity) : sampler_scope.
Open Scope sampler_scope.

Fixpoint mapM {A B : Type} (f : A -> M B) (l : list A) : M (list B) :=
  match l with
  | [] => ret []
  | a :: l' => b <- f a ;; bs <- mapM f l' ;; ret (b :: bs)
  end.

(** Lifting of a pure partial result. *)
Definition lift {A : Type} (r : exn + A) : M A :=
  fun g => match r with inl e => inl e | inr a => inr (a, g) end.

(** ** Tensors *)

Definition tokens : Type := list (list Z).
Definition logits : Type := list (list (list R)).

Fixpoint zip_with {A B C : Type} (f : A -> B -> C) (l1 : list A) (l2 : list B)
  : list C :=
  match l1, l2 with
  | a :: l1', b :: l2' => f a b :: zip_with f l1' l2'
  | _, _ => []
  end.

(** [a * b], [a + b] and [1 - a] on integer grids of one shape. *)
Definition tmul (a b : tokens) : tokens := zip_with (zip_with Z.mul) a b.
Definition tadd (a b : tokens) : tokens := zip_with (zip_with Z.add) a b.
Definition rsub (k : Z) (a : tokens) : tokens := map (map (fun v => k - v)%Z) a.

(** [t[i]] on the first axis, for a non-negative [i]. *)
Definition index {A : Type} (t : list A) (i : nat) : exn + A :=
  match nth_error t i with
  | Some a => inr a
  | None => inl IndexError
  end.

(** Comparisons of reals as booleans. *)
Definition Rltb (x y : R) : bool := if Rlt_dec x y then true else false.
Definition Rleb (x y : R) : bool := if Rle_dec x y then true else false.

(** ** Random draws (torch.randint, Tensor.uniform_, torch.bernoulli) *)

Definition next_raw : M Z :=
  fun g => inr (tape g (cursor g), mkRng (tape g) (S (cursor g))).

(** One draw of [torch.randint(low, high, ...)]. *)
Definition randint1 (low high : Z) : M Z :=
  z <- next_raw ;; ret (low + z mod (high - low))%Z.

(** [torch.randint(low, high, size=(batch, npos))]; an empty range is
    refused. *)
Definition randint (low high : Z) (batch npos : nat) : M tokens :=
  if (high <=? low)%Z then raise RuntimeError
  else mapM (fun _ => mapM (fun _ => randint1 low high) (repeat tt npos))
            (repeat tt batch).

(** [torch.randint_like(x, low, high)]. *)
Definition randint_like (x : tokens) (low high : Z) : M tokens :=
  if (high <=? low)%Z then raise RuntimeError
  else mapM (mapM (fun _ => randint1 low high)) x.

(** One draw of [uniform_(0, 1)]: 24 random bits scaled into [0, 1). *)
Definition uniform1 : M R :=
  z <- next_raw ;; ret (IZR (z mod 2 ^ 24) / IZR (2 ^ 24))%R.

(** One entry of [torch.bernoulli(p)]: 1.0 with probability [p], else 0.0;
    a [p] outside [0, 1] is refused. *)
Definition bernoulli1 (p : R) : M R :=
  if Rleb 0 p && Rleb p 1
  then u <- uniform1 ;; ret (if Rltb u p then 1%R else 0%R)
  else raise RuntimeError.

Definition bernoulli (p : list (list R)) : M (list (list R)) :=
  mapM (mapM bernoulli1) p.

(** [Tensor.round().long()]: round half to even, then convert. *)
Definition round_long (v : R) : Z :=
  let f := Zfloor v in
  let d := (v - IZR f)%R in
  if Rltb d (1 / 2) then f
  else if Rltb (1 / 2) d then (f + 1)%Z
  else if Z.even f then f else (f + 1)%Z.

(** ** modules.py: DenoiseUNet.gamma and DenoiseUNet.add_noise *)

(** [torch.pi] as it multiplies a float32 tensor: the float32 nearest to pi,
    13176795 / 2^22 = 3.14159274..., which is above pi. *)
Definition torch_pi : R := 13176795 / 4194304.

Definition gamma (r : R) : R := cos (r * torch_pi / 2).

Definition ones_like (x : list Z) : list Z := map (fun _ => 1%Z) x.

Definition add_noise (num_labels : Z) (x : tokens) (r : list R)
  (random_x : option tokens) : M (tokens * tokens) :=
  let r := map gamma r in
  mask <- bernoulli
            (zip_with (fun rb xb => map (fun o => (rb * IZR o)%R) (ones_like xb))
                      r x) ;;
  let mask := map (map round_long) mask in
  random_x <- match random_x with
              | None => randint_like x 0 num_labels
              | Some rx => ret rx
              end ;;
  ret (tadd (tmul x (rsub 1 mask)) (tmul random_x mask), mask).

(** ** Pure computations that may raise *)

Definition E (A : Type) : Type := (exn + A)%type.

Definition ebind {A B : Type} (m : E A) (f : A -> E B) : E B :=
  match m with
  | inl e => inl e
  | inr a => f a
  end.

Notation "x <~ m ;; k" := (ebind m (fun x => k))
  (at level 61, m at next level, right associativity) : sampler_scope.

Fixpoint emap {A B : Type} (f : A -> E B) (l : list A) : E (list B) :=
  match l with
  | [] => inr []
  | a :: l' => b <~ f a ;; bs <~ emap f l' ;; inr (b :: bs)
  end.

(** ** utils.py: log, gumbel_noise, gumbel_sample *)

(** A score is a real or, once filtered out, minus infinity. *)
Inductive score : Type :=
| Fin (v : R)
| NegInf.

Definition score_ltb (a b : score) : bool :=
  match a, b with
  | Fin x, Fin y => Rltb x y
  | NegInf, Fin _ => true
  | _, NegInf => false
  end.

Definition score_div (a : score) (d : R) : score :=
  match a with
  | Fin x => Fin (x / d)
  | NegInf => NegInf
  end.

Definition score_add (a : score) (n : R) : score :=
  match a with
  | Fin x => Fin (x + n)
  | NegInf => NegInf
  end.

Definition log (t : R) : R := ln (t + / 10 ^ 20).

Definition gumbel_noise {A : Type} (t : list (list (list A)))
  : M (list (list (list R))) :=
  mapM (mapM (mapM (fun _ => u <- uniform1 ;; ret (- log (- log u))%R))) t.

(** [argmax(dim=-1)] of one row: the first position of the largest entry. *)
Fixpoint argmax_from (best : score) (besti i : nat) (l : list score) : nat :=
  match l with
  | [] => besti
  | s :: l' =>
      if score_ltb best s then argmax_from s i (S i) l'
      else argmax_from best besti (S i) l'
  end.

Definition argmax (l : list score) : E Z :=
  match l with
  | [] => inl IndexError
  | s :: l' => inr (Z.of_nat (argmax_from s 0 1 l'))
  end.

Definition gumbel_sample (t : list (list (list score))) (temperature : R)
  : M tokens :=
  let d := Rmax temperature (/ 10 ^ 10) in
  noise <- gumbel_noise t ;;
  lift (emap (emap argmax)
          (zip_with (zip_with (zip_with score_add))
             (map (map (map (fun s => score_div s d))) t) noise)).

(** ** utils.py, sample: the typical filter (lines 117-131), row by row *)

Definition rsum (l : list R) : R := fold_right Rplus 0%R l.

Definition softmax (l : list R) : list R :=
  let s := rsum (map exp l) in map (fun v => exp v / s)%R l.

Definition log_softmax (l : list R) : list R :=
  let s := ln (rsum (map exp l)) in map (fun v => v - s)%R l.

(** [torch.sort(t, descending=False)]: the sorted values and, for each, the
    position it came from. Equal values are left in position order here;
    torch does not fix their order, and the properties below use only that
    the result is an ascending permutation of the row. *)
Fixpoint insert_by (p : R * nat) (l : list (R * nat)) : list (R * nat) :=
  match l with
  | [] => [p]
  | q :: l' => if Rleb (fst p) (fst q) then p :: q :: l'
               else q :: insert_by p l'
  end.

Definition sort (l : list R) : list R * list nat :=
  let s := fold_right insert_by [] (combine l (seq 0 (length l))) in
  (map fst s, map snd s).

(** The order of the (value, index) pairs that [sort] works on. *)
Definition by_value (p q : R * nat) : Prop := (fst p <= fst q)%R.

(** [t.gather(-1, idx)] on one row. *)
Definition gather {A : Type} (t : list A) (idx : list nat) : E (list A) :=
  emap (fun i => match nth_error t i with
                 | Some a => inr a
                 | None => inl RuntimeError
                 end) idx.

Fixpoint cumsum_from (acc : R) (l : list R) : list R :=
  match l with
  | [] => []
  | v :: l' => (acc + v)%R :: cumsum_from (acc + v)%R l'
  end.

Definition cumsum (l : list R) : list R :=
  match l with
  | [] => []
  | v :: l' => v :: cumsum_from v l'
  end.

(** [l[i] = v] on a list; [None] when [i] is out of range. *)
Fixpoint upd {A : Type} (l : list A) (i : nat) (v : A) : option (list A) :=
  match l, i with
  | [], _ => None
  | _ :: l', O => Some (v :: l')
  | a :: l', S i' => option_map (cons a) (upd l' i' v)
  end.

(** [self.scatter(1, idx, src)] on one row: [self[idx[j]] = src[j]]. *)
Fixpoint scatter {A : Type} (self : list A) (idx : list nat) (src : list A)
  : E (list A) :=
  match idx, src with
  | i :: idx', v :: src' =>
      match upd self i v with
      | Some self' => scatter self' idx' src'
      | None => inl RuntimeError
      end
  | [], _ => inr self
  | _ :: _, [] => inl RuntimeError
  end.

(** [t[..., :k] = false]. *)
Definition clear_prefix (k : nat) (t : list bool) : list bool :=
  repeat false (Nat.min k (length t)) ++ skipn k t.

Definition masked_fill (t : list R) (m : list bool) : list score :=
  zip_with (fun v (b : bool) => if b then NegInf else Fin v) t m.

Record typical_state : Type := mkTypical {
  c_flat_sorted : list R;
  x_flat_indices : list nat;
  x_flat_cumsum : list R;
  last_ind : nat
}.

(** Lines 118-122: the distance of every class to the entropy of the row.
    Over the reals no product is a NaN, so [nansum] is the sum. *)
Definition typical_distance (x_flat : list R) : list R :=
  let x_flat_norm := log_softmax x_flat in
  let x_flat_norm_p := map exp x_flat_norm in
  let entropy := (- rsum (zip_with Rmult x_flat_norm x_flat_norm_p))%R in
  map (fun v => Rabs (- v - entropy)) x_flat_norm.

(** Lines 123-126: the sort of the distances and the running mass. The
    running mass is the exact one, which ends at 1; the float32 one can end
    a little below, so that a [typical_mass] of 1.0 can stay out of its
    reach. *)
Definition typical_prepare (typical_mass : R) (x_flat : list R)
  : E typical_state :=
  let c_flat_shifted := typical_distance x_flat in
  let '(sorted, indices) := sort c_flat_shifted in
  g <~ gather x_flat indices ;;
  let cum := cumsum (softmax g) in
  inr (mkTypical sorted indices cum
         (length (filter (fun v => Rltb v typical_mass) cum))).

(** Lines 127-130: the classes to remove, in class order. *)
Definition typical_remove (typical_min_tokens : nat) (st : typical_state)
  : E (list bool) :=
  thr <~ gather (c_flat_sorted st) [last_ind st] ;;
  let sorted_indices_to_remove :=
    map (fun v => Rltb (hd 0%R thr) v) (c_flat_sorted st) in
  let sorted_indices_to_remove :=
    if (1 <? typical_min_tokens)%nat
    then clear_prefix typical_min_tokens sorted_indices_to_remove
    else sorted_indices_to_remove in
  scatter sorted_indices_to_remove (x_flat_indices st) sorted_indices_to_remove.

Definition typical_filter (typical_mass : R) (typical_min_tokens : nat)
  (x_flat : list R) : E (list score) :=
  st <~ typical_prepare typical_mass x_flat ;;
  indices_to_remove <~ typical_remove typical_min_tokens st ;;
  inr (masked_fill x_flat indices_to_remove).

(** ** utils.py: sample *)

Definition cond : Type := list (list R).
Definition cond_full : Type := list (list (list R)).

(** The denoiser as the sampler sees it: its forward pass and [num_labels]. *)
Record Denoiser : Type := mkDenoiser {
  forward : tokens -> cond -> list R -> option cond_full -> logits;
  num_labels : Z
}.

(** The keyword arguments of [sample]. *)
Record Config : Type := mkConfig {
  T : nat;
  size : nat * nat;
  starting_t : nat;
  temp_range : R * R;
  typical_filtering : bool;
  typical_mass : R;
  typical_min_tokens : nat;
  classifier_free_scale : R;
  renoise_steps : nat;
  renoise_mode : string
}.

(** [torch.linspace(a, b, steps)]. *)
Definition linspace (a b : R) (steps : nat) : list R :=
  map (fun k => a + INR k * ((b - a) / INR (steps - 1)))%R (seq 0 steps).

Definition zeros_like (c : cond) : cond := map (map (fun _ => 0%R)) c.

(** [torch.zeros_like(c_full)]; [c_full] defaults to [None]. *)
Definition zeros_like_full (c_full : option cond_full) : E cond_full :=
  match c_full with
  | Some cf => inr (map (map (map (fun _ => 0%R))) cf)
  | None => inl TypeError
  end.

(** [torch.lerp(a, b, w)]. *)
Definition lerp (a b : logits) (w : R) : logits :=
  zip_with (zip_with (zip_with (fun s e => s + w * (e - s))%R)) a b.

(** Lines 111-115: the logits of one step, with the guidance blend. *)
Definition denoise_logits (model : Denoiser) (cfg : Config) (c : cond)
  (c_full : option cond_full) (x : tokens) (r : list R) : E logits :=
  let lg := forward model x c r c_full in
  if Rleb 0 (classifier_free_scale cfg)
  then zf <~ zeros_like_full c_full ;;
       let logits_uncond := forward model x (zeros_like c) r (Some zf) in
       inr (lerp logits_uncond lg (classifier_free_scale cfg))
  else inr lg.

(** Lines 116-131. *)
Definition filter_logits (cfg : Config) (x : logits)
  : E (list (list (list score))) :=
  if typical_filtering cfg
  then emap (emap (typical_filter (typical_mass cfg) (typical_min_tokens cfg))) x
  else inr (map (map (map Fin)) x).

(** Lines 135-136. *)
Definition restore (mask : option tokens) (init_x x : tokens) : tokens :=
  match mask with
  | Some m => tadd (tmul x m) (tmul (rsub 1 m) init_x)
  | None => x
  end.

(** Lines 137-143. The source binds [prev_x] only in mode 'prev', where it is
    the grid at the start of the iteration, and reads it only there. *)
Definition renoise (model : Denoiser) (cfg : Config) (r_range : list (list R))
  (init_x prev_x : tokens) (i : nat) (x : tokens) : M tokens :=
  if (i <? renoise_steps cfg)%nat
  then
    if String.eqb (renoise_mode cfg) "start"
    then r <- lift (index r_range (i + 1)) ;;
         p <- add_noise (num_labels model) x r (Some init_x) ;;
         ret (fst p)
    else if String.eqb (renoise_mode cfg) "prev"
    then r <- lift (index r_range (i + 1)) ;;
         p <- add_noise (num_labels model) x r (Some prev_x) ;;
         ret (fst p)
    else r <- lift (index r_range (i + 1)) ;;
         p <- add_noise (num_labels model) x r None ;;
         ret (fst p)
  else ret x.

(** Lines 107-136: one iteration up to and including the mask restore. *)
Definition denoise_step (model : Denoiser) (cfg : Config) (c : cond)
  (c_full : option cond_full) (mask : option tokens)
  (r_range : list (list R)) (temperatures : list R) (init_x : tokens)
  (i : nat) (x : tokens) : M tokens :=
  r <- lift (index r_range i) ;;
  temp <- lift (index temperatures i) ;;
  lg <- lift (denoise_logits model cfg c c_full x r) ;;
  x_flat <- lift (filter_logits cfg lg) ;;
  x' <- gumbel_sample x_flat temp ;;
  ret (restore mask init_x x').

(** The body of the loop. *)
Definition sample_step (model : Denoiser) (cfg : Config) (c : cond)
  (c_full : option cond_full) (mask : option tokens)
  (r_range : list (list R)) (temperatures : list R) (init_x : tokens)
  (i : nat) (x : tokens) : M tokens :=
  let prev_x := x in
  x' <- denoise_step model cfg c c_full mask r_range temperatures init_x i x ;;
  renoise model cfg r_range init_x prev_x i x'.

Fixpoint sample_loop (step : nat -> tokens -> M tokens) (steps : list nat)
  (x : tokens) : M tokens :=
  match steps with
  | [] => ret x
  | i :: rest => x' <- step i x ;; sample_loop step rest x'
  end.

Definition r_range_of (cfg : Config) (batch : nat) : list (list R) :=
  map (fun r => repeat r batch) (removelast (linspace 0 1 (T cfg + 1))).

Definition temperatures_of (cfg : Config) : list R :=
  linspace (fst (temp_range cfg)) (snd (temp_range cfg)) (T cfg).

(** Lines 100-105: the initial grid. The mask, the noise and the given grid
    are taken to have one shape. *)
Definition init_grid (model : Denoiser) (cfg : Config) (c : cond)
  (x mask : option tokens) : M tokens :=
  let npos := (fst (size cfg) * snd (size cfg))%nat in
  match x with
  | None => randint 0 (num_labels model) (length c) npos
  | Some x0 =>
      match mask with
      | Some m =>
          noise <- randint 0 (num_labels model) (length c) npos ;;
          ret (tadd (tmul noise m) (tmul (rsub 1 m) x0))
      | None => ret x0
      end
  end.

(** The grid after the steps listed in [steps], from the initial grid on. *)
Definition sample_steps (model : Denoiser) (c : cond) (x mask : option tokens)
  (cfg : Config) (c_full : option cond_full) (steps : list nat) : M tokens :=
  let r_range := r_range_of cfg (length c) in
  let temperatures := temperatures_of cfg in
  x <- init_grid model cfg c x mask ;;
  let init_x := x in
  sample_loop
    (sample_step model cfg c c_full mask r_range temperatures init_x) steps x.

Definition sample (model : Denoiser) (c : cond) (x mask : option tokens)
  (cfg : Config) (c_full : option cond_full) : M tokens :=
  sample_steps model c x mask cfg c_full
    (seq (starting_t cfg) (T cfg - starting_t cfg)).

(** ** The retention rule of the typical filter, in the specification's words

    The classes kept are exactly the first ones of the sorted order, up to
    and including the one at which the running mass first reaches
    [typical_mass], or the first [typical_min_tokens] ones when that is more
    and [typical_min_tokens > 1]. *)
Definition typical_filter_spec (typical_mass : R) (typical_min_tokens : nat)
  (x_flat : list R) : E (list score) :=
  st <~ typical_prepare typical_mass x_flat ;;
  let n_min := if (1 <? typical_min_tokens)%nat then typical_min_tokens else 0%nat in
  let kept := firstn (Nat.max (S (last_ind st)) n_min) (x_flat_indices st) in
  inr (zip_with (fun k v => if existsb (Nat.eqb k) kept then Fin v else NegInf)
         (seq 0 (length x_flat)) x_flat).

(** ** Predicates of the statements: shapes, ranges, pointwise access *)

Definition same_shape {A B : Type} (a : list (list A)) (b : list (list B))
  : Prop :=
  Forall2 (fun ra rb => length ra = length rb) a b.

(** A logits tensor for the grid [x], with [n] classes at every position. *)
Definition logits_shape {A : Type} (n : nat) (x : tokens)
  (lg : list (list (list A))) : Prop :=
  Forall2 (fun xb lb => Forall2 (fun _ row => length row = n) xb lb) x lg.

(** The call contract of the denoiser: one row of [num_labels] scores per
    position of the grid it is given. *)
Definition denoiser_ok (model : Denoiser) : Prop :=
  (0 < num_labels model)%Z /\
  forall x c r cf,
    logits_shape (Z.to_nat (num_labels model)) x (forward model x c r cf).

Definition get2 {A : Type} (t : list (list A)) (b k : nat) : option A :=
  match nth_error t b with
  | Some row => nth_error row k
  | None => None
  end.

Definition lift2 {A B C : Type} (f : A -> B -> C) (a : option A)
  (b : option B) : option C :=
  match a, b with
  | Some u, Some v => Some (f u v)
  | _, _ => None
  end.

(** Every token of the grid is a class index. *)
Definition in_range (n : Z) (t : tokens) : Prop :=
  Forall (Forall (fun v => 0 <= v < n)%Z) t.

(** Every entry of the mask is 0 or 1. *)
Definition binary (m : tokens) : Prop :=
  Forall (Forall (fun v => v = 0 \/ v = 1)%Z) m.

(** The classes of a filtered row that can still be drawn, and the others. *)
Definition is_finite (s : score) : bool :=
  match s with
  | Fin _ => true
  | NegInf => false
  end.

Definition finite_count (row : list score) : nat :=
  length (filter is_finite row).

Definition removed_count (row : list score) : nat :=
  length (filter (fun s => negb (is_finite s)) row).

(** [sample(..., renoise_mode=mode)] with the other arguments of [cfg]. *)
Definition with_renoise_mode (cfg : Config) (mode : string) : Config :=
  mkConfig (T cfg) (size cfg) (starting_t cfg) (temp_range cfg)
    (typical_filtering cfg) (typical_mass cfg) (typical_min_tokens cfg)
    (classifier_free_scale cfg) (renoise_steps cfg) mode.

(** A grid of [batch] rows of [npos] positions. *)
Definition grid_shape (batch npos : nat) (t : tokens) : Prop :=
  length t = batch /\ Forall (fun row => length row = npos) t.

(** The shapes [sample] expects of its optional arguments: a mask is a grid
    of zeros and ones of the target shape, and so is an [x] given with it;
    an [x] given alone has one row per row of [c]. *)
Definition inputs_ok (c : cond) (x mask : option tokens) (cfg : Config)
  : Prop :=
  let npos := (fst (size cfg) * snd (size cfg))%nat in
  match mask with
  | Some m =>
      grid_shape (length c) npos m /\ binary m /\
      match x with
      | Some x0 => grid_shape (length c) npos x0
      | None => True
      end
  | None =>
      match x with
      | Some x0 => length x0 = length c
      | None => True
      end
  end.

(** No row of scores is longer than [n]. *)
Definition rows_at_most {A : Type} (n : nat) (t : list (list (list A)))
  : Prop :=
  Forall (Forall (fun row => (length row <= n)%nat)) t.

(** The grid [z] has the value of [init_x] wherever the mask [m] is 0. *)
Definition keeps_fixed (m init_x z : tokens) : Prop :=
  forall b p, get2 m b p = Some 0%Z -> get2 z b p = get2 init_x b p.

(** ** utils.py: the image pipeline (resize_image, crop_random, preprocess)

    A PIL image is modelled by its size (width, height) and a tensor by its
    shape: the pixels go through Pillow's resampling and are not modelled.
    Exceptions of the data code are values of [pyexn]; Python's [random]
    module is a generator state of its own, threaded explicitly. *)

Inductive pyexn : Set :=
| Raised (e : exn)
| KeyError
| ValueError
| ZeroDivisionError
| AttributeError
| Unmodelled.

Definition Py (A : Type) : Type := (pyexn + A)%type.

Definition pybind {A B : Type} (m : Py A) (f : A -> Py B) : Py B :=
  match m with
  | inl e => inl e
  | inr a => f a
  end.

Definition PyM (A : Type) : Type := Rng -> pyexn + (A * Rng).

Definition pyret {A : Type} (a : A) : PyM A := fun g => inr (a, g).

Definition pymbind {A B : Type} (m : PyM A) (f : A -> PyM B) : PyM B :=
  fun g => match m g with
           | inl e => inl e
           | inr (a, g') => f a g'
           end.

Definition pylift {A : Type} (r : Py A) : PyM A :=
  fun g => match r with inl e => inl e | inr a => inr (a, g) end.

Fixpoint pymap {A B : Type} (f : A -> Py B) (l : list A) : Py (list B) :=
  match l with
  | [] => inr []
  | a :: l' => pybind (f a) (fun b => pybind (pymap f l') (fun bs => inr (b :: bs)))
  end.

Fixpoint pymapM {A B : Type} (f : A -> PyM B) (l : list A) : PyM (list B) :=
  match l with
  | [] => pyret []
  | a :: l' =>
      pymbind (f a) (fun b => pymbind (pymapM f l') (fun bs => pyret (b :: bs)))
  end.

Definition TARGET_SIZE : Z := 128.

Definition image : Type := (Z * Z)%type.

(** [Image.resize(size)]: Pillow returns a copy when [size] is the size of
    the image, and refuses any other target without pixels. *)
Definition pil_resize (img : image) (size : Z * Z) : Py image :=
  if ((fst size =? fst img) && (snd size =? snd img))%Z then inr img
  else if ((fst size <? 1) || (snd size <? 1))%Z then inl ValueError
  else inr size.

(** [Image.crop((left, upper, right, lower))]. *)
Definition pil_crop (img : image) (box : Z * Z * Z * Z) : image :=
  let '(x_left, y_upper, x_right, y_lower) := box in
  (x_right - x_left, y_lower - y_upper)%Z.

(** [math.floor((a / b) * TARGET_SIZE)] on integers. The quotient is a
    double; for sides below 2^46 its product with 128 has the floor of the
    exact ratio. *)
Definition floor_scaled (a b : Z) : Py Z :=
  if (b =? 0)%Z then inl ZeroDivisionError
  else inr (a * TARGET_SIZE / b)%Z.

(** Lines 23-38 of resize_image: the target size. *)
Definition resize_target (img : image) : Py (Z * Z) :=
  let '(width, height) := img in
  let rz_w := width in
  let rz_h := height in
  let _m := Z.max width height in
  pybind (if (_m =? width)%Z
          then pybind (floor_scaled rz_w rz_h)
                 (fun w' => inr (w', TARGET_SIZE))
          else inr (rz_w, rz_h))
    (fun '(rz_w, rz_h) =>
  pybind (if (_m =? height)%Z
          then pybind (floor_scaled rz_h rz_w)
                 (fun h' => inr (TARGET_SIZE, h'))
          else inr (rz_w, rz_h))
    (fun '(rz_w, rz_h) =>
  let rz_w := if (rz_w <? TARGET_SIZE)%Z then TARGET_SIZE else rz_w in
  let rz_h := if (rz_h <? TARGET_SIZE)%Z then TARGET_SIZE else rz_h in
  inr (rz_w, rz_h))).

Definition resize_image (img : image) : Py image :=
  pybind (resize_target img) (pil_resize img).

(** [random.randrange(start, stop)]. *)
Definition randrange (start stop : Z) : PyM Z :=
  fun g =>
    if (stop <=? start)%Z then inl ValueError
    else inr ((start + tape g (cursor g) mod (stop - start))%Z,
              mkRng (tape g) (S (cursor g))).

(** Lines 46-53 of crop_random: the box to cut out. *)
Definition crop_area (img : image) : PyM (Z * Z * Z * Z) :=
  let x_max := (fst img - TARGET_SIZE)%Z in
  let y_max := (snd img - TARGET_SIZE)%Z in
  pymbind (randrange 0 (x_max / 2 + 1)) (fun rx =>
  let random_x := (rx * 2)%Z in
  pymbind (randrange 0 (y_max / 2 + 1)) (fun ry =>
  let random_y := (ry * 2)%Z in
  pyret (random_x, random_y,
         (random_x + TARGET_SIZE)%Z, (random_y + TARGET_SIZE)%Z))).

Definition crop_random (img : image) : PyM image :=
  pymbind (crop_area img) (fun area => pyret (pil_crop img area)).

(** preprocess: the shape (1, 3, h, w) of the tensor it returns. *)
Definition preprocess (img : image) : Py (list Z) :=
  let '(w, h) := img in
  let w := (w - w mod 32)%Z in
  let h := (h - h mod 32)%Z in
  pybind (pil_resize img (w, h)) (fun '(w, h) => inr [1; 3; h; w]%Z).

(** [preprocess(crop_random(resize_image(img)))], the transform of
    [ProcessDataLaionCoco], [ProcessDataLaionA] and the collate functions. *)
Definition transforms (img : image) : PyM (list Z) :=
  pymbind (pylift (resize_image img)) (fun resized =>
  pymbind (crop_random resized) (fun cropped =>
  pylift (preprocess cropped))).

(** ** modules.py: DenoiseUNet.gen_r_embedding

    [c_r], a number of channels, is a natural number. [math.log] refuses an
    argument that is not positive, and the division by [half_dim - 1] is a
    division of Python numbers, which refuses a zero divisor. No product
    overflows here; the float32 ones do for a [max_positions] beyond 3e38,
    and the entries are then NaN. *)
Definition gen_r_embedding (c_r : nat) (r : list R) (max_positions : R)
  : Py (list (list R)) :=
  let r := map (fun v => gamma v * max_positions)%R r in
  let half_dim := (c_r / 2)%nat in
  if Rleb max_positions 0 then inl ValueError
  else if (Z.of_nat half_dim - 1 =? 0)%Z then inl ZeroDivisionError
  else
    let emb := (ln max_positions / IZR (Z.of_nat half_dim - 1))%R in
    let emb := map (fun k => exp (INR k * - emb))%R (seq 0 half_dim) in
    let emb := map (fun rb => map (fun e => rb * e)%R emb) r in
    let emb := map (fun row => map sin row ++ map cos row) emb in
    inr (if (c_r mod 2 =? 1)%nat
         then map (fun row => row ++ [0%R]) emb
         else emb).

(** ** utils.py: the items of a dataset, the filters and the collate functions

    The values the data code handles: [None], numbers (the finite ones,
    the float NaN and the two float infinities), strings, bytes, lists,
    dicts with string keys (in insertion order), PIL images (by size) and
    tensors (by shape). An operation on a value outside the ones written
    out below ends in [Unmodelled]. *)

#[warnings="-register-all"] Inductive pyval : Type :=
| PNone
| PNum (v : R)
| PNan
| PInf (negative : bool)
| PStr (s : string)
| PBytes (b : string)
| PList (l : list pyval)
| PDict (d : list (string * pyval))
| PImage (img : image)
| PTensor (shape : list Z).

Definition pydict : Type := list (string * pyval).

Declare Scope py_scope.
Delimit Scope py_scope with py.
Notation "x <- m ;; k" := (pybind m (fun x => k))
  (at level 61, m at next level, right associativity) : py_scope.

Declare Scope pym_scope.
Delimit Scope pym_scope with pym.
Notation "x <- m ;; k" := (pymbind m (fun x => k))
  (at level 61, m at next level, right associativity) : pym_scope.

Fixpoint dict_lookup (d : pydict) (k : string) : option pyval :=
  match d with
  | [] => None
  | (k', v) :: d' => if String.eqb k k' then Some v else dict_lookup d' k
  end.

(** [k in d]. *)
Definition contains (k : string) (d : pydict) : bool :=
  match dict_lookup d k with
  | Some _ => true
  | None => false
  end.

(** [d[k]]. *)
Definition getitem (d : pydict) (k : string) : Py pyval :=
  match dict_lookup d k with
  | Some v => inr v
  | None => inl KeyError
  end.

(** [d.get(k, default)]. *)
Definition dict_get (d : pydict) (k : string) (default : pyval) : pyval :=
  match dict_lookup d k with
  | Some v => v
  | None => default
  end.

Definition is_none (v : pyval) : bool :=
  match v with
  | PNone => true
  | _ => false
  end.

(** [v < n] and [v > n] for a number [n]: Python orders a number with
    numbers only; every comparison with NaN is false. *)
Definition py_lt (v : pyval) (n : R) : Py bool :=
  match v with
  | PNum x => inr (Rltb x n)
  | PNan => inr false
  | PInf negative => inr negative
  | PTensor _ => inl Unmodelled
  | _ => inl (Raised TypeError)
  end.

Definition py_gt (v : pyval) (n : R) : Py bool :=
  match v with
  | PNum x => inr (Rltb n x)
  | PNan => inr false
  | PInf negative => inr (negb negative)
  | PTensor _ => inl Unmodelled
  | _ => inl (Raised TypeError)
  end.

(** [a and b], [a or b]: the second condition is evaluated only when the
    first does not decide. *)
Definition py_and (a b : Py bool) : Py bool :=
  pybind a (fun x => if x then b else inr false).

Definition py_or (a b : Py bool) : Py bool :=
  pybind a (fun x => if x then inr true else b).

(** Lines 331-333 of filter_laion_coco_dataset: the loop over
    [caption_keys]. *)
Fixpoint caption_keys_given (item : pydict) (caption_keys : list string)
  : Py bool :=
  match caption_keys with
  | [] => inr true
  | c_k :: rest =>
      (missing <- py_or (inr (negb (contains c_k item)))
                    (v <- getitem item c_k ;; inr (is_none v)) ;;
       if missing then inr false else caption_keys_given item rest)%py
  end.

(** The threshold 0.99 is the real number 99/100. *)
Definition filter_laion_coco_dataset (item : pydict)
  (image_key caption_key : string) (caption_keys : list string)
  (punsafe_key height_key width_key : string) : Py bool :=
  (if negb (contains height_key item) then inr false else
   small <- py_and (v <- getitem item height_key ;; inr (negb (is_none v)))
              (v <- getitem item height_key ;; py_lt v (IZR TARGET_SIZE)) ;;
   if small then inr false else
   if negb (contains width_key item) then inr false else
   small <- py_and (v <- getitem item width_key ;; inr (negb (is_none v)))
              (v <- getitem item width_key ;; py_lt v (IZR TARGET_SIZE)) ;;
   if small then inr false else
   if negb (contains punsafe_key item) then inr false else
   unsafe <- py_and (v <- getitem item punsafe_key ;; inr (negb (is_none v)))
               (v <- getitem item punsafe_key ;; py_gt v (99 / 100)) ;;
   if unsafe then inr false else
   missing <- py_or (inr (negb (contains caption_key item)))
                (v <- getitem item caption_key ;; inr (is_none v)) ;;
   if missing then inr false else
   missing <- py_or (inr (negb (contains image_key item)))
                (v <- getitem item image_key ;; inr (is_none v)) ;;
   if missing then inr false else
   caption_keys_given item caption_keys)%py.

(** [k in v] and [v[k]] for a value that is meant to be a dict. *)
Definition py_contains (k : string) (v : pyval) : Py bool :=
  match v with
  | PDict d => inr (contains k d)
  | PNone | PNum _ | PNan | PInf _ | PImage _ => inl (Raised TypeError)
  | _ => inl Unmodelled
  end.

Definition py_getitem (v : pyval) (k : string) : Py pyval :=
  match v with
  | PDict d => getitem d k
  | PNone | PNum _ | PNan | PInf _ | PImage _ => inl (Raised TypeError)
  | _ => inl Unmodelled
  end.

Definition filter_laion_a_dataset (item : pydict)
  (punsafe_key height_key width_key : string) : Py bool :=
  (if negb (contains "metadata" item) then inr false else
   metadata <- getitem item "metadata" ;;
   present <- py_contains height_key metadata ;;
   if negb present then inr false else
   v <- py_getitem metadata height_key ;;
   small <- py_lt v (IZR TARGET_SIZE) ;;
   if small then inr false else
   present <- py_contains width_key metadata ;;
   if negb present then inr false else
   v <- py_getitem metadata width_key ;;
   small <- py_lt v (IZR TARGET_SIZE) ;;
   if small then inr false else
   present <- py_contains punsafe_key metadata ;;
   if negb present then inr false else
   v <- py_getitem metadata punsafe_key ;;
   unsafe <- py_gt v (99 / 100) ;;
   if unsafe then inr false else
   inr true)%py.

(** [list(filter(f, l))]. *)
Fixpoint pyfilter {A : Type} (f : A -> Py bool) (l : list A) : Py (list A) :=
  match l with
  | [] => inr []
  | a :: l' =>
      (keep <- f a ;;
       rest <- pyfilter f l' ;;
       inr (if keep then a :: rest else rest))%py
  end.

Definition as_tensor (v : pyval) : Py (list Z) :=
  match v with
  | PTensor shape => inr shape
  | _ => inl (Raised TypeError)
  end.

Definition shape_eqb (a b : list Z) : bool :=
  if list_eq_dec Z.eq_dec a b then true else false.

Fixpoint cat_dim0 (rest : list Z) (n : Z) (others : list (list Z))
  : Py (list Z) :=
  match others with
  | [] => inr (n :: rest)
  | [] :: _ => inl (Raised RuntimeError)
  | (m :: rest') :: others' =>
      if shape_eqb rest rest' then cat_dim0 rest (n + m)%Z others'
      else inl (Raised RuntimeError)
  end.

(** [torch.cat(tensors, 0)], on shapes: the sizes along the first axis add
    up. An empty list is refused, and so are a scalar and tensors that
    differ on another axis. The legacy rule that lets a tensor of shape (0,)
    join any others is not modelled. *)
Definition torch_cat (tensors : list pyval) : Py (list Z) :=
  (shapes <- pymap as_tensor tensors ;;
   if existsb (shape_eqb [0%Z]) shapes then inl Unmodelled else
   match shapes with
   | [] => inl (Raised RuntimeError)
   | [] :: _ => inl (Raised RuntimeError)
   | (n :: rest) :: others => cat_dim0 rest n others
   end)%py.

(** The value returned is the list [[images, captions]]. *)
Definition collate_laion_a (batch : list pydict) : Py (list Z * list pyval) :=
  (batch <- pyfilter
              (fun item => filter_laion_a_dataset item "punsafe" "height" "width")
              batch ;;
   img_tensors <- pymap (fun i => getitem i "jpg") batch ;;
   images <- torch_cat img_tensors ;;
   captions <- pymap (fun i => getitem i "txt") batch ;;
   inr (images, captions))%py.

(** [img.size] of a value that is meant to be an image. *)
Definition as_image (v : pyval) : Py image :=
  match v with
  | PImage img => inr img
  | PTensor _ => inl Unmodelled
  | _ => inl AttributeError
  end.

Definition collate_oldbookillustrations_2 (batch : list pydict)
  : PyM (list Z * list pyval) :=
  (tensors <- pymapM (fun i => v <- pylift (getitem i "1600px") ;;
                               img <- pylift (as_image v) ;;
                               t <- transforms img ;;
                               pyret (PTensor t)) batch ;;
   images <- pylift (torch_cat tensors) ;;
   captions <- pylift
                 (pymap (fun i =>
                           if negb (is_none (dict_get i "image_alt" PNone))
                           then getitem i "image_alt"
                           else inr (dict_get i "image_caption" (PStr "")))
                    batch) ;;
   pyret (images, captions))%pym.

(** [random.choice(seq)]. *)
Definition choice (seq : list pyval) : PyM pyval :=
  fun g =>
    match seq with
    | [] => inl (Raised IndexError)
    | _ :: _ =>
        inr (nth (Z.to_nat (tape g (cursor g) mod Z.of_nat (length seq)))
               seq PNone,
             mkRng (tape g) (S (cursor g)))
    end.

(** [l[i]] on a list, for a non-negative [i]. *)
Definition list_index {A : Type} (l : list A) (i : nat) : Py A :=
  match nth_error l i with
  | Some a => inr a
  | None => inl (Raised IndexError)
  end.

(** [l + v] for a list [l]. *)
Definition list_add (l : list pyval) (v : pyval) : Py (list pyval) :=
  match v with
  | PList l' => inr (l ++ l')
  | PTensor _ => inl Unmodelled
  | _ => inl (Raised TypeError)
  end.

Section Externals.

(** [Image.open(BytesIO(b))], [b.decode("utf-8")] and [json.loads(s)] are
    library code: they are parameters of the two [__call__] methods. *)
Variable image_open : string -> Py image.
Variable decode_utf8 : string -> Py string.
Variable json_loads : string -> Py pyval.

(** [Image.open(BytesIO(v))]: [BytesIO(None)] is an empty buffer. *)
Definition open_image (v : pyval) : Py image :=
  match v with
  | PBytes b => image_open b
  | PNone => image_open ""
  | PTensor _ => inl Unmodelled
  | _ => inl (Raised TypeError)
  end.

(** [v.decode("utf-8")]. *)
Definition decode (v : pyval) : Py string :=
  match v with
  | PBytes b => decode_utf8 b
  | PTensor _ => inl Unmodelled
  | _ => inl AttributeError
  end.

(** ProcessDataLaionCoco.__call__. *)
Definition ProcessDataLaionCoco_call (item : pydict)
  (image_key caption_key : string) (caption_keys : list string)
  : PyM pydict :=
  (image_data <- pylift (getitem item image_key) ;;
   image_filename <- pylift (getitem item "__key__") ;;
   image_data <- pylift (getitem item image_key) ;;
   image <- pylift (open_image image_data) ;;
   jpg <- transforms image ;;
   txt <- pylift (getitem item caption_key) ;;
   k1 <- pylift (list_index caption_keys 1) ;;
   top <- pylift (getitem item k1) ;;
   k2 <- pylift (list_index caption_keys 2) ;;
   others <- pylift (getitem item k2) ;;
   captions <- pylift (list_add [txt; top] others) ;;
   text <- choice captions ;;
   caption <- pylift (decode text) ;;
   metadata_file <- pylift (getitem item "json") ;;
   metadata <- pylift (decode metadata_file) ;;
   pyret [("image_filename", image_filename); ("jpg", PTensor jpg);
          ("txt", PStr caption); ("metadata", PStr metadata)]%string)%pym.

(** ProcessDataLaionA.__call__; the value returned is a list of one dict. *)
Definition ProcessDataLaionA_call (item : pydict)
  (image_key caption_key : string) : PyM (list pydict) :=
  (image_data <- pylift (getitem item image_key) ;;
   let image_filename := dict_get item "__key__" PNone in
   image_data <- pylift (getitem item image_key) ;;
   image <- pylift (open_image image_data) ;;
   jpg <- transforms image ;;
   text <- pylift (getitem item caption_key) ;;
   caption <- pylift (decode text) ;;
   metadata_file <- pylift (getitem item "json") ;;
   metadata <- pylift (decode metadata_file) ;;
   metadata <- pylift (json_loads metadata) ;;
   pyret [[("image_filename", image_filename); ("jpg", PTensor jpg);
           ("txt", PStr caption); ("metadata", metadata)]%string])%pym.

End Externals.

(** ** Predicates of the statements about items *)

(** The entry [k] of [item] is there and is not [None]. *)
Definition given (item : pydict) (k : string) : Prop :=
  exists v, dict_lookup item k = Some v /\ v <> PNone.

(** A number that is not below [n], or not above it: a finite number on
    that side of [n], the infinity of that side, or NaN, with which every
    comparison is false. *)
Definition not_below (n : R) (v : pyval) : Prop :=
  match v with
  | PNum x => (n <= x)%R
  | PNan => True
  | PInf negative => negative = false
  | _ => False
  end.

Definition not_above (n : R) (v : pyval) : Prop :=
  match v with
  | PNum x => (x <= n)%R
  | PNan => True
  | PInf negative => negative = true
  | _ => False
  end.

(** The entry [k] is there and is [None] or satisfies [P]. *)
Definition none_or (P : pyval -> Prop) (item : pydict) (k : string) : Prop :=
  exists v, dict_lookup item k = Some v /\ (v = PNone \/ P v).

(** The entry [k] is there and satisfies [P]. *)
Definition entry (P : pyval -> Prop) (item : pydict) (k : string) : Prop :=
  exists v, dict_lookup item k = Some v /\ P v.

(** The entry [k] is there and is a finite number that satisfies [P]. *)
Definition number (P : R -> Prop) (item : pydict) (k : string) : Prop :=
  exists x, dict_lookup item k = Some (PNum x) /\ P x.

(** The entry [k], when it is there, is [None] or a number. *)
Definition number_or_none (item : pydict) (k : string) : Prop :=
  match dict_lookup item k with
  | Some PNone | Some (PNum _) | Some PNan | Some (PInf _) | None => True
  | Some _ => False
  end.

(** The entry [k], when it is there, is a number. *)
Definition number_if_any (item : pydict) (k : string) : Prop :=
  match dict_lookup item k with
  | Some (PNum _) | Some PNan | Some (PInf _) | None => True
  | Some _ => False
  end.

(** The items that [filter_laion_a_dataset] accepts, with the keys that
    [collate_laion_a] leaves at their defaults. *)
Definition accepted_a (item : pydict) : bool :=
  match filter_laion_a_dataset item "punsafe" "height" "width" with
  | inr true => true
  | _ => false
  end.

(** The caption that [collate_oldbookillustrations_2] takes from an item. *)
Definition caption_of (item : pydict) : pyval :=
  match dict_lookup item "image_alt" with
  | Some PNone | None => dict_get item "image_caption" (PStr "")
  | Some alt => alt
  end.

(** ** modules.py: the layers that DenoiseUNet.__init__ builds

    A layer is recorded by the arguments of its constructor call; the
    constructors of [torch.nn], of [ResBlock] and of [SpatialTransformer]
    are taken to accept them, so the properties of a network are stated for
    the networks that [__init__] returns. The factor [np.sqrt(1 / total)]
    that scales the last weight of a [ResBlock] is recorded by [total]. *)

Module UNet.

Inductive layer : Type :=
| Embedding (num_embeddings embedding_dim : Z)
| Conv2d (in_channels out_channels kernel_size stride padding : Z)
| ConvTranspose2d (in_channels out_channels kernel_size stride padding : Z)
| ResBlock (c c_hidden c_cond c_skip : Z) (scale_total : Z)
| SpatialTransformer (in_channels n_heads d_head depth context_dim : Z).

(** The arguments of [__init__]. *)
Record args : Type := mkArgs {
  num_labels : Z;
  c_hidden : Z;
  c_clip : Z;
  c_r : Z;
  down_levels : list Z;
  up_levels : list Z;
  model_channels : Z;
  num_heads : Z;
  transformer_depth : Z;
  context_dim : Z
}.

Record net : Type := mkNet {
  embedding : layer;
  down_blocks : list (list layer);
  up_blocks : list (list layer);
  clf : layer
}.

(** [[c_hidden // (2**i) for i in reversed(range(n))]]. *)
Definition c_levels_of (c_hidden : Z) (n : nat) : list Z :=
  map (fun i => c_hidden / 2 ^ Z.of_nat i)%Z (rev (seq 0 n)).

Definition sum (l : list Z) : Z := fold_right Z.add 0%Z l.

(** [a // b]. *)
Definition floordiv (a b : Z) : Py Z :=
  if (b =? 0)%Z then inl ZeroDivisionError else inr (a / b)%Z.

(** [np.sqrt(1 / total)], by its denominator. *)
Definition weight_scale (total : Z) : Py Z :=
  if (total =? 0)%Z then inl ZeroDivisionError else inr total.

Definition enumerate {A : Type} (l : list A) : list (nat * A) :=
  combine (seq 0 (length l)) l.

(** [for j in range(num_blocks)], the blocks of the iterations in a row. *)
Definition for_range (num_blocks : Z) (body : nat -> Py (list layer))
  : Py (list layer) :=
  (bs <- pymap body (seq 0 (Z.to_nat num_blocks)) ;; inr (concat bs))%py.

Definition transformer (a : args) (dim_head : Z) : layer :=
  SpatialTransformer (model_channels a) (num_heads a) dim_head
    (transformer_depth a) (context_dim a).

(** Lines 147-167: one iteration of the loop over the blocks of a down
    level. *)
Definition down_iteration (a : args) (dim_head : Z) (c_levels : list Z)
  (i : nat) : Py (list layer) :=
  (c_i <- list_index c_levels i ;;
   total <- weight_scale (sum (down_levels a)) ;;
   let block := ResBlock c_i (c_i * 4) (c_clip a + c_r a) 0 total in
   if (i =? 1)%nat
   then c_i <- list_index c_levels i ;;
        total <- weight_scale (sum (down_levels a)) ;;
        inr [block; transformer a dim_head;
             ResBlock c_i c_i (c_clip a + c_r a) 0 total]
   else inr [block])%py.

(** Lines 135-169: one level of the down path. *)
Definition down_level (a : args) (dim_head : Z) (c_levels : list Z)
  (i : nat) (num_blocks : Z) : Py (list layer) :=
  (conv <- (if (0 <? i)%nat
            then c_prev <- list_index c_levels (i - 1) ;;
                 c_i <- list_index c_levels i ;;
                 inr [Conv2d c_prev c_i 4 2 1]
            else inr []) ;;
   blocks <- for_range num_blocks
               (fun _ => down_iteration a dim_head c_levels i) ;;
   inr (conv ++ blocks))%py.

(** Lines 183-212: one iteration of the loop over the blocks of an up
    level. *)
Definition up_iteration (a : args) (dim_head : Z) (c_levels_up : list Z)
  (i j : nat) : Py (list layer) :=
  (c_i <- list_index c_levels_up i ;;
   let c_skip := if (j =? 0)%nat && (0 <? i)%nat then c_i else 0%Z in
   total <- weight_scale (sum c_levels_up) ;;
   let block := ResBlock c_i (c_i * 4) (c_clip a + c_r a) c_skip total in
   if (Z.of_nat i =? Z.of_nat (length c_levels_up) - 2)%Z
   then total <- weight_scale (sum c_levels_up) ;;
        inr [block; transformer a dim_head;
             ResBlock c_i c_i (c_clip a + c_r a) 0 total]
   else inr [block])%py.

(** Lines 178-224: one level of the up path. *)
Definition up_level (a : args) (dim_head : Z) (c_levels_up : list Z)
  (i : nat) (num_blocks : Z) : Py (list layer) :=
  (blocks <- (if (Z.of_nat i <? Z.of_nat (length c_levels_up) - 1)%Z
              then for_range num_blocks
                     (up_iteration a dim_head c_levels_up i)
              else inr []) ;;
   conv <- (if negb (Z.of_nat i =? Z.of_nat (length (up_levels a)) - 1)%Z
            then c_i <- list_index c_levels_up i ;;
                 c_next <- list_index c_levels_up (i + 1) ;;
                 inr [ConvTranspose2d c_i c_next 4 2 1]
            else inr []) ;;
   inr (blocks ++ conv))%py.

(** DenoiseUNet.__init__. *)
Definition __init__ (a : args) : Py net :=
  (let c_levels := c_levels_of (c_hidden a) (length (down_levels a)) in
   c_0 <- list_index c_levels 0 ;;
   let embedding := Embedding (num_labels a) c_0 in
   dim_head <- floordiv (model_channels a) (num_heads a) ;;
   down_blocks <- pymap (fun '(i, num_blocks) =>
                           down_level a dim_head c_levels i num_blocks)
                    (enumerate (down_levels a)) ;;
   let c_levels_up := rev (c_levels_of (c_hidden a) (length (up_levels a))) in
   up_blocks <- pymap (fun '(i, num_blocks) =>
                         up_level a dim_head c_levels_up i num_blocks)
                  (enumerate (up_levels a)) ;;
   c_0 <- list_index c_levels 0 ;;
   inr (mkNet embedding down_blocks up_blocks
          (Conv2d c_0 (num_labels a) 1 1 0)))%py.

(** Lines 304-312 of [_up_decode]: module [j] of level [i] is given the
    output of down level [i] as [skip] when it is a [ResBlock], [i > 0] and
    [j == 0]. *)
Definition takes_skip (i j : nat) (block : layer) : bool :=
  match block with
  | ResBlock _ _ _ _ _ => (0 <? i)%nat && (j =? 0)%nat
  | _ => false
  end.

Definition is_transformer (block : layer) : bool :=
  match block with
  | SpatialTransformer _ _ _ _ _ => true
  | _ => false
  end.

(** The arguments of [__init__] at their default values. *)
Definition default_args (num_labels : Z) : args :=
  mkArgs num_labels 1280 2048 64 [4; 8; 16; 32]%Z [32; 16; 8; 4]%Z
    320 8 1 2048.

End UNet.

(** [DenoiseUNet(..., up_levels=l)] with the other arguments of [a]. *)
Definition with_up_levels (a : UNet.args) (l : list Z) : UNet.args :=
  UNet.mkArgs (UNet.num_labels a) (UNet.c_hidden a) (UNet.c_clip a)
    (UNet.c_r a) (UNet.down_levels a) l (UNet.model_channels a)
    (UNet.num_heads a) (UNet.transformer_depth a) (UNet.context_dim a).

(** The number of transformers among the modules of a level. *)
Definition transformers (blocks : list UNet.layer) : nat :=
  length (filter UNet.is_transformer blocks).

(** A [ResBlock] of [c] channels without a skip input, or another layer. *)
Definition plain_block (c : Z) (block : UNet.layer) : Prop :=
  match block with
  | UNet.ResBlock c' _ _ c_skip _ => c' = c /\ c_skip = 0%Z
  | _ => True
  end.

(** ** modules.py: the order of the calls in _down_encode_ and _up_decode

    The forward pass of a module is a parameter: [run block x skip] is
    [block(x, s, skip)], [block(x, s)], [block(x, c_full)] or [block(x)] as
    the code picks it by the class of [block]; the conditioning of a call
    does not change and is part of [run]. *)

Section Forward.

Variable X : Type.
Variable run : UNet.layer -> X -> option X -> X.

(** Lines 275-288: the modules of one down level, in order. *)
Fixpoint run_level (blocks : list UNet.layer) (x : X) : X :=
  match blocks with
  | [] => x
  | block :: rest => run_level rest (run block x None)
  end.

(** Lines 273-290: [level_outputs.insert(0, x)] after every level. *)
Fixpoint down_encode_from (down_blocks : list (list UNet.layer)) (x : X)
  (level_outputs : list X) : list X :=
  match down_blocks with
  | [] => level_outputs
  | blocks :: rest =>
      let x := run_level blocks x in
      down_encode_from rest x (x :: level_outputs)
  end.

Definition _down_encode_ (down_blocks : list (list UNet.layer)) (x : X)
  : list X :=
  down_encode_from down_blocks x [].

(** Lines 302-324: the modules of up level [i], from module [j] on. *)
Fixpoint up_level_from (level_outputs : list X) (i j : nat)
  (blocks : list UNet.layer) (x : X) : Py X :=
  match blocks with
  | [] => inr x
  | block :: rest =>
      (x <- (if UNet.takes_skip i j block
             then skip <- list_index level_outputs i ;;
                  inr (run block x (Some skip))
             else inr (run block x None)) ;;
       up_level_from level_outputs i (S j) rest x)%py
  end.

Fixpoint up_levels_from (level_outputs : list X) (i : nat)
  (up_blocks : list (list UNet.layer)) (x : X) : Py X :=
  match up_blocks with
  | [] => inr x
  | blocks :: rest =>
      (x <- up_level_from level_outputs i 0 blocks x ;;
       up_levels_from level_outputs (S i) rest x)%py
  end.

(** _up_decode. *)
Definition _up_decode (up_blocks : list (list UNet.layer))
  (level_outputs : list X) : Py X :=
  (x <- list_index level_outputs 0 ;;
   up_levels_from level_outputs 0 up_blocks x)%py.

End Forward.

(** The first module of up level [i] is called with a skip input. *)
Definition first_takes_skip (i : nat) (blocks : list UNet.layer) : bool :=
  match blocks with
  | first :: _ => UNet.takes_skip i 0 first
  | [] => false
  end.

(** ** Concrete inputs of the examples *)

(** A denoiser with [n] classes whose logits are all zero. *)
Definition flat_denoiser (n : nat) : Denoiser :=
  mkDenoiser (fun x _ _ _ => map (map (fun _ => repeat 0%R n)) x) (Z.of_nat n).

(** [sample]'s keyword arguments at their default values. *)
Definition default_config : Config :=
  mkConfig 12 (16, 16) 0 (1, 1)%R true (1 / 5)%R 1 (-1)%R 11 "start".

(** The defaults with guidance at scale 1. *)
Definition guided_config : Config :=
  mkConfig 12 (16, 16) 0 (1, 1)%R true (1 / 5)%R 1 1%R 11 "start".

(** The defaults with re-noising switched off. *)
Definition no_renoise_config : Config :=
  mkConfig 12 (16, 16) 0 (1, 1)%R true (1 / 5)%R 1 (-1)%R 0 "start".

(** Two steps on a grid of one row and two positions, re-noising after the
    first step. *)
Definition small_config : Config :=
  mkConfig 2 (1, 2) 0 (1, 1)%R true (1 / 5)%R 1 (-1)%R 1 "start".

(** One step, one position, one class, and re-noising asked for at the only
    step: [T = 1] and [renoise_steps = 1]. *)
Definition last_step_renoise_config : Config :=
  mkConfig 1 (1, 1) 0 (1, 1)%R false (1 / 5)%R 1 (-1)%R 1 "start".

(** Two steps on one position, re-noising with fresh tokens after the
    first. *)
Definition rand_config : Config :=
  mkConfig 2 (1, 1) 0 (1, 1)%R false (1 / 5)%R 1 (-1)%R 1 "rand".

(** The defaults with re-noising asked for at every step:
    [renoise_steps = T]. *)
Definition renoise_every_step_config : Config :=
  mkConfig 12 (16, 16) 0 (1, 1)%R true (1 / 5)%R 1 (-1)%R 12 "start".

(** A row of LAION-COCO whose width and punsafe score are unknown. *)
Definition laion_coco_row : pydict :=
  [("URL", PStr "http://example.org/a.jpg"); ("TEXT", PStr "a cat");
   ("top_caption", PStr "a cat on a mat"); ("all_captions", PList []);
   ("punsafe", PNone); ("HEIGHT", PNum 200); ("WIDTH", PNone)]%string.

(** A sample of LAION-A as [ProcessDataLaionA] leaves it, with the metadata
    parsed. *)
Definition laion_a_sample : pydict :=
  [("image_filename", PStr "000001"); ("jpg", PTensor [1; 3; 128; 128]%Z);
   ("txt", PStr "a cat");
   ("metadata", PDict [("height", PNum 512); ("width", PNum 640);
                       ("punsafe", PNum (1 / 10))])]%string.

(** A sample whose metadata gives no height. *)
Definition laion_a_sample_unknown_height : pydict :=
  [("jpg", PTensor [1; 3; 128; 128]%Z); ("txt", PStr "a dog");
   ("metadata", PDict [("height", PNone); ("width", PNum 640);
                       ("punsafe", PNum (1 / 10))])]%string.

(** A sample that the filter rejects: it is too narrow. *)
(** A LAION-A sample whose height is NaN. *)
Definition laion_a_sample_nan : pydict :=
  [("image_filename", PStr "000003"); ("jpg", PTensor [1; 3; 128; 128]%Z);
   ("txt", PStr "a cat");
   ("metadata", PDict [("height", PNan); ("width", PNum 640);
                       ("punsafe", PNum (1 / 10))])]%string.

Definition laion_a_sample_narrow : pydict :=
  [("jpg", PTensor [1; 3; 128; 128]%Z); ("txt", PStr "a bird");
   ("metadata", PDict [("height", PNum 512); ("width", PNum 100);
                       ("punsafe", PNum (1 / 10))])]%string.

(** Two illustrations, the second without an alternative text. *)
Definition oldbook_batch : list pydict :=
  [[("1600px", PImage (1600, 1200)%Z); ("image_alt", PStr "a ship");
    ("image_caption", PStr "The ship at sea")];
   [("1600px", PImage (900, 1600)%Z); ("image_alt", PNone);
    ("image_caption", PStr "A street")]]%string.

(** A sample of a webdataset shard, with every entry that
    [ProcessDataLaionCoco] and [ProcessDataLaionA] read. *)
Definition shard_sample : pydict :=
  [("__key__", PStr "000001"); ("jpg", PBytes "<jpeg>");
   ("txt", PBytes "a cat"); ("json", PBytes "{}");
   ("top_caption", PBytes "a cat on a mat");
   ("all_captions", PList [PBytes "a cat"; PBytes "a pet"])]%string.

(** Stand-ins for the library calls: every image opens at 640 x 480, bytes
    decode to themselves, and every document parses to an empty dict. *)
Definition open_vga (b : string) : Py image := inr (640, 480)%Z.

Definition decode_ascii (b : string) : Py string := inr b.

Definition parse_empty (s : string) : Py pyval := inr (PDict []).

(** The network that the default arguments give for 8192 labels. *)
Definition default_unet : UNet.net :=
  Eval vm_compute in
    match UNet.__init__ (UNet.default_args 8192) with
    | inr net => net
    | inl _ => UNet.mkNet (UNet.Embedding 0 0) [] [] (UNet.Embedding 0 0)
    end.

(** A stand-in for the forward passes: it counts the modules called. *)
Definition count_calls (block : UNet.layer) (x : Z) (skip : option Z) : Z :=
  (x + 1)%Z.

(** * Properties *)

(** ** The cosine schedule *)

(** Two bounds of pi, from the series of Machin's formula with 1/3 and 1/7:
    the float32 value of pi lies above pi, by less than 2e-7. *)
Lemma PI_enclosure : (314159264 / 100000000 < PI < torch_pi)%R.
Proof.
  unfold torch_pi.
  pose proof (PI_2_3_7_ineq 4) as [Hl Hu].
  unfold sum_f_R0, tg_alt, PI_2_3_7_tg, Ratan_seq in Hl, Hu.
  cbn [Nat.mul Nat.add pow] in Hl, Hu.
  repeat match type of Hl with context [INR ?n] =>
    let z := eval vm_compute in (Z.of_nat n) in
    replace (INR n) with (IZR z) in Hl by (rewrite INR_IZR_INZ; reflexivity)
  end.
  repeat match type of Hu with context [INR ?n] =>
    let z := eval vm_compute in (Z.of_nat n) in
    replace (INR n) with (IZR z) in Hu by (rewrite INR_IZR_INZ; reflexivity)
  end.
  split; lra.
Qed.

(** Up to the progress 0.999999 the schedule is a probability. *)
Lemma gamma_bounds (r : R) :
  (0 <= r <= 999999 / 1000000)%R -> (0 <= gamma r <= 1)%R.
Proof.
  intros [H0 H1]. unfold gamma. pose proof PI_enclosure as [Hl Hu].
  unfold torch_pi in *. split.
  - apply cos_ge_0; nra.
  - apply COS_bound.
Qed.

Lemma gamma_0 : gamma 0 = 1%R.
Proof. unfold gamma. replace (0 * torch_pi / 2)%R with 0%R by lra. apply cos_0. Qed.

(** At the progress 1 the schedule is below 0, by less than 1e-7. *)
Lemma gamma_1 : (- / 10000000 < gamma 1 < 0)%R.
Proof.
  unfold gamma. pose proof PI_enclosure as [Hl Hu]. unfold torch_pi in *.
  split.
  - replace (1 * (13176795 / 4194304) / 2)%R
      with (PI / 2 - - (13176795 / 4194304 / 2 - PI / 2))%R by lra.
    rewrite cos_shift, sin_antisym.
    assert (Hd : (0 < 13176795 / 4194304 / 2 - PI / 2)%R) by lra.
    pose proof (sin_lt_x _ Hd). lra.
  - apply cos_lt_0; lra.
Qed.

Lemma gamma_decreasing (r1 r2 : R) :
  (0 <= r1)%R -> (r1 <= r2)%R -> (r2 <= 1)%R -> (gamma r2 <= gamma r1)%R.
Proof.
  intros H0 H12 H1. unfold gamma. pose proof PI_enclosure as [Hl Hu].
  unfold torch_pi in *. apply cos_decr_1; nra.
Qed.

(** The distance of the schedule to the cosine of the exact angle. *)
Lemma gamma_near_cosine (r : R) :
  (0 <= r <= 1)%R -> (Rabs (gamma r - cos (r * (PI / 2))) <= / 1000000)%R.
Proof.
  intros [H0 H1]. unfold gamma. pose proof PI_enclosure as [Hl Hu].
  unfold torch_pi in *. rewrite form2.
  set (d := ((r * (13176795 / 4194304) / 2 - r * (PI / 2)) / 2)%R).
  set (m := ((r * (13176795 / 4194304) / 2 + r * (PI / 2)) / 2)%R).
  assert (Hd : (0 <= d <= / 10000000)%R) by (unfold d; split; nra).
  assert (Hsd : (0 <= sin d <= d)%R).
  { split.
    - apply sin_ge_0; lra.
    - destruct (Req_dec d 0) as [->|Hne]; [rewrite sin_0; lra|].
      left. apply sin_lt_x. lra. }
  pose proof (SIN_bound m) as [Hm1 Hm2].
  apply Rabs_le. split; nra.
Qed.

(** The claim's end value fails: at the progress 1 the schedule is not 0. *)
Lemma gamma_one_not_zero : gamma 1 <> 0%R.
Proof. pose proof gamma_1. lra. Qed.

(** C8, as the code has it: on float32 progress values the schedule is the
    cosine of [r * p / 2] with [p] the float32 value of pi, which is above
    pi. On the unit interval it is within 1e-6 of [cos (r * pi / 2)], it
    starts at 1, does not increase and is not negative up to 0.999999; but
    at 1 it is not 0: it is below 0, by less than 1e-6. *)
Theorem gamma_schedule (r1 r2 : R) :
  (0 <= r1)%R -> (r1 <= r2)%R -> (r2 <= 1)%R ->
  (Rabs (gamma r1 - cos (r1 * (PI / 2))) <= / 1000000)%R /\
  gamma 0 = 1%R /\
  (gamma r2 <= gamma r1)%R /\
  ((r1 <= 999999 / 1000000)%R -> (0 <= gamma r1)%R) /\
  (- / 1000000 < gamma 1 < 0)%R.
Proof.
  intros H0 H12 H1. split; [|split; [|split; [|split]]].
  - apply gamma_near_cosine. lra.
  - apply gamma_0.
  - now apply gamma_decreasing.
  - intros Hs. now apply gamma_bounds.
  - pose proof gamma_1. lra.
Qed.

Lemma gamma_schedule_witness :
  (Rabs (gamma (1 / 4) - cos (1 / 4 * (PI / 2))) <= / 1000000)%R /\
  gamma 0 = 1%R /\
  (gamma (1 / 2) <= gamma (1 / 4))%R /\
  (0 <= gamma (1 / 4))%R /\
  (- / 1000000 < gamma 1 < 0)%R.
Proof.
  destruct (gamma_schedule (1 / 4) (1 / 2)) as (H1 & H2 & H3 & H4 & H5).
  - lra.
  - lra.
  - lra.
  - split; [exact H1|]. split; [exact H2|]. split; [exact H3|].
    split; [|exact H5]. apply H4. lra.
Defined.

(** ** Pointwise operations *)

Lemma Forall2_share_left {A B C : Type} (P : A -> B -> Prop)
  (Q : A -> C -> Prop) (x : list A) :
  forall (a : list B) (b : list C),
    Forall2 P x a -> Forall2 Q x b ->
    Forall2 (fun u v => exists w, P w u /\ Q w v) a b.
Proof.
  induction x as [|w x IH]; intros a b Ha Hb; inversion Ha; inversion Hb;
    subst; constructor; eauto.
Qed.

Lemma Forall2_weaken {A B : Type} (P Q : A -> B -> Prop) (a : list A)
  (b : list B) :
  (forall u v, P u v -> Q u v) -> Forall2 P a b -> Forall2 Q a b.
Proof. intros HPQ H. induction H; constructor; auto. Qed.

Lemma zip_with_right {A B : Type} (f : A -> B -> B) (a : list A) (b : list B) :
  Forall2 (fun u v => f u v = v) a b -> zip_with f a b = b.
Proof. intros H. induction H; simpl; congruence. Qed.

Lemma zip_with_left {A B : Type} (f : A -> B -> A) (a : list A) (b : list B) :
  Forall2 (fun u v => f u v = u) a b -> zip_with f a b = a.
Proof. intros H. induction H; simpl; congruence. Qed.

Lemma Forall2_same_length {A B : Type} (a : list A) (b : list B) :
  length a = length b -> Forall2 (fun _ _ => True) a b.
Proof.
  revert b. induction a as [|u a IH]; intros [|v b] H; simpl in H;
    try discriminate; constructor; auto.
Qed.

Lemma logits_shape_rows {A B : Type} (n : nat) (x : tokens)
  (a : list (list (list A))) (b : list (list (list B))) :
  logits_shape n x a -> logits_shape n x b ->
  Forall2 (Forall2 (fun r1 r2 => length r1 = length r2)) a b.
Proof.
  intros Ha Hb.
  eapply Forall2_weaken; [|exact (Forall2_share_left _ _ _ _ _ Ha Hb)].
  intros u v (w & Hu & Hv). simpl in Hu, Hv.
  eapply Forall2_weaken; [|exact (Forall2_share_left _ _ _ _ _ Hu Hv)].
  intros r1 r2 (t & H1 & H2). simpl in H1, H2. congruence.
Qed.

Lemma lerp_one (a b : logits) :
  Forall2 (Forall2 (fun r1 r2 => length r1 = length r2)) a b ->
  lerp a b 1 = b.
Proof.
  intros H. unfold lerp. apply zip_with_right.
  eapply Forall2_weaken; [|exact H]. intros u v Huv.
  apply zip_with_right. eapply Forall2_weaken; [|exact Huv].
  intros r1 r2 Hlen. apply zip_with_right.
  eapply Forall2_weaken; [|exact (Forall2_same_length _ _ Hlen)].
  intros s e _. lra.
Qed.

Lemma lerp_zero (a b : logits) :
  Forall2 (Forall2 (fun r1 r2 => length r1 = length r2)) a b ->
  lerp a b 0 = a.
Proof.
  intros H. unfold lerp. apply zip_with_left.
  eapply Forall2_weaken; [|exact H]. intros u v Huv.
  apply zip_with_left. eapply Forall2_weaken; [|exact Huv].
  intros r1 r2 Hlen. apply zip_with_left.
  eapply Forall2_weaken; [|exact (Forall2_same_length _ _ Hlen)].
  intros s e _. lra.
Qed.

Lemma Rleb_true (x y : R) : (x <= y)%R -> Rleb x y = true.
Proof. intros H. unfold Rleb. destruct (Rle_dec x y); [reflexivity|contradiction]. Qed.

Lemma Rleb_false (x y : R) : (y < x)%R -> Rleb x y = false.
Proof. intros H. unfold Rleb. destruct (Rle_dec x y); [lra|reflexivity]. Qed.

Lemma Rltb_true (x y : R) : (x < y)%R -> Rltb x y = true.
Proof. intros H. unfold Rltb. destruct (Rlt_dec x y); [reflexivity|contradiction]. Qed.

Lemma Rltb_false (x y : R) : (y <= x)%R -> Rltb x y = false.
Proof. intros H. unfold Rltb. destruct (Rlt_dec x y); [lra|reflexivity]. Qed.

(** ** Classifier-free guidance *)


(** ** The sampler monad *)

Lemma bind_inr {A B : Type} (m : M A) (f : A -> M B) (g g' : Rng) (b : B) :
  bind m f g = inr (b, g') ->
  exists a g1, m g = inr (a, g1) /\ f a g1 = inr (b, g').
Proof.
  unfold bind. destruct (m g) as [e|[a g1]]; [discriminate|]. eauto.
Qed.

Lemma bind_ok {A B : Type} {m : M A} (f : A -> M B) {g g1 : Rng} {a : A} :
  m g = inr (a, g1) -> bind m f g = f a g1.
Proof. intros H. unfold bind. now rewrite H. Qed.

Lemma lift_inr {A : Type} (r : E A) (g g' : Rng) (a : A) :
  lift r g = inr (a, g') -> r = inr a /\ g' = g.
Proof. unfold lift. destruct r; [discriminate|]. intros H. inversion H. auto. Qed.

Lemma mapM_inv {A B : Type} (f : A -> M B) (P : A -> B -> Prop) :
  (forall a g b g', f a g = inr (b, g') -> P a b) ->
  forall l g bs g', mapM f l g = inr (bs, g') -> Forall2 P l bs.
Proof.
  intros Hf. induction l as [|a l IH]; simpl; intros g bs g' H.
  - inversion H. constructor.
  - apply bind_inr in H. destruct H as (b & g1 & Hb & H).
    apply bind_inr in H. destruct H as (bs' & g2 & Hbs & H).
    inversion H. subst. constructor; eauto.
Qed.

Lemma mapM_total {A B : Type} (f : A -> M B) (l : list A) :
  Forall (fun a => forall g, exists b g', f a g = inr (b, g')) l ->
  forall g, exists bs g', mapM f l g = inr (bs, g').
Proof.
  induction 1 as [|a l Ha _ IH]; simpl; intros g.
  - unfold ret. eauto.
  - destruct (Ha g) as (b & g1 & Hb). destruct (IH g1) as (bs & g2 & Hbs).
    exists (b :: bs), g2.
    rewrite (bind_ok _ Hb), (bind_ok _ Hbs). reflexivity.
Qed.

Lemma emap_inv {A B : Type} (f : A -> E B) (P : A -> B -> Prop) :
  (forall a b, f a = inr b -> P a b) ->
  forall l bs, emap f l = inr bs -> Forall2 P l bs.
Proof.
  intros Hf. induction l as [|a l IH]; simpl; intros bs H.
  - inversion H. constructor.
  - destruct (f a) as [e|b] eqn:Hb; simpl in H; [discriminate|].
    destruct (emap f l) as [e|bs'] eqn:Hbs; simpl in H; [discriminate|].
    inversion H. subst. constructor; auto.
Qed.

Lemma emap_total {A B : Type} (f : A -> E B) (l : list A) :
  Forall (fun a => exists b, f a = inr b) l -> exists bs, emap f l = inr bs.
Proof.
  induction 1 as [|a l [b Hb] _ [bs Hbs]]; simpl; eauto.
  rewrite Hb, Hbs. simpl. eauto.
Qed.

(** ** Shapes and pointwise access: facts *)

Lemma nth_error_zip_with {A B C : Type} (f : A -> B -> C) (a : list A) :
  forall (b : list B) (k : nat),
    nth_error (zip_with f a b) k = lift2 f (nth_error a k) (nth_error b k).
Proof.
  induction a as [|u a IH]; intros [|v b] [|k]; simpl; auto.
  now destruct (nth_error a k).
Qed.

Lemma get2_zip_with {A B C : Type} (f : A -> B -> C) (a : list (list A))
  (b : list (list B)) (i k : nat) :
  get2 (zip_with (zip_with f) a b) i k = lift2 f (get2 a i k) (get2 b i k).
Proof.
  unfold get2. rewrite nth_error_zip_with.
  destruct (nth_error a i) as [ra|], (nth_error b i) as [rb|]; simpl; auto.
  - apply nth_error_zip_with.
  - now destruct (nth_error ra k).
Qed.

Lemma get2_map {A B : Type} (f : A -> B) (a : list (list A)) (i k : nat) :
  get2 (map (map f) a) i k = option_map f (get2 a i k).
Proof.
  unfold get2. rewrite nth_error_map.
  destruct (nth_error a i) as [ra|]; simpl; auto. apply nth_error_map.
Qed.

Lemma same_shape_get2 {A B : Type} (a : list (list A)) (b : list (list B))
  (i k : nat) (u : A) :
  same_shape a b -> get2 a i k = Some u -> exists v, get2 b i k = Some v.
Proof.
  intros H. revert i. induction H as [|ra rb a b Hlen _ IH]; intros [|i];
    unfold get2; simpl; try discriminate.
  - intros Hu. assert (Hk : (k < length rb)%nat).
    { rewrite <- Hlen. apply nth_error_Some. congruence. }
    apply nth_error_Some in Hk. destruct (nth_error rb k); [eauto|congruence].
  - apply IH.
Qed.

Lemma same_shape_sym {A B : Type} (a : list (list A)) (b : list (list B)) :
  same_shape a b -> same_shape b a.
Proof. intros H. induction H; constructor; auto. Qed.

Lemma same_shape_trans {A B C : Type} (a : list (list A)) (b : list (list B))
  (c : list (list C)) :
  same_shape a b -> same_shape b c -> same_shape a c.
Proof.
  intros H. revert c.
  induction H as [|ra rb a b Hlen _ IH]; intros c Hc; inversion Hc; subst;
    constructor; [congruence|]. now apply IH.
Qed.

Lemma same_shape_refl {A : Type} (a : list (list A)) : same_shape a a.
Proof. induction a; constructor; auto. Qed.

Lemma same_shape_map {A B : Type} (f : A -> B) (a : list (list A)) :
  same_shape (map (map f) a) a.
Proof. induction a; constructor; auto. apply length_map. Qed.

Lemma length_zip_with {A B C : Type} (f : A -> B -> C) (a : list A) :
  forall b : list B, length a = length b -> length (zip_with f a b) = length a.
Proof.
  induction a as [|u a IH]; intros [|v b] H; simpl in *; try discriminate; auto.
Qed.

Lemma same_shape_zip_with {A B C : Type} (f : A -> B -> C) (a : list (list A))
  (b : list (list B)) :
  same_shape a b -> same_shape (zip_with (zip_with f) a b) a.
Proof.
  intros H. induction H; simpl; constructor; auto. now apply length_zip_with.
Qed.

Lemma Forall2_same_shape {A B : Type} (P : A -> B -> Prop)
  (a : list (list A)) (b : list (list B)) :
  Forall2 (Forall2 P) a b -> same_shape a b.
Proof.
  intros H. induction H as [|ra rb a b Hr _ IH]; constructor; auto.
  clear IH. induction Hr; simpl; auto.
Qed.

Lemma Forall2_right {A B : Type} (P : A -> B -> Prop) (Q : B -> Prop)
  (a : list A) (b : list B) :
  (forall u v, P u v -> Q v) -> Forall2 P a b -> Forall Q b.
Proof. intros HPQ H. induction H; constructor; eauto. Qed.

Lemma Forall_get2 {A : Type} (P : A -> Prop) (a : list (list A)) (i k : nat)
  (u : A) :
  Forall (Forall P) a -> get2 a i k = Some u -> P u.
Proof.
  intros H. unfold get2. destruct (nth_error a i) as [ra|] eqn:Hra;
    [|discriminate].
  intros Hu. apply nth_error_In in Hra, Hu.
  rewrite Forall_forall in H. specialize (H _ Hra).
  rewrite Forall_forall in H. auto.
Qed.

(** ** Random draws: facts *)

Lemma round_long_0 : round_long 0 = 0%Z.
Proof.
  unfold round_long. rewrite (ZfloorZ 0).
  rewrite Rltb_true; [reflexivity|lra].
Qed.

Lemma round_long_1 : round_long 1 = 1%Z.
Proof.
  unfold round_long. rewrite (ZfloorZ 1).
  rewrite Rltb_true; [reflexivity|lra].
Qed.

Lemma bernoulli1_inv (p : R) (g g' : Rng) (v : R) :
  bernoulli1 p g = inr (v, g') -> v = 0%R \/ v = 1%R.
Proof.
  unfold bernoulli1. destruct (Rleb 0 p && Rleb p 1); [|discriminate].
  unfold uniform1, next_raw, bind, ret. intros H. inversion H.
  destruct (Rltb _ p); auto.
Qed.

Lemma bernoulli1_total (p : R) :
  (0 <= p <= 1)%R -> forall g, exists v g', bernoulli1 p g = inr (v, g').
Proof.
  intros [H0 H1] g. unfold bernoulli1.
  rewrite (Rleb_true _ _ H0), (Rleb_true _ _ H1). simpl.
  unfold uniform1, next_raw, bind, ret. eauto.
Qed.

Lemma bernoulli_inv (p : list (list R)) (g g' : Rng) (m : list (list R)) :
  bernoulli p g = inr (m, g') ->
  same_shape m p /\ binary (map (map round_long) m).
Proof.
  intros H.
  assert (H2 : Forall2 (Forall2 (fun _ v => v = 0%R \/ v = 1%R)) p m).
  { revert H. apply mapM_inv. intros ra g0 rb g1. apply mapM_inv.
    intros q g2 v g3. apply bernoulli1_inv. }
  split.
  - apply same_shape_sym. eapply Forall2_same_shape; eauto.
  - unfold binary. rewrite Forall_map.
    eapply Forall2_right; [|exact H2]. intros ra rb Hr. simpl in Hr.
    rewrite Forall_map. eapply Forall2_right; [|exact Hr].
    intros _ v [-> | ->]; simpl; [left; apply round_long_0|right; apply round_long_1].
Qed.

Lemma bernoulli_total (p : list (list R)) :
  Forall (Forall (fun q => 0 <= q <= 1)%R) p ->
  forall g, exists m g', bernoulli p g = inr (m, g').
Proof.
  intros H. apply mapM_total. eapply Forall_impl; [|exact H].
  intros ra Hra. apply mapM_total. eapply Forall_impl; [|exact Hra].
  intros q Hq. now apply bernoulli1_total.
Qed.

Lemma randint1_range (n : Z) (g g' : Rng) (v : Z) :
  (0 < n)%Z -> randint1 0 n g = inr (v, g') -> (0 <= v < n)%Z.
Proof.
  intros Hn. unfold randint1, next_raw, bind, ret. intros H. inversion H.
  pose proof (Z.mod_pos_bound (tape g (cursor g)) (n - 0) ltac:(lia)). lia.
Qed.

Lemma randint1_total (low high : Z) (g : Rng) :
  exists v g', randint1 low high g = inr (v, g').
Proof. unfold randint1, next_raw, bind, ret. eauto. Qed.

Lemma randint_like_inv (x : tokens) (n : Z) (g g' : Rng) (t : tokens) :
  randint_like x 0 n g = inr (t, g') -> same_shape t x /\ in_range n t.
Proof.
  unfold randint_like. destruct (Z.leb_spec n 0) as [Hn|Hn]; [discriminate|].
  intros H.
  assert (H2 : Forall2 (Forall2 (fun _ v => 0 <= v < n)%Z) x t).
  { revert H. apply mapM_inv. intros ra g0 rb g1. apply mapM_inv.
    intros q g2 v g3. now apply randint1_range. }
  split.
  - apply same_shape_sym. eapply Forall2_same_shape; eauto.
  - eapply Forall2_right; [|exact H2]. intros ra rb Hr.
    eapply Forall2_right; [|exact Hr]. auto.
Qed.

Lemma randint_like_total (x : tokens) (n : Z) :
  (0 < n)%Z -> forall g, exists t g', randint_like x 0 n g = inr (t, g').
Proof.
  intros Hn. unfold randint_like.
  destruct (Z.leb_spec n 0) as [H|H]; [lia|].
  apply mapM_total. apply Forall_forall. intros ra _.
  apply mapM_total. apply Forall_forall. intros q _ g. apply randint1_total.
Qed.

Lemma randint_inv (n : Z) (batch npos : nat) (g g' : Rng) (t : tokens) :
  randint 0 n batch npos g = inr (t, g') ->
  in_range n t /\ length t = batch /\ Forall (fun row => length row = npos) t.
Proof.
  unfold randint. destruct (Z.leb_spec n 0) as [Hn|Hn]; [discriminate|].
  intros H.
  assert (H2 : Forall2 (fun _ row => Forall2 (fun _ v => 0 <= v < n)%Z
                                        (repeat tt npos) row)
                 (repeat tt batch) t).
  { revert H. apply mapM_inv. intros ra g0 rb g1. apply mapM_inv.
    intros q g2 v g3. now apply randint1_range. }
  repeat split.
  - eapply Forall2_right; [|exact H2]. intros ra rb Hr.
    eapply Forall2_right; [|exact Hr]. auto.
  - apply Forall2_length in H2. now rewrite repeat_length in H2.
  - eapply Forall2_right; [|exact H2]. intros ra rb Hr.
    apply Forall2_length in Hr. now rewrite repeat_length in Hr.
Qed.

Lemma randint_total (n : Z) (batch npos : nat) :
  (0 < n)%Z -> forall g, exists t g', randint 0 n batch npos g = inr (t, g').
Proof.
  intros Hn. unfold randint.
  destruct (Z.leb_spec n 0) as [H|H]; [lia|].
  apply mapM_total. apply Forall_forall. intros ra _.
  apply mapM_total. apply Forall_forall. intros q _ g. apply randint1_total.
Qed.

(** ** add_noise *)

Lemma get2_restore (a m b : tokens) (i k : nat) :
  get2 (tadd (tmul a m) (tmul (rsub 1 m) b)) i k
  = match get2 a i k, get2 m i k, get2 b i k with
    | Some u, Some w, Some v => Some (u * w + (1 - w) * v)%Z
    | _, _, _ => None
    end.
Proof.
  unfold tadd, tmul, rsub. rewrite !get2_zip_with, get2_map.
  destruct (get2 a i k), (get2 m i k), (get2 b i k); reflexivity.
Qed.

Lemma get2_noised (x m s : tokens) (i k : nat) :
  get2 (tadd (tmul x (rsub 1 m)) (tmul s m)) i k
  = match get2 x i k, get2 m i k, get2 s i k with
    | Some u, Some w, Some v => Some (u * (1 - w) + v * w)%Z
    | _, _, _ => None
    end.
Proof.
  unfold tadd, tmul, rsub. rewrite !get2_zip_with, get2_map.
  destruct (get2 x i k), (get2 m i k), (get2 s i k); reflexivity.
Qed.

Lemma Forall_of_get2 {A : Type} (P : A -> Prop) (a : list (list A)) :
  (forall i k u, get2 a i k = Some u -> P u) -> Forall (Forall P) a.
Proof.
  intros H. apply Forall_forall. intros row Hrow. apply Forall_forall.
  intros u Hu. apply In_nth_error in Hrow, Hu.
  destruct Hrow as [i Hi], Hu as [k Hk]. apply (H i k).
  unfold get2. now rewrite Hi.
Qed.

(** The probabilities handed to [torch.bernoulli] by [add_noise]. *)
Lemma noise_probabilities (r : list R) (x : tokens) :
  Forall (fun v => 0 <= v <= 999999 / 1000000)%R r ->
  Forall (Forall (fun q => 0 <= q <= 1)%R)
    (zip_with (fun rb xb => map (fun o => (rb * IZR o)%R) (ones_like xb))
       (map gamma r) x).
Proof.
  intros H. revert x. induction H as [|v r Hv _ IH]; intros [|xb x]; simpl;
    constructor; auto.
  unfold ones_like. rewrite !Forall_map. apply Forall_forall. intros _ _.
  pose proof (gamma_bounds v Hv). lra.
Qed.

Lemma noise_probabilities_shape (r : list R) (x : tokens) :
  length r = length x ->
  same_shape
    (zip_with (fun rb xb => map (fun o => (rb * IZR o)%R) (ones_like xb))
       (map gamma r) x) x.
Proof.
  revert x. induction r as [|v r IH]; intros [|xb x] H; simpl in H;
    try discriminate; simpl; constructor.
  - unfold ones_like. now rewrite !length_map.
  - apply IH. lia.
Qed.

Lemma add_noise_inv (nl : Z) (x : tokens) (r : list R)
  (random_x : option tokens) (g g' : Rng) (p : tokens * tokens) :
  add_noise nl x r random_x g = inr (p, g') ->
  exists mask src,
    p = (tadd (tmul x (rsub 1 mask)) (tmul src mask), mask) /\
    binary mask /\
    match random_x with
    | Some rx => src = rx
    | None => same_shape src x /\ in_range nl src
    end.
Proof.
  unfold add_noise. cbv zeta. intros H.
  apply bind_inr in H. destruct H as (mf & g1 & Hb & H).
  apply bind_inr in H. destruct H as (src & g2 & Hs & H).
  inversion H. subst. exists (map (map round_long) mf), src.
  split; [reflexivity|]. split; [apply (bernoulli_inv _ _ _ _ Hb)|].
  destruct random_x as [rx|].
  - inversion Hs. reflexivity.
  - now apply randint_like_inv in Hs.
Qed.

Lemma noised_in_range (n : Z) (x mask src : tokens) :
  in_range n x -> in_range n src -> binary mask ->
  in_range n (tadd (tmul x (rsub 1 mask)) (tmul src mask)).
Proof.
  intros Hx Hs Hm. apply Forall_of_get2. intros i k u. rewrite get2_noised.
  destruct (get2 x i k) as [xv|] eqn:Ex; [|discriminate].
  destruct (get2 mask i k) as [w|] eqn:Ew; [|discriminate].
  destruct (get2 src i k) as [sv|] eqn:Es; [|discriminate].
  intros [= <-].
  pose proof (Forall_get2 _ _ _ _ _ Hx Ex) as Hxv.
  pose proof (Forall_get2 _ _ _ _ _ Hs Es) as Hsv.
  pose proof (Forall_get2 _ _ _ _ _ Hm Ew) as Hw. simpl in Hxv, Hsv, Hw.
  destruct Hw as [-> | ->]; simpl; lia.
Qed.

Lemma noised_shape (x mask src : tokens) :
  same_shape mask x -> same_shape src x ->
  same_shape (tadd (tmul x (rsub 1 mask)) (tmul src mask)) x.
Proof.
  intros Hm Hs.
  assert (H1 : same_shape (tmul x (rsub 1 mask)) x).
  { apply same_shape_zip_with. apply same_shape_sym.
    eapply same_shape_trans; [apply same_shape_map|exact Hm]. }
  assert (H2 : same_shape (tmul src mask) src).
  { apply same_shape_zip_with.
    eapply same_shape_trans; [exact Hs|now apply same_shape_sym]. }
  eapply same_shape_trans; [|exact H1]. apply same_shape_zip_with.
  eapply same_shape_trans; [exact H1|]. apply same_shape_sym.
  eapply same_shape_trans; [exact H2|exact Hs].
Qed.

Lemma flat_denoiser_ok (n : nat) : (0 < n)%nat -> denoiser_ok (flat_denoiser n).
Proof.
  intros Hn. split; [simpl; lia|]. intros x c r cf. simpl.
  rewrite Nat2Z.id. unfold logits_shape.
  induction x as [|xb x IH]; simpl; constructor; auto.
  clear IH. induction xb; simpl; constructor; auto. apply repeat_length.
Qed.


(** ** torch.sort *)

Lemma insert_by_perm (p : R * nat) (l : list (R * nat)) :
  Permutation (p :: l) (insert_by p l).
Proof.
  induction l as [|q l IH]; simpl; auto.
  destruct (Rleb (fst p) (fst q)); auto.
  rewrite perm_swap. now constructor.
Qed.

Lemma insert_by_sorted (p : R * nat) (l : list (R * nat)) :
  StronglySorted by_value l -> StronglySorted by_value (insert_by p l).
Proof.
  induction 1 as [|q l Hl IH Hq]; simpl.
  - repeat constructor.
  - unfold Rleb. destruct (Rle_dec (fst p) (fst q)) as [Hpq|Hpq].
    + constructor; [now constructor|]. constructor; [exact Hpq|].
      eapply Forall_impl; [|exact Hq]. unfold by_value. intros a Ha. lra.
    + constructor; [exact IH|].
      eapply Permutation_Forall; [apply insert_by_perm|].
      constructor; [unfold by_value; lra|exact Hq].
Qed.

Lemma sort_pairs_perm (l : list (R * nat)) :
  Permutation l (fold_right insert_by [] l).
Proof.
  induction l as [|p l IH]; simpl; auto.
  etransitivity; [|apply insert_by_perm]. now constructor.
Qed.

Lemma sort_pairs_sorted (l : list (R * nat)) :
  StronglySorted by_value (fold_right insert_by [] l).
Proof.
  induction l as [|p l IH]; simpl; [constructor|now apply insert_by_sorted].
Qed.

Lemma combine_seq_lookup (d : list R) :
  forall s, Forall (fun p => nth_error d (snd p - s) = Some (fst p)
                             /\ (s <= snd p)%nat)
              (combine d (seq s (length d))).
Proof.
  induction d as [|v d IH]; intros s; simpl; constructor.
  - simpl. rewrite Nat.sub_diag. auto.
  - eapply Forall_impl; [|apply (IH (S s))]. intros [w i] [Hw Hi]. simpl in *.
    split; [|lia]. replace (i - s)%nat with (S (i - S s)) by lia. exact Hw.
Qed.

Lemma map_snd_combine_seq (d : list R) (s : nat) :
  map snd (combine d (seq s (length d))) = seq s (length d).
Proof.
  revert s. induction d as [|v d IH]; intros s; simpl; auto. now rewrite IH.
Qed.

(** The indices of a sort are a permutation of the positions of the row. *)
Lemma sort_indices_perm (d : list R) :
  Permutation (snd (sort d)) (seq 0 (length d)).
Proof.
  unfold sort. simpl. rewrite <- (map_snd_combine_seq d 0) at 2.
  apply Permutation_map, Permutation_sym, sort_pairs_perm.
Qed.

(** Each sorted value is the value of the row at the index next to it. *)
Lemma sort_values (d : list R) :
  Forall2 (fun v i => nth_error d i = Some v) (fst (sort d)) (snd (sort d)).
Proof.
  unfold sort. simpl.
  assert (H : Forall (fun p => nth_error d (snd p) = Some (fst p))
                (fold_right insert_by [] (combine d (seq 0 (length d))))).
  { eapply Permutation_Forall; [apply sort_pairs_perm|].
    eapply Forall_impl; [|apply (combine_seq_lookup d 0)].
    intros [w i] [Hw _]. simpl in *. now rewrite Nat.sub_0_r in Hw. }
  induction H; simpl; constructor; auto.
Qed.

(** The sorted values ascend. *)
Lemma sort_ascending (d : list R) : StronglySorted Rle (fst (sort d)).
Proof.
  unfold sort. simpl.
  pose proof (sort_pairs_sorted (combine d (seq 0 (length d)))) as H.
  induction H as [|q l Hl IH Hq]; simpl; constructor; auto.
  rewrite Forall_map. exact Hq.
Qed.

Lemma sort_lengths (d : list R) :
  length (fst (sort d)) = length d /\ length (snd (sort d)) = length d.
Proof.
  pose proof (Permutation_length (sort_indices_perm d)) as H.
  rewrite length_seq in H. split; [|exact H].
  rewrite <- H. apply (Forall2_length (sort_values d)).
Qed.

Lemma sorted_nth_le (l : list R) :
  StronglySorted Rle l ->
  forall i j u v, (i <= j)%nat -> nth_error l i = Some u ->
                  nth_error l j = Some v -> (u <= v)%R.
Proof.
  induction 1 as [|a l Hl IH Ha]; intros i j u v Hij Hu Hv.
  - destruct i; discriminate.
  - destruct i as [|i], j as [|j]; simpl in *; try lia.
    + inversion Hu; inversion Hv; subst. lra.
    + inversion Hu; subst. apply nth_error_In in Hv.
      rewrite Forall_forall in Ha. auto.
    + apply (IH i j); auto. lia.
Qed.

(** ** softmax and cumsum *)

Lemma rsum_exp_pos (l : list R) : l <> [] -> (0 < rsum (map exp l))%R.
Proof.
  destruct l as [|v l]; [congruence|]. intros _. simpl.
  assert (H : (0 <= rsum (map exp l))%R).
  { induction l as [|w l IH]; simpl; [lra|].
    pose proof (exp_pos w). lra. }
  pose proof (exp_pos v). lra.
Qed.

Lemma rsum_map_div (f : R -> R) (s : R) (l : list R) :
  rsum (map (fun v => f v / s)%R l) = (rsum (map f l) / s)%R.
Proof.
  induction l as [|v l IH]; simpl; [lra|]. rewrite IH. lra.
Qed.

Lemma rsum_softmax (l : list R) : l <> [] -> rsum (softmax l) = 1%R.
Proof.
  intros Hl. unfold softmax. rewrite rsum_map_div.
  pose proof (rsum_exp_pos l Hl). now field_simplify_eq; [|lra].
Qed.

Lemma softmax_nonneg (l : list R) : Forall (fun p => 0 <= p)%R (softmax l).
Proof.
  destruct l as [|v l]; [constructor|].
  pose proof (rsum_exp_pos (v :: l) ltac:(congruence)) as Hs.
  unfold softmax. rewrite Forall_map. apply Forall_forall. intros w _.
  pose proof (exp_pos w). apply Rlt_le. now apply Rdiv_lt_0_compat.
Qed.

Lemma softmax_length (l : list R) : length (softmax l) = length l.
Proof. unfold softmax. apply length_map. Qed.

Lemma cumsum_from_length (acc : R) (l : list R) :
  length (cumsum_from acc l) = length l.
Proof. revert acc. induction l; simpl; auto. Qed.

Lemma cumsum_length (l : list R) : length (cumsum l) = length l.
Proof. destruct l; simpl; auto. now rewrite cumsum_from_length. Qed.

Lemma cumsum_from_total (l : list R) :
  forall acc, l <> [] -> In (acc + rsum l)%R (cumsum_from acc l).
Proof.
  induction l as [|v l IH]; intros acc Hl; [congruence|]. simpl.
  destruct l as [|w l].
  - left. simpl. lra.
  - right. replace (acc + (v + rsum (w :: l)))%R
      with ((acc + v) + rsum (w :: l))%R by lra.
    apply IH. congruence.
Qed.

(** The last running sum is the sum of the row. *)
Lemma cumsum_total (l : list R) : l <> [] -> In (rsum l) (cumsum l).
Proof.
  destruct l as [|v l]; [congruence|]. intros _. simpl.
  destruct l as [|w l]; [left; simpl; lra|].
  right. apply cumsum_from_total. congruence.
Qed.

Lemma cumsum_from_sorted (l : list R) :
  Forall (fun p => 0 <= p)%R l ->
  forall acc, StronglySorted Rle (cumsum_from acc l) /\
              Forall (Rle acc) (cumsum_from acc l).
Proof.
  induction 1 as [|v l Hv _ IH]; intros acc; simpl.
  - split; constructor.
  - destruct (IH (acc + v)%R) as [Hs Hb]. split.
    + constructor; auto.
    + constructor; [lra|]. eapply Forall_impl; [|exact Hb].
      intros a Ha. simpl in Ha. lra.
Qed.

(** Running sums of non-negative entries ascend. *)
Lemma cumsum_sorted (l : list R) :
  Forall (fun p => 0 <= p)%R l -> StronglySorted Rle (cumsum l).
Proof.
  intros H. destruct H as [|v l Hv Hl]; simpl; [constructor|].
  destruct (cumsum_from_sorted l Hl v) as [Hs Hb]. now constructor.
Qed.

Lemma filter_none {A : Type} (f : A -> bool) (l : list A) :
  Forall (fun a => f a = false) l -> filter f l = [].
Proof. induction 1 as [|a l Ha _ IH]; simpl; auto. now rewrite Ha. Qed.

(** On an ascending row the entries below [m] are a prefix. *)
Lemma filter_lt_sorted (m : R) (l : list R) :
  StronglySorted Rle l ->
  (forall j v, (j < length (filter (fun v => Rltb v m) l))%nat ->
               nth_error l j = Some v -> (v < m)%R) /\
  (forall j v, (length (filter (fun v => Rltb v m) l) <= j)%nat ->
               nth_error l j = Some v -> (m <= v)%R).
Proof.
  induction 1 as [|a l Hl [IH1 IH2] Ha]; simpl.
  - split; intros [|j] v _ Hv; discriminate.
  - destruct (Rlt_dec a m) as [Ham|Ham];
      [rewrite !(Rltb_true a m Ham)
      |rewrite !(Rltb_false a m ltac:(lra))]; simpl.
    + split; intros [|j] v Hj Hv; simpl in Hv, Hj.
      * inversion Hv. now subst.
      * apply (IH1 j); auto. lia.
      * exfalso. lia.
      * apply (IH2 j); auto. lia.
    + rewrite filter_none.
      * split; intros [|j] v Hj Hv; simpl in *; try (exfalso; lia).
        -- inversion Hv. subst. lra.
        -- apply nth_error_In in Hv. rewrite Forall_forall in Ha.
           specialize (Ha _ Hv). lra.
      * eapply Forall_impl; [|exact Ha]. intros v Hv. simpl.
        apply Rltb_false. lra.
Qed.

Lemma filter_length_lt {A : Type} (f : A -> bool) (l : list A) (a : A) :
  In a l -> f a = false -> (length (filter f l) < length l)%nat.
Proof.
  induction l as [|b l IH]; simpl; [tauto|]. intros [->|Hin] Ha.
  - rewrite Ha. pose proof (filter_length_le f l). lia.
  - specialize (IH Hin Ha). destruct (f b); simpl; lia.
Qed.

(** ** gather *)

Lemma gather_inv {A : Type} (t : list A) (idx : list nat) (g : list A) :
  gather t idx = inr g -> Forall2 (fun i v => nth_error t i = Some v) idx g.
Proof.
  apply emap_inv. intros i v. destruct (nth_error t i); [|discriminate].
  now intros [= ->].
Qed.

Lemma gather_total {A : Type} (t : list A) (idx : list nat) :
  Forall (fun i => (i < length t)%nat) idx -> exists g, gather t idx = inr g.
Proof.
  intros H. apply emap_total. eapply Forall_impl; [|exact H].
  intros i Hi. apply nth_error_Some in Hi.
  destruct (nth_error t i); [eauto|congruence].
Qed.

(** ** scatter *)

Lemma upd_some {A : Type} (l : list A) (v : A) :
  forall i, (i < length l)%nat ->
    exists l', upd l i v = Some l' /\ length l' = length l /\
               nth_error l' i = Some v /\
               forall k, k <> i -> nth_error l' k = nth_error l k.
Proof.
  induction l as [|a l IH]; intros i Hi; simpl in Hi; [lia|].
  destruct i as [|i]; simpl.
  - exists (v :: l). repeat split; auto. intros [|k] Hk; [congruence|reflexivity].
  - destruct (IH i ltac:(lia)) as (l' & Hu & Hlen & Hi' & Hk).
    rewrite Hu. simpl. exists (a :: l'). repeat split; simpl; auto.
    intros [|k] Hne; simpl; auto.
Qed.

Lemma scatter_spec {A : Type} (idx : list nat) :
  forall (self src : list A),
    length idx = length src ->
    Forall (fun i => (i < length self)%nat) idx ->
    NoDup idx ->
    exists out,
      scatter self idx src = inr out /\ length out = length self /\
      (forall j i v, nth_error idx j = Some i -> nth_error src j = Some v ->
                     nth_error out i = Some v) /\
      (forall k, ~ In k idx -> nth_error out k = nth_error self k).
Proof.
  induction idx as [|i idx IH]; intros self src Hlen Hin Hnd.
  - exists self. simpl. repeat split; auto. intros [|j] i v H; discriminate.
  - destruct src as [|v src]; [discriminate|]. simpl in Hlen.
    inversion Hin as [|? ? Hi Hin']. inversion Hnd as [|? ? Hni Hnd']. subst.
    destruct (upd_some self v i Hi) as (self' & Hu & Hl' & Hv & Hother).
    destruct (IH self' src ltac:(lia)) as (out & Hs & Hlo & Hw & Hr); auto.
    { now rewrite Hl'. }
    exists out. simpl. rewrite Hu. repeat split; auto; [congruence| |].
    + intros [|j] i' v' Hi' Hv'; simpl in *.
      * inversion Hi'. inversion Hv'. subst. now rewrite (Hr i' Hni).
      * eauto.
    + intros k Hk. rewrite Hr by tauto. apply Hother. intros ->. tauto.
Qed.

(** ** The typical filter *)

Lemma typical_distance_length (x : list R) :
  length (typical_distance x) = length x.
Proof. unfold typical_distance, log_softmax. now rewrite !length_map. Qed.

Lemma perm_seq_bound (idx : list nat) (n : nat) :
  Permutation idx (seq 0 n) -> Forall (fun i => (i < n)%nat) idx.
Proof.
  intros H. eapply Permutation_Forall; [apply Permutation_sym, H|].
  apply Forall_forall. intros i Hi. apply in_seq in Hi. lia.
Qed.

Lemma perm_seq_NoDup (idx : list nat) (n : nat) :
  Permutation idx (seq 0 n) -> NoDup idx.
Proof.
  intros H. eapply Permutation_NoDup; [apply Permutation_sym, H|].
  apply seq_NoDup.
Qed.

(** Lines 123-126 return, and the cut-off lies inside the row. *)
Lemma typical_prepare_ok (mass : R) (x : list R) :
  x <> [] -> (mass <= 1)%R ->
  exists g,
    gather x (snd (sort (typical_distance x))) = inr g /\
    length g = length x /\
    typical_prepare mass x
    = inr (mkTypical (fst (sort (typical_distance x)))
             (snd (sort (typical_distance x)))
             (cumsum (softmax g))
             (length (filter (fun v => Rltb v mass) (cumsum (softmax g))))) /\
    (length (filter (fun v => Rltb v mass) (cumsum (softmax g)))
     < length x)%nat.
Proof.
  intros Hx Hm.
  pose proof (sort_indices_perm (typical_distance x)) as Hperm.
  rewrite typical_distance_length in Hperm.
  destruct (gather_total x _ (perm_seq_bound _ _ Hperm)) as [g Hg].
  assert (Hlen : length g = length x).
  { rewrite <- (Forall2_length (gather_inv _ _ _ Hg)).
    rewrite (Permutation_length Hperm). apply length_seq. }
  exists g. split; [exact Hg|]. split; [exact Hlen|]. split.
  - unfold typical_prepare. cbv zeta.
    destruct (sort (typical_distance x)) as [sorted indices]. simpl in *.
    now rewrite Hg.
  - assert (Hg0 : softmax g <> []).
    { intros H0. apply (f_equal (@length R)) in H0.
      rewrite softmax_length, Hlen in H0. destruct x; [congruence|discriminate]. }
    assert (Hg1 : g <> []) by (intros ->; now apply Hg0).
    replace (length x) with (length (cumsum (softmax g)))
      by (now rewrite cumsum_length, softmax_length).
    apply filter_length_lt with (a := rsum (softmax g)).
    + now apply cumsum_total.
    + rewrite rsum_softmax by assumption. now apply Rltb_false.
Qed.

Lemma nth_error_clear_prefix (m : nat) (t : list bool) (j : nat) (b : bool) :
  nth_error t j = Some b ->
  nth_error (clear_prefix m t) j = Some (b && negb (j <? m)%nat).
Proof.
  intros Hb. unfold clear_prefix.
  assert (Hj : (j < length t)%nat) by (apply nth_error_Some; congruence).
  destruct (Nat.ltb_spec j m) as [Hjm|Hjm]; simpl.
  - rewrite nth_error_app1 by (rewrite repeat_length; lia).
    rewrite andb_false_r. apply nth_error_repeat. lia.
  - rewrite nth_error_app2 by (rewrite repeat_length; lia).
    rewrite repeat_length, nth_error_skipn, andb_true_r.
    replace (m + (j - Nat.min m (length t)))%nat with j by lia. exact Hb.
Qed.

(** Lines 127-130 return; the class at sorted position [j] is removed when
    its distance exceeds the one at the cut-off, unless [j] is one of the
    first [typical_min_tokens > 1] positions. *)
Lemma typical_remove_spec (min_tokens : nat) (st : typical_state) (n : nat) :
  length (c_flat_sorted st) = n ->
  Permutation (x_flat_indices st) (seq 0 n) ->
  (last_ind st < n)%nat ->
  exists rem thr,
    typical_remove min_tokens st = inr rem /\ length rem = n /\
    nth_error (c_flat_sorted st) (last_ind st) = Some thr /\
    forall j k dist,
      nth_error (x_flat_indices st) j = Some k ->
      nth_error (c_flat_sorted st) j = Some dist ->
      nth_error rem k
      = Some (Rltb thr dist
              && negb ((1 <? min_tokens)%nat && (j <? min_tokens)%nat)).
Proof.
  intros Hlen Hperm Hlast.
  destruct (nth_error (c_flat_sorted st) (last_ind st)) as [thr|] eqn:Hthr;
    [|apply nth_error_None in Hthr; lia].
  set (rs := if (1 <? min_tokens)%nat
             then clear_prefix min_tokens
                    (map (fun v => Rltb thr v) (c_flat_sorted st))
             else map (fun v => Rltb thr v) (c_flat_sorted st)).
  assert (Hrs : forall j dist,
             nth_error (c_flat_sorted st) j = Some dist ->
             nth_error rs j
             = Some (Rltb thr dist
                     && negb ((1 <? min_tokens)%nat && (j <? min_tokens)%nat))).
  { intros j dist Hd. unfold rs.
    assert (Hm : nth_error (map (fun v => Rltb thr v) (c_flat_sorted st)) j
                 = Some (Rltb thr dist)) by (now rewrite nth_error_map, Hd).
    destruct (1 <? min_tokens)%nat; simpl.
    - now apply nth_error_clear_prefix.
    - now rewrite andb_true_r. }
  assert (Hrlen : length rs = n).
  { unfold rs. destruct (1 <? min_tokens)%nat.
    - unfold clear_prefix.
      rewrite length_app, repeat_length, length_skipn, length_map. lia.
    - rewrite length_map. lia. }
  destruct (scatter_spec (x_flat_indices st) rs rs) as (out & Hs & Hlo & Hw & _).
  { rewrite (Permutation_length Hperm), length_seq. congruence. }
  { rewrite Hrlen. now apply perm_seq_bound. }
  { eapply perm_seq_NoDup; eauto. }
  exists out, thr. split.
  { unfold typical_remove, gather. simpl. rewrite Hthr. simpl. exact Hs. }
  split; [congruence|]. split; [reflexivity|].
  intros j k dist Hk Hd. apply (Hw j); auto.
Qed.

Lemma nth_error_masked_fill (x : list R) (rem : list bool) (k : nat) :
  nth_error (masked_fill x rem) k
  = lift2 (fun v (b : bool) => if b then NegInf else Fin v)
      (nth_error x k) (nth_error rem k).
Proof. apply nth_error_zip_with. Qed.

(** The typical filter returns on a non-empty row; what it keeps. *)
Lemma typical_filter_retention (mass : R) (min_tokens : nat) (x : list R) :
  x <> [] -> (mass <= 1)%R ->
  exists g out thr,
    let sorted := fst (sort (typical_distance x)) in
    let indices := snd (sort (typical_distance x)) in
    let cum := cumsum (softmax g) in
    let last := length (filter (fun v => Rltb v mass) cum) in
    gather x indices = inr g /\ length g = length x /\
    typical_prepare mass x = inr (mkTypical sorted indices cum last) /\
    typical_filter mass min_tokens x = inr out /\
    length out = length x /\
    (last < length x)%nat /\
    nth_error sorted last = Some thr /\
    forall j k dist,
      nth_error indices j = Some k -> nth_error sorted j = Some dist ->
      exists xv,
        nth_error x k = Some xv /\
        nth_error out k
        = Some (if Rltb thr dist
                   && negb ((1 <? min_tokens)%nat && (j <? min_tokens)%nat)
                then NegInf else Fin xv).
Proof.
  intros Hx Hm.
  destruct (typical_prepare_ok mass x Hx Hm) as (g & Hg & Hglen & Hprep & Hlast).
  pose proof (sort_indices_perm (typical_distance x)) as Hperm.
  pose proof (sort_lengths (typical_distance x)) as [Hsl _].
  rewrite typical_distance_length in Hperm, Hsl.
  set (st := mkTypical (fst (sort (typical_distance x)))
               (snd (sort (typical_distance x))) (cumsum (softmax g))
               (length (filter (fun v => Rltb v mass) (cumsum (softmax g))))) in *.
  destruct (typical_remove_spec min_tokens st (length x) Hsl Hperm Hlast)
    as (rem & thr & Hrem & Hrlen & Hthr & Hflag).
  exists g, (masked_fill x rem), thr. cbv zeta.
  split; [exact Hg|]. split; [exact Hglen|]. split; [exact Hprep|]. split.
  { unfold typical_filter. rewrite Hprep. simpl. rewrite Hrem. reflexivity. }
  split.
  { unfold masked_fill. apply length_zip_with. congruence. }
  split; [exact Hlast|]. split; [exact Hthr|].
  intros j k dist Hk Hd.
  assert (Hkx : (k < length x)%nat).
  { pose proof (perm_seq_bound _ _ Hperm) as Hb. rewrite Forall_forall in Hb.
    apply Hb. eapply nth_error_In; eauto. }
  destruct (nth_error x k) as [xv|] eqn:Hxv;
    [|apply nth_error_None in Hxv; lia].
  exists xv. split; [reflexivity|].
  rewrite nth_error_masked_fill, Hxv, (Hflag j k dist Hk Hd). reflexivity.
Qed.

(** Whenever the typical filter returns, the cut-off lies inside the row,
    and what it keeps is as above. *)
Lemma typical_filter_returned (mass : R) (min_tokens : nat) (x : list R)
  (out : list score) :
  typical_filter mass min_tokens x = inr out ->
  exists g thr,
    let sorted := fst (sort (typical_distance x)) in
    let indices := snd (sort (typical_distance x)) in
    let cum := cumsum (softmax g) in
    let last := length (filter (fun v => Rltb v mass) cum) in
    gather x indices = inr g /\ length g = length x /\
    length out = length x /\
    (last < length x)%nat /\
    nth_error sorted last = Some thr /\
    forall j k dist,
      nth_error indices j = Some k -> nth_error sorted j = Some dist ->
      exists xv,
        nth_error x k = Some xv /\
        nth_error out k
        = Some (if Rltb thr dist
                   && negb ((1 <? min_tokens)%nat && (j <? min_tokens)%nat)
                then NegInf else Fin xv).
Proof.
  intros H.
  pose proof (sort_indices_perm (typical_distance x)) as Hperm.
  pose proof (sort_lengths (typical_distance x)) as [Hsl _].
  rewrite typical_distance_length in Hperm, Hsl.
  destruct (gather_total x _ (perm_seq_bound _ _ Hperm)) as [g Hg].
  assert (Hglen : length g = length x).
  { rewrite <- (Forall2_length (gather_inv _ _ _ Hg)).
    rewrite (Permutation_length Hperm). apply length_seq. }
  set (st := mkTypical (fst (sort (typical_distance x)))
               (snd (sort (typical_distance x))) (cumsum (softmax g))
               (length (filter (fun v => Rltb v mass) (cumsum (softmax g))))).
  assert (Hprep : typical_prepare mass x = inr st).
  { unfold typical_prepare, st. cbv zeta.
    destruct (sort (typical_distance x)) as [sorted indices]. simpl in *.
    now rewrite Hg. }
  unfold typical_filter in H. rewrite Hprep in H. cbn [ebind] in H.
  assert (Hlast : (last_ind st < length x)%nat).
  { destruct (Nat.lt_ge_cases (last_ind st) (length x)) as [Hlt|Hge];
      [exact Hlt|exfalso].
    assert (Hn : nth_error (c_flat_sorted st) (last_ind st) = None).
    { apply nth_error_None. unfold st in *. cbn [c_flat_sorted last_ind] in *.
      lia. }
    unfold typical_remove, gather in H. cbn [emap ebind] in H.
    rewrite Hn in H. discriminate. }
  destruct (typical_remove_spec min_tokens st (length x) Hsl Hperm Hlast)
    as (rem & thr & Hrem & Hrlen & Hthr & Hflag).
  rewrite Hrem in H. cbn [ebind] in H. inversion H. subst out. clear H.
  exists g, thr. cbv zeta.
  split; [exact Hg|]. split; [exact Hglen|]. split.
  { unfold masked_fill. apply length_zip_with. congruence. }
  split; [exact Hlast|]. split; [exact Hthr|].
  intros j k dist Hk Hd.
  assert (Hkx : (k < length x)%nat).
  { pose proof (perm_seq_bound _ _ Hperm) as Hb. rewrite Forall_forall in Hb.
    apply Hb. eapply nth_error_In; eauto. }
  destruct (nth_error x k) as [xv|] eqn:Hxv;
    [|apply nth_error_None in Hxv; lia].
  exists xv. split; [reflexivity|].
  rewrite nth_error_masked_fill, Hxv, (Hflag j k dist Hk Hd). reflexivity.
Qed.

Lemma Permutation_filter_length {A : Type} (f : A -> bool) (l l' : list A) :
  Permutation l l' -> length (filter f l) = length (filter f l').
Proof.
  induction 1; simpl; auto.
  - destruct (f x); simpl; auto.
  - destruct (f x), (f y); reflexivity.
  - congruence.
Qed.

Lemma map_nth_seq {A : Type} (d : A) (l : list A) :
  map (fun k => nth k l d) (seq 0 (length l)) = l.
Proof.
  induction l as [|a l IH]; simpl; auto. f_equal.
  rewrite <- seq_shift, map_map. exact IH.
Qed.

(** The classes listed first by an index permutation and kept by the filter
    bound the number of kept classes from below. *)
Lemma finite_count_prefix (out : list score) (idx : list nat) (m : nat) :
  Permutation idx (seq 0 (length out)) ->
  (m <= length out)%nat ->
  (forall j k, (j < m)%nat -> nth_error idx j = Some k ->
               exists v, nth_error out k = Some (Fin v)) ->
  (m <= finite_count out)%nat.
Proof.
  intros Hperm Hm Hkeep. unfold finite_count.
  rewrite <- (map_nth_seq NegInf out) at 1.
  rewrite <- (Permutation_filter_length is_finite _ _
                (Permutation_map (fun k => nth k out NegInf) Hperm)).
  rewrite <- (firstn_skipn m idx), map_app, filter_app, length_app.
  assert (Hall : filter is_finite (map (fun k => nth k out NegInf) (firstn m idx))
                 = map (fun k => nth k out NegInf) (firstn m idx)).
  { apply forallb_filter_id. apply forallb_forall. intros s Hs.
    apply in_map_iff in Hs. destruct Hs as (k & <- & Hk).
    apply In_nth_error in Hk. destruct Hk as [j Hj].
    assert (Hjm : (j < m)%nat).
    { assert (Hlt : (j < length (firstn m idx))%nat)
        by (apply nth_error_Some; congruence).
      rewrite length_firstn in Hlt. lia. }
    rewrite nth_error_firstn in Hj.
    destruct (Nat.ltb_spec j m); [|lia].
    destruct (Hkeep j k Hjm Hj) as [v Hv].
    now rewrite (nth_error_nth _ _ _ Hv). }
  rewrite Hall, length_map, length_firstn.
  rewrite (Permutation_length Hperm), length_seq. lia.
Qed.

(** C3: whenever the filter returns a row, for every [typical_mass] and
    every [typical_min_tokens >= 1], it has set at most
    [num_labels - typical_min_tokens] scores to minus infinity; so at least
    [typical_min_tokens] classes keep a finite score when the row has that
    many, and at least one always does. *)
Theorem typical_filter_min_tokens (mass : R) (min_tokens : nat) (x : list R)
  (out : list score) :
  typical_filter mass min_tokens x = inr out -> (1 <= min_tokens)%nat ->
  length out = length x /\
  (removed_count out <= length x - min_tokens)%nat /\
  ((min_tokens <= length x)%nat -> (min_tokens <= finite_count out)%nat) /\
  (1 <= finite_count out)%nat.
Proof.
  intros Hout Hmin.
  destruct (typical_filter_returned mass min_tokens x out Hout)
    as (g & thr & _ & _ & Holen & Hlast & Hthr & Hret).
  pose proof (sort_indices_perm (typical_distance x)) as Hperm.
  pose proof (sort_lengths (typical_distance x)) as [Hsl _].
  pose proof (sort_ascending (typical_distance x)) as Hasc.
  rewrite typical_distance_length in Hperm, Hsl.
  assert (Hn : (1 <= length x)%nat) by lia.
  assert (Hkept : (Nat.min min_tokens (length x) <= finite_count out)%nat).
  { apply finite_count_prefix with (idx := snd (sort (typical_distance x))).
    - now rewrite Holen.
    - lia.
    - intros j k Hj Hk.
      destruct (nth_error (fst (sort (typical_distance x))) j) as [dist|] eqn:Hd;
        [|apply nth_error_None in Hd; lia].
      destruct (Hret j k dist Hk Hd) as (xv & _ & Hv). exists xv.
      rewrite Hv. f_equal.
      destruct (Nat.ltb_spec 1 min_tokens) as [H1|H1]; simpl.
      + destruct (Nat.ltb_spec j min_tokens); [|lia].
        now rewrite andb_false_r.
      + assert (j = 0)%nat as -> by lia.
        rewrite Rltb_false; [reflexivity|].
        apply (sorted_nth_le _ Hasc 0 _ _ _ ltac:(lia) Hd Hthr). }
  split; [exact Holen|].
  pose proof (filter_length is_finite out) as Hsum.
  unfold finite_count in *. unfold removed_count. repeat split; lia.
Qed.

Lemma typical_filter_min_tokens_witness :
  exists out,
    typical_filter (1 / 5) 2 [0; 1; 2]%R = inr out /\
    length out = 3%nat /\
    (removed_count out <= 1)%nat /\
    (2 <= finite_count out)%nat /\
    (1 <= finite_count out)%nat.
Proof.
  destruct (typical_filter_retention (1 / 5) 2 [0; 1; 2]%R)
    as (g & out & thr & _ & _ & _ & Hout & _).
  - discriminate.
  - lra.
  - exists out. split; [exact Hout|].
    destruct (typical_filter_min_tokens (1 / 5) 2 [0; 1; 2]%R out Hout)
      as (H1 & H2 & H3 & H4); [lia|].
    split; [exact H1|]. split; [exact H2|]. split; [|exact H4].
    apply H3. simpl. lia.
Defined.

Lemma Rleb_refl (a : R) : Rleb a a = true.
Proof. apply Rleb_true. lra. Qed.

Lemma Rltb_irrefl (a : R) : Rltb a a = false.
Proof. apply Rltb_false. lra. Qed.


(** ** argmax *)

Lemma argmax_from_finite (full : list score) (l : list score) :
  forall best besti i,
    nth_error full besti = Some best ->
    (forall k s, nth_error l k = Some s -> nth_error full (i + k) = Some s) ->
    is_finite best = true \/ Exists (fun s => is_finite s = true) l ->
    exists s, nth_error full (argmax_from best besti i l) = Some s /\
              is_finite s = true.
Proof.
  induction l as [|s l IH]; intros best besti i Hbest Hl Hfin; simpl.
  - destruct Hfin as [Hfin|Hfin]; [eauto|inversion Hfin].
  - assert (Hs : nth_error full i = Some s)
      by (rewrite <- (Nat.add_0_r i); now apply Hl).
    assert (Hl' : forall k t, nth_error l k = Some t ->
                              nth_error full (S i + k) = Some t).
    { intros k t Hk. replace (S i + k)%nat with (i + S k)%nat by lia.
      now apply Hl. }
    destruct (score_ltb best s) eqn:Hlt.
    + apply IH; auto. left. destruct best, s; simpl in *; congruence.
    + apply IH; auto. destruct Hfin as [Hfin|Hfin]; [now left|].
      inversion Hfin as [? ? Hs1|? ? Hs1]; subst; [|now right].
      left. destruct best, s; simpl in *; congruence.
Qed.

(** The arg-max of a row with a finite score is the index of a finite
    score. *)
Lemma argmax_finite (row : list score) (z : Z) :
  Exists (fun s => is_finite s = true) row ->
  argmax row = inr z ->
  exists v, nth_error row (Z.to_nat z) = Some (Fin v).
Proof.
  destruct row as [|s row]; [discriminate|]. intros Hfin [= <-].
  rewrite Nat2Z.id.
  destruct (argmax_from_finite (s :: row) row s 0 1) as (t & Ht & Hf); auto.
  - inversion Hfin; auto.
  - destruct t; [eauto|discriminate].
Qed.

Lemma argmax_bound (row : list score) (z : Z) :
  argmax row = inr z -> (0 <= z < Z.of_nat (length row))%Z.
Proof.
  destruct row as [|s row]; [discriminate|]. intros [= <-].
  assert (H : forall l best besti i,
             (besti < i)%nat ->
             (argmax_from best besti i l < i + length l)%nat).
  { induction l as [|t l IH]; intros best besti i Hi; simpl; [lia|].
    destruct (score_ltb best t).
    - specialize (IH t i (S i) ltac:(lia)). lia.
    - specialize (IH best besti (S i) ltac:(lia)). lia. }
  specialize (H row s 0%nat 1%nat ltac:(lia)). simpl length. lia.
Qed.

(** The row that [gumbel_sample] hands to [argmax] is finite where the
    filtered row is. *)
Lemma perturbed_finite (row : list score) (noise : list R) (d : R) (k : nat)
  (s : score) :
  nth_error (zip_with score_add (map (fun s => score_div s d) row) noise) k
  = Some s ->
  exists t, nth_error row k = Some t /\ is_finite t = is_finite s.
Proof.
  rewrite nth_error_zip_with, nth_error_map.
  destruct (nth_error row k) as [t|]; [|discriminate].
  destruct (nth_error noise k) as [n|]; [|discriminate].
  simpl. intros [= <-]. exists t. split; [reflexivity|]. now destruct t.
Qed.

Lemma Rltb_negb_Rleb (a b : R) : Rltb a b = negb (Rleb b a).
Proof.
  unfold Rltb, Rleb. destruct (Rlt_dec a b), (Rle_dec b a); simpl; auto; lra.
Qed.



(** ** The loop *)

Lemma bind_ret_r {A : Type} (m : M A) (g : Rng) :
  bind m (fun a => ret a) g = m g.
Proof. unfold bind, ret. destruct (m g) as [e|[a g']]; reflexivity. Qed.

Lemma bind_ext {A B : Type} (m : M A) (f f' : A -> M B) (g : Rng) :
  (forall a g1, f a g1 = f' a g1) -> bind m f g = bind m f' g.
Proof. intros H. unfold bind. destruct (m g) as [e|[a g']]; auto. Qed.

Lemma sample_loop_ext (step step' : nat -> tokens -> M tokens)
  (steps : list nat) :
  (forall i x g, In i steps -> step i x g = step' i x g) ->
  forall x g, sample_loop step steps x g = sample_loop step' steps x g.
Proof.
  induction steps as [|i steps IH]; intros H x g; simpl; auto.
  unfold bind. rewrite (H i x g) by (now left).
  destruct (step' i x g) as [e|[y g']]; auto.
  apply IH. intros j z g0 Hj. apply H. now right.
Qed.

Lemma sample_loop_inv (step : nat -> tokens -> M tokens) (P : tokens -> Prop)
  (steps : list nat) :
  (forall i x g y g', In i steps -> P x -> step i x g = inr (y, g') -> P y) ->
  forall x g y g',
    P x -> sample_loop step steps x g = inr (y, g') -> P y.
Proof.
  induction steps as [|i steps IH]; intros H x g y g' Hx Hl; simpl in Hl.
  - inversion Hl. now subst.
  - apply bind_inr in Hl. destruct Hl as (x1 & g1 & H1 & Hl).
    apply (IH (fun j z g0 z' g0' Hj => H j z g0 z' g0' (or_intror Hj))
             x1 g1 y g'); auto.
    apply (H i x g x1 g1); auto. now left.
Qed.

Lemma sample_loop_total (step : nat -> tokens -> M tokens)
  (P : tokens -> Prop) (steps : list nat) :
  (forall i x g, In i steps -> P x ->
                 exists y g', step i x g = inr (y, g') /\ P y) ->
  forall x g, P x ->
    exists y g', sample_loop step steps x g = inr (y, g') /\ P y.
Proof.
  induction steps as [|i steps IH]; intros H x g Hx; simpl.
  - exists x, g. auto.
  - destruct (H i x g (or_introl eq_refl) Hx) as (x1 & g1 & H1 & Hx1).
    rewrite (bind_ok _ H1). apply IH; auto.
    intros j z g0 Hj. apply H. now right.
Qed.

(** ** An unknown renoise mode *)

Lemma renoise_other_mode (model : Denoiser) (cfg : Config) (mode : string)
  (r_range : list (list R)) (init_x prev_x : tokens) (i : nat) (x : tokens)
  (g : Rng) :
  mode <> "start"%string -> mode <> "prev"%string ->
  renoise model (with_renoise_mode cfg mode) r_range init_x prev_x i x g
  = if (i <? renoise_steps cfg)%nat
    then (r <- lift (index r_range (i + 1)) ;;
          p <- add_noise (num_labels model) x r None ;;
          ret (fst p)) g
    else ret x g.
Proof.
  intros Hs Hp. apply String.eqb_neq in Hs, Hp.
  unfold renoise, with_renoise_mode.
  cbn [renoise_mode renoise_steps]. rewrite Hs, Hp.
  now destruct (i <? renoise_steps cfg)%nat.
Qed.

(** C10: a renoise mode other than 'start' and 'prev' is not refused: the
    sampler behaves as with 'rand', drawing fresh replacement tokens. *)
Theorem unknown_mode_is_rand (model : Denoiser) (c : cond)
  (x mask : option tokens) (cfg : Config) (c_full : option cond_full)
  (mode : string) (g : Rng) :
  mode <> "start"%string -> mode <> "prev"%string ->
  sample model c x mask (with_renoise_mode cfg mode) c_full g
  = sample model c x mask (with_renoise_mode cfg "rand") c_full g /\
  forall r_range init_x prev_x i y g1,
    (i < renoise_steps cfg)%nat ->
    renoise model (with_renoise_mode cfg mode) r_range init_x prev_x i y g1
    = (r <- lift (index r_range (i + 1)) ;;
       p <- add_noise (num_labels model) y r None ;;
       ret (fst p)) g1.
Proof.
  intros Hs Hp. split.
  - unfold sample, sample_steps. simpl. apply bind_ext. intros x0 g0.
    apply sample_loop_ext. intros i y g1 _. unfold sample_step.
    apply bind_ext. intros y' g2.
    rewrite (renoise_other_mode model cfg mode) by assumption.
    rewrite (renoise_other_mode model cfg "rand") by discriminate.
    reflexivity.
  - intros r_range init_x prev_x i y g1 Hi.
    rewrite renoise_other_mode by assumption.
    apply Nat.ltb_lt in Hi. now rewrite Hi.
Qed.

Lemma unknown_mode_is_rand_witness :
  sample (flat_denoiser 2) [[0%R]] None None
    (with_renoise_mode default_config "noise") None (mkRng (fun _ => 0%Z) 0)
  = sample (flat_denoiser 2) [[0%R]] None None
      (with_renoise_mode default_config "rand") None (mkRng (fun _ => 0%Z) 0).
Proof.
  refine (proj1 (unknown_mode_is_rand (flat_denoiser 2) [[0%R]] None None
                   default_config None "noise" (mkRng (fun _ => 0%Z) 0) _ _));
    discriminate.
Defined.

(** ** Without re-noising *)

Lemma denoise_step_inv (model : Denoiser) (cfg : Config) (c : cond)
  (c_full : option cond_full) (mask : option tokens)
  (r_range : list (list R)) (temperatures : list R) (init_x : tokens)
  (i : nat) (x : tokens) (g g' : Rng) (y : tokens) :
  denoise_step model cfg c c_full mask r_range temperatures init_x i x g
  = inr (y, g') ->
  exists r temp lg x_flat sampled,
    index r_range i = inr r /\ index temperatures i = inr temp /\
    denoise_logits model cfg c c_full x r = inr lg /\
    filter_logits cfg lg = inr x_flat /\
    gumbel_sample x_flat temp g = inr (sampled, g') /\
    y = restore mask init_x sampled.
Proof.
  unfold denoise_step. intros H.
  apply bind_inr in H. destruct H as (r & g1 & Hr & H).
  apply lift_inr in Hr. destruct Hr as [Hr ->].
  apply bind_inr in H. destruct H as (temp & g1 & Ht & H).
  apply lift_inr in Ht. destruct Ht as [Ht ->].
  apply bind_inr in H. destruct H as (lg & g1 & Hlg & H).
  apply lift_inr in Hlg. destruct Hlg as [Hlg ->].
  apply bind_inr in H. destruct H as (xf & g1 & Hxf & H).
  apply lift_inr in Hxf. destruct Hxf as [Hxf ->].
  apply bind_inr in H. destruct H as (sampled & g1 & Hs & H).
  inversion H. subst. exists r, temp, lg, xf, sampled. auto 10.
Qed.

(** C7: with [renoise_steps = 0] no step calls [add_noise]: the grid a step
    hands to the next one, and the grid returned, is the grid of sampled
    tokens after the mask restore, and the generator is where the sampling
    left it. *)
Theorem no_renoise_no_mutation (model : Denoiser) (c : cond)
  (x mask : option tokens) (cfg : Config) (c_full : option cond_full)
  (g : Rng) :
  renoise_steps cfg = 0%nat ->
  (forall r_range init_x prev_x i y g1,
     renoise model cfg r_range init_x prev_x i y g1 = inr (y, g1)) /\
  (forall r_range temperatures init_x i y g1 z g2,
     sample_step model cfg c c_full mask r_range temperatures init_x i y g1
     = inr (z, g2) ->
     exists r temp lg x_flat sampled,
       index r_range i = inr r /\ index temperatures i = inr temp /\
       denoise_logits model cfg c c_full y r = inr lg /\
       filter_logits cfg lg = inr x_flat /\
       gumbel_sample x_flat temp g1 = inr (sampled, g2) /\
       z = restore mask init_x sampled) /\
  sample model c x mask cfg c_full g
  = (x0 <- init_grid model cfg c x mask ;;
     sample_loop
       (denoise_step model cfg c c_full mask (r_range_of cfg (length c))
          (temperatures_of cfg) x0)
       (seq (starting_t cfg) (T cfg - starting_t cfg)) x0) g.
Proof.
  intros H0.
  assert (Hre : forall r_range init_x prev_x i y g1,
             renoise model cfg r_range init_x prev_x i y g1 = inr (y, g1)).
  { intros. unfold renoise. rewrite H0. reflexivity. }
  assert (Hstep : forall r_range temperatures init_x i y g1,
             sample_step model cfg c c_full mask r_range temperatures init_x
               i y g1
             = denoise_step model cfg c c_full mask r_range temperatures
                 init_x i y g1).
  { intros. unfold sample_step.
    etransitivity; [|apply bind_ret_r].
    apply bind_ext. intros a g2. apply Hre. }
  split; [exact Hre|]. split.
  - intros r_range temperatures init_x i y g1 z g2 Hz.
    rewrite Hstep in Hz. now apply denoise_step_inv.
  - unfold sample, sample_steps. apply bind_ext. intros x0 g0.
    apply sample_loop_ext. intros i y g1 _. apply Hstep.
Qed.

Lemma no_renoise_no_mutation_witness :
  sample (flat_denoiser 2) [[0%R]] None None no_renoise_config None
    (mkRng (fun _ => 0%Z) 0)
  = (x0 <- init_grid (flat_denoiser 2) no_renoise_config [[0%R]] None None ;;
     sample_loop
       (denoise_step (flat_denoiser 2) no_renoise_config [[0%R]] None None
          (r_range_of no_renoise_config (length [[0%R]]))
          (temperatures_of no_renoise_config) x0)
       (seq (starting_t no_renoise_config)
          (T no_renoise_config - starting_t no_renoise_config)) x0)
      (mkRng (fun _ => 0%Z) 0).
Proof.
  refine (proj2 (proj2 (no_renoise_no_mutation (flat_denoiser 2) [[0%R]]
                          None None no_renoise_config None
                          (mkRng (fun _ => 0%Z) 0) _))).
  reflexivity.
Defined.

(** ** Tokens stay class indices *)

Lemma Forall_zip_with_l {A B C : Type} (f : A -> B -> C) (Q : A -> Prop)
  (P : C -> Prop) (a : list A) :
  (forall u v, Q u -> P (f u v)) ->
  Forall Q a -> forall b, Forall P (zip_with f a b).
Proof.
  intros Hf H. induction H as [|u a Hu _ IH]; intros [|v b]; simpl;
    constructor; auto.
Qed.

Lemma Forall_zip_with_r {A B C : Type} (f : A -> B -> C) (Q : B -> Prop)
  (P : C -> Prop) (b : list B) :
  (forall u v, Q v -> P (f u v)) ->
  Forall Q b -> forall a, Forall P (zip_with f a b).
Proof.
  intros Hf H. induction H as [|v b Hv _ IH]; intros [|u a]; simpl;
    constructor; auto.
Qed.

Lemma zip_with_length_le_l {A B C : Type} (f : A -> B -> C) (a : list A) :
  forall b, (length (zip_with f a b) <= length a)%nat.
Proof. induction a as [|u a IH]; intros [|v b]; simpl; auto with arith. Qed.

Lemma zip_with_length_le_r {A B C : Type} (f : A -> B -> C) (a : list A) :
  forall b, (length (zip_with f a b) <= length b)%nat.
Proof.
  induction a as [|u a IH]; intros [|v b]; simpl; auto with arith.
Qed.

Lemma Forall2_Forall_r {A B : Type} (P : A -> B -> Prop) (Q : A -> Prop)
  (S : B -> Prop) (a : list A) (b : list B) :
  (forall u v, P u v -> Q u -> S v) ->
  Forall2 P a b -> Forall Q a -> Forall S b.
Proof.
  intros HPQ H. induction H; intros Ha; inversion Ha; subst; constructor;
    eauto.
Qed.

Lemma forward_rows (model : Denoiser) (x : tokens) (c : cond) (r : list R)
  (cf : option cond_full) :
  denoiser_ok model ->
  rows_at_most (Z.to_nat (num_labels model)) (forward model x c r cf).
Proof.
  intros [_ Hshape]. specialize (Hshape x c r cf).
  eapply Forall2_right; [|exact Hshape]. intros xb lb Hb. simpl in Hb.
  eapply Forall2_right; [|exact Hb]. intros _ row ->. simpl. lia.
Qed.

Lemma denoise_logits_rows (model : Denoiser) (cfg : Config) (c : cond)
  (c_full : option cond_full) (x : tokens) (r : list R) (lg : logits) :
  denoiser_ok model ->
  denoise_logits model cfg c c_full x r = inr lg ->
  rows_at_most (Z.to_nat (num_labels model)) lg.
Proof.
  intros Hok. unfold denoise_logits.
  destruct (Rleb 0 (classifier_free_scale cfg)).
  - destruct (zeros_like_full c_full) as [e|zf]; simpl; [discriminate|].
    intros [= <-]. unfold lerp, rows_at_most.
    apply Forall_zip_with_r
      with (Q := Forall (fun row : list R =>
                           (length row <= Z.to_nat (num_labels model))%nat));
      [|now apply forward_rows].
    intros u v Hv. apply Forall_zip_with_r
      with (Q := fun row : list R =>
                   (length row <= Z.to_nat (num_labels model))%nat);
      [|exact Hv].
    intros r1 r2 Hr. pose proof (zip_with_length_le_r
      (fun s e => (s + classifier_free_scale cfg * (e - s))%R) r1 r2). lia.
  - intros [= <-]. now apply forward_rows.
Qed.

Lemma typical_filter_length (mass : R) (min_tokens : nat) (x : list R)
  (out : list score) :
  typical_filter mass min_tokens x = inr out -> (length out <= length x)%nat.
Proof.
  unfold typical_filter.
  destruct (typical_prepare mass x) as [e|st]; simpl; [discriminate|].
  destruct (typical_remove min_tokens st) as [e|rem]; simpl; [discriminate|].
  intros [= <-]. apply zip_with_length_le_l.
Qed.

Lemma filter_logits_rows (cfg : Config) (n : nat) (lg : logits)
  (xf : list (list (list score))) :
  filter_logits cfg lg = inr xf -> rows_at_most n lg -> rows_at_most n xf.
Proof.
  unfold filter_logits, rows_at_most. destruct (typical_filtering cfg).
  - intros H Hlg.
    assert (H2 : Forall2 (Forall2 (fun row out =>
                            (length out <= length row)%nat)) lg xf).
    { revert H. apply emap_inv. intros a b. apply emap_inv.
      intros row out. apply typical_filter_length. }
    eapply Forall2_Forall_r; [|exact H2|exact Hlg]. intros u v Huv Hu.
    eapply Forall2_Forall_r; [|exact Huv|exact Hu]. simpl. intros. lia.
  - intros [= <-] Hlg. rewrite Forall_map.
    eapply Forall_impl; [|exact Hlg]. intros u Hu. rewrite Forall_map.
    eapply Forall_impl; [|exact Hu]. intros row Hrow. simpl.
    now rewrite length_map.
Qed.

Lemma gumbel_sample_range (xf : list (list (list score))) (temp : R)
  (n : nat) (g g' : Rng) (y : tokens) :
  rows_at_most n xf ->
  gumbel_sample xf temp g = inr (y, g') ->
  in_range (Z.of_nat n) y.
Proof.
  intros Hxf. unfold gumbel_sample. cbv zeta. intros H.
  apply bind_inr in H. destruct H as (noise & g1 & _ & H).
  apply lift_inr in H. destruct H as [H _].
  match type of H with emap _ ?t = _ => set (rows := t) in * end.
  assert (Hrows : rows_at_most n rows).
  { unfold rows_at_most, rows.
    apply Forall_zip_with_l
      with (Q := Forall (fun row : list score => (length row <= n)%nat)).
    - intros u v Hu. apply Forall_zip_with_l
        with (Q := fun row : list score => (length row <= n)%nat); [|exact Hu].
      intros r1 r2 Hr. pose proof (zip_with_length_le_l score_add r1 r2). lia.
    - rewrite Forall_map. eapply Forall_impl; [|exact Hxf].
      intros u Hu. rewrite Forall_map. eapply Forall_impl; [|exact Hu].
      intros row Hrow. simpl. now rewrite length_map. }
  assert (H2 : Forall2 (Forall2 (fun row z =>
                          (0 <= z < Z.of_nat (length row))%Z)) rows y).
  { revert H. apply emap_inv. intros a b. apply emap_inv.
    intros row z. apply argmax_bound. }
  eapply Forall2_Forall_r; [|exact H2|exact Hrows]. intros u v Huv Hu.
  eapply Forall2_Forall_r; [|exact Huv|exact Hu]. simpl. intros. lia.
Qed.

Lemma blended_in_range (n : Z) (a m b : tokens) :
  in_range n a -> in_range n b -> binary m ->
  in_range n (tadd (tmul a m) (tmul (rsub 1 m) b)).
Proof.
  intros Ha Hb Hm. apply Forall_of_get2. intros i k u. rewrite get2_restore.
  destruct (get2 a i k) as [av|] eqn:Ea; [|discriminate].
  destruct (get2 m i k) as [w|] eqn:Ew; [|discriminate].
  destruct (get2 b i k) as [bv|] eqn:Eb; [|discriminate].
  intros Hu.
  assert (Hval : u = (av * w + (1 - w) * bv)%Z) by congruence.
  pose proof (Forall_get2 _ _ _ _ _ Ha Ea) as Hav.
  pose proof (Forall_get2 _ _ _ _ _ Hb Eb) as Hbv.
  pose proof (Forall_get2 _ _ _ _ _ Hm Ew) as Hw. simpl in Hav, Hbv, Hw.
  rewrite Hval. destruct Hw as [-> | ->]; lia.
Qed.

Lemma restore_in_range (n : Z) (mask : option tokens) (init_x x : tokens) :
  match mask with Some m => binary m | None => True end ->
  in_range n init_x -> in_range n x -> in_range n (restore mask init_x x).
Proof.
  destruct mask as [m|]; simpl; auto. intros. now apply blended_in_range.
Qed.

Lemma add_noise_in_range (n : Z) (x : tokens) (r : list R)
  (random_x : option tokens) (g g' : Rng) (p : tokens * tokens) :
  in_range n x ->
  match random_x with Some rx => in_range n rx | None => True end ->
  add_noise n x r random_x g = inr (p, g') -> in_range n (fst p).
Proof.
  intros Hx Hrx H. apply add_noise_inv in H.
  destruct H as (mask & src & -> & Hbin & Hsrc). simpl.
  apply noised_in_range; auto.
  destruct random_x as [rx|]; [now subst|tauto].
Qed.

Lemma renoise_in_range (model : Denoiser) (cfg : Config)
  (r_range : list (list R)) (init_x prev_x : tokens) (i : nat) (x : tokens)
  (g g' : Rng) (y : tokens) :
  in_range (num_labels model) init_x -> in_range (num_labels model) prev_x ->
  in_range (num_labels model) x ->
  renoise model cfg r_range init_x prev_x i x g = inr (y, g') ->
  in_range (num_labels model) y.
Proof.
  intros Hi Hp Hx. unfold renoise.
  destruct (i <? renoise_steps cfg)%nat; [|now intros [= <- _]].
  destruct (String.eqb (renoise_mode cfg) "start");
    [|destruct (String.eqb (renoise_mode cfg) "prev")];
    intros H;
    apply bind_inr in H; destruct H as (r & g1 & _ & H);
    apply bind_inr in H; destruct H as (p & g2 & Hp' & H);
    inversion H; subst;
    eapply add_noise_in_range; try exact Hp'; simpl; auto.
Qed.

Lemma init_grid_in_range (model : Denoiser) (cfg : Config) (c : cond)
  (x mask : option tokens) (g g' : Rng) (x0 : tokens) :
  match mask with Some m => binary m | None => True end ->
  match x with Some t => in_range (num_labels model) t | None => True end ->
  init_grid model cfg c x mask g = inr (x0, g') ->
  in_range (num_labels model) x0.
Proof.
  intros Hm Hx. unfold init_grid. cbv zeta. destruct x as [t|].
  - destruct mask as [m|].
    + intros H. apply bind_inr in H. destruct H as (noise & g1 & Hn & H).
      inversion H. subst. apply randint_inv in Hn.
      apply blended_in_range; tauto.
    + now intros [= <- _].
  - intros H. now apply randint_inv in H.
Qed.

(** ** The sampler returns *)

Lemma mapM_total_rel {A B : Type} (f : A -> M B) (P : A -> B -> Prop)
  (l : list A) :
  Forall (fun a => forall g, exists b g', f a g = inr (b, g') /\ P a b) l ->
  forall g, exists bs g', mapM f l g = inr (bs, g') /\ Forall2 P l bs.
Proof.
  induction 1 as [|a l Ha _ IH]; simpl; intros g.
  - exists [], g. split; [reflexivity|constructor].
  - destruct (Ha g) as (b & g1 & Hb & Pb).
    destruct (IH g1) as (bs & g2 & Hbs & Pbs).
    exists (b :: bs), g2. rewrite (bind_ok _ Hb), (bind_ok _ Hbs).
    split; [reflexivity|now constructor].
Qed.

Lemma emap_total_rel {A B : Type} (f : A -> E B) (P : A -> B -> Prop)
  (l : list A) :
  Forall (fun a => exists b, f a = inr b /\ P a b) l ->
  exists bs, emap f l = inr bs /\ Forall2 P l bs.
Proof.
  induction 1 as [|a l (b & Hb & Pb) _ (bs & Hbs & Pbs)]; simpl.
  - exists []. split; [reflexivity|constructor].
  - exists (b :: bs). rewrite Hb, Hbs. simpl.
    split; [reflexivity|now constructor].
Qed.

Lemma Forall2_compose {A B C : Type} (P : A -> B -> Prop)
  (Q : B -> C -> Prop) (S : A -> C -> Prop) (a : list A) (b : list B) :
  (forall u v w, P u v -> Q v w -> S u w) ->
  Forall2 P a b -> forall c, Forall2 Q b c -> Forall2 S a c.
Proof.
  intros HS H. induction H; intros c Hc; inversion Hc; subst; constructor;
    eauto.
Qed.

Lemma Forall2_zip_with {A B C D : Type} (f : B -> C -> D)
  (P : A -> B -> Prop) (Q : A -> C -> Prop) (S : A -> D -> Prop)
  (x : list A) :
  (forall w u v, P w u -> Q w v -> S w (f u v)) ->
  forall a b, Forall2 P x a -> Forall2 Q x b -> Forall2 S x (zip_with f a b).
Proof.
  intros HS. induction x as [|w x IH]; intros a b Ha Hb; inversion Ha;
    inversion Hb; subst; simpl; constructor; eauto.
Qed.

Lemma Forall2_map_r {A B C : Type} (f : B -> C) (P : A -> C -> Prop)
  (a : list A) (b : list B) :
  Forall2 (fun u v => P u (f v)) a b -> Forall2 P a (map f b).
Proof. induction 1; simpl; constructor; auto. Qed.

Lemma linspace_length (a b : R) (n : nat) : length (linspace a b n) = n.
Proof. unfold linspace. now rewrite length_map, length_seq. Qed.

Lemma nth_error_seq0 (n k : nat) :
  (k < n)%nat -> nth_error (seq 0 n) k = Some k.
Proof.
  intros Hk. rewrite (nth_error_nth' _ 0%nat) by (now rewrite length_seq).
  now rewrite seq_nth.
Qed.

(** Entry [i] of [r_range] is [i / T], once for every batch element. *)
Lemma r_range_lookup (cfg : Config) (batch i : nat) :
  (i < T cfg)%nat ->
  exists r, index (r_range_of cfg batch) i = inr (repeat r batch) /\
            (0 <= r <= 1)%R.
Proof.
  intros Hi. unfold r_range_of, linspace, index.
  rewrite Nat.add_1_r, seq_S, map_app. simpl app.
  rewrite removelast_last, nth_error_map, nth_error_map, nth_error_seq0 by lia.
  simpl. eexists. split; [reflexivity|].
  replace (T cfg - 0)%nat with (T cfg) by lia.
  assert (Ht : (0 < INR (T cfg))%R) by (apply lt_0_INR; lia).
  assert (Hk : (0 <= INR i <= INR (T cfg))%R)
    by (split; [apply pos_INR|apply le_INR; lia]).
  assert (Hq : (0 <= INR i / INR (T cfg) <= 1)%R).
  { split.
    - apply Rmult_le_pos; [tauto|]. left. now apply Rinv_0_lt_compat.
    - apply Rmult_le_reg_r with (INR (T cfg)); [exact Ht|].
      unfold Rdiv. rewrite Rmult_assoc, Rinv_l by lra. lra. }
  replace (0 + INR i * ((1 - 0) / INR (T cfg)))%R
    with (INR i / INR (T cfg))%R by (unfold Rdiv; lra).
  exact Hq.
Qed.

(** In a schedule of at most 10^6 steps every entry is at most 0.999999. *)
Lemma r_range_lookup_below (cfg : Config) (batch i : nat) :
  (i < T cfg)%nat -> (Z.of_nat (T cfg) <= 1000000)%Z ->
  exists r, index (r_range_of cfg batch) i = inr (repeat r batch) /\
            (0 <= r <= 999999 / 1000000)%R.
Proof.
  intros Hi HT. unfold r_range_of, linspace, index.
  rewrite Nat.add_1_r, seq_S, map_app. simpl app.
  rewrite removelast_last, nth_error_map, nth_error_map, nth_error_seq0 by lia.
  simpl. eexists. split; [reflexivity|].
  replace (T cfg - 0)%nat with (T cfg) by lia.
  assert (Ht : (0 < INR (T cfg))%R) by (apply lt_0_INR; lia).
  assert (Hk : (0 <= INR i <= INR (T cfg) - 1)%R).
  { split; [apply pos_INR|].
    replace (INR (T cfg) - 1)%R with (INR (T cfg - 1))
      by (rewrite minus_INR by lia; reflexivity).
    apply le_INR. lia. }
  assert (Hb : (INR (T cfg) <= 1000000)%R).
  { rewrite INR_IZR_INZ. now apply IZR_le. }
  replace (0 + INR i * ((1 - 0) / INR (T cfg)))%R
    with (INR i / INR (T cfg))%R by (unfold Rdiv; lra).
  split.
  - apply Rmult_le_pos; [tauto|]. left. now apply Rinv_0_lt_compat.
  - apply Rmult_le_reg_r with (INR (T cfg)); [exact Ht|].
    unfold Rdiv. rewrite Rmult_assoc, Rinv_l by lra. lra.
Qed.

Lemma r_range_length (cfg : Config) (batch : nat) :
  length (r_range_of cfg batch) = T cfg.
Proof.
  unfold r_range_of, linspace.
  rewrite length_map, Nat.add_1_r, seq_S, map_app. simpl app.
  now rewrite removelast_last, length_map, length_seq.
Qed.

Lemma temperatures_lookup (cfg : Config) (i : nat) :
  (i < T cfg)%nat -> exists t, index (temperatures_of cfg) i = inr t.
Proof.
  intros Hi. unfold index.
  destruct (nth_error (temperatures_of cfg) i) eqn:Ht; [eauto|].
  apply nth_error_None in Ht. unfold temperatures_of in Ht.
  rewrite linspace_length in Ht. lia.
Qed.

Lemma Rleb_true_inv (x y : R) : Rleb x y = true -> (x <= y)%R.
Proof. unfold Rleb. destruct (Rle_dec x y); [auto|discriminate]. Qed.

Lemma logits_shape_exact {A : Type} (n : nat) (x : tokens)
  (lg : list (list (list A))) :
  logits_shape n x lg -> Forall (Forall (fun row => length row = n)) lg.
Proof.
  intros H. eapply Forall2_right; [|exact H]. intros xb lb Hb. simpl in Hb.
  eapply Forall2_right; [|exact Hb]. auto.
Qed.

Lemma logits_shape_zip {A B C : Type} (f : A -> B -> C) (n : nat) (x : tokens)
  (a : list (list (list A))) (b : list (list (list B))) :
  logits_shape n x a -> logits_shape n x b ->
  logits_shape n x (zip_with (zip_with (zip_with f)) a b).
Proof.
  unfold logits_shape. apply Forall2_zip_with. intros xb u v.
  apply Forall2_zip_with. intros xk r1 r2 H1 H2.
  rewrite length_zip_with; congruence.
Qed.

Lemma logits_shape_map {A B : Type} (f : A -> B) (n : nat) (x : tokens)
  (a : list (list (list A))) :
  logits_shape n x a -> logits_shape n x (map (map (map f)) a).
Proof.
  unfold logits_shape. intros H. apply Forall2_map_r.
  eapply Forall2_weaken; [|exact H]. intros xb lb Hb. simpl in *.
  apply Forall2_map_r. eapply Forall2_weaken; [|exact Hb].
  intros xk row Hrow. simpl. now rewrite length_map.
Qed.

(** A tensor with the rows of [a], each of the length it has in [a]. *)
Lemma logits_shape_transport {A B : Type} (n : nat) (x : tokens)
  (a : list (list (list A))) (b : list (list (list B))) :
  logits_shape n x a ->
  Forall2 (Forall2 (fun r1 r2 => length r2 = length r1)) a b ->
  logits_shape n x b.
Proof.
  unfold logits_shape. intros Ha Hab.
  eapply Forall2_compose; [|exact Ha|exact Hab]. intros xb u v Hu Huv.
  simpl in *. eapply Forall2_compose; [|exact Hu|exact Huv].
  intros xk r1 r2 H1 H2. simpl in *. congruence.
Qed.

Lemma logits_shape_tokens {A : Type} (n : nat) (x : tokens)
  (a : list (list (list A))) (y : tokens) :
  logits_shape n x a -> Forall2 (Forall2 (fun _ _ => True)) a y ->
  same_shape y x.
Proof.
  intros Ha Hay. apply same_shape_sym.
  apply Forall2_same_shape with (P := fun _ _ => True).
  eapply Forall2_compose; [|exact Ha|exact Hay]. intros xb u v Hu Huv.
  simpl in *. eapply Forall2_compose; [|exact Hu|exact Huv]. auto.
Qed.

(** Lines 111-115 return logits of the shape of the grid. *)
Lemma denoise_logits_ok (model : Denoiser) (cfg : Config) (c : cond)
  (c_full : option cond_full) (x : tokens) (r : list R) :
  denoiser_ok model ->
  ((0 <= classifier_free_scale cfg)%R -> c_full <> None) ->
  exists lg,
    denoise_logits model cfg c c_full x r = inr lg /\
    logits_shape (Z.to_nat (num_labels model)) x lg.
Proof.
  intros [Hn Hshape] Hcf. unfold denoise_logits.
  destruct (Rleb 0 (classifier_free_scale cfg)) eqn:Hs.
  - apply Rleb_true_inv in Hs. destruct c_full as [cf|]; [|now elim Hcf].
    simpl. eexists. split; [reflexivity|]. apply logits_shape_zip; apply Hshape.
  - eexists. split; [reflexivity|]. apply Hshape.
Qed.

(** Lines 116-131 return scores of the shape of the logits. *)
Lemma filter_logits_ok (cfg : Config) (n : nat) (x : tokens) (lg : logits) :
  logits_shape n x lg -> (0 < n)%nat ->
  (typical_filtering cfg = true -> (typical_mass cfg <= 1)%R) ->
  exists xf, filter_logits cfg lg = inr xf /\ logits_shape n x xf.
Proof.
  intros Hlg Hn Hm. unfold filter_logits.
  destruct (typical_filtering cfg).
  - destruct (emap_total_rel
                (emap (typical_filter (typical_mass cfg)
                         (typical_min_tokens cfg)))
                (Forall2 (fun row out => length out = length row)) lg)
      as (xf & Hxf & Hrel).
    { eapply Forall_impl; [|exact (logits_shape_exact _ _ _ Hlg)].
      intros lb Hlb. apply emap_total_rel.
      eapply Forall_impl; [|exact Hlb]. intros row Hrow. simpl in Hrow.
      assert (Hne : row <> []) by (intros ->; simpl in Hrow; lia).
      destruct (typical_filter_retention (typical_mass cfg)
                  (typical_min_tokens cfg) row Hne (Hm eq_refl))
        as (g & out & thr & _ & _ & _ & Hout & Hlen & _).
      eauto. }
    exists xf. split; [exact Hxf|].
    eapply logits_shape_transport; eauto.
  - eexists. split; [reflexivity|]. now apply logits_shape_map.
Qed.

(** Lines 133-134 return a grid of the shape of the scores. *)
Lemma gumbel_sample_ok (n : nat) (x : tokens) (xf : list (list (list score)))
  (temp : R) (g : Rng) :
  logits_shape n x xf -> (0 < n)%nat ->
  exists y g', gumbel_sample xf temp g = inr (y, g') /\ same_shape y x.
Proof.
  intros Hxf Hn. unfold gumbel_sample. cbv zeta.
  destruct (mapM_total_rel
              (mapM (mapM (fun _ : score =>
                             u <- uniform1 ;; ret (- log (- log u))%R)))
              (Forall2 (Forall2 (fun (r1 : score) (r2 : R) => True))) xf)
    with (g := g) as (noise & g1 & Hnoise & Hrel).
  { apply Forall_forall. intros lb _. apply mapM_total_rel.
    apply Forall_forall. intros row _. apply mapM_total_rel.
    apply Forall_forall. intros s _ g0.
    unfold uniform1, next_raw, bind, ret. eauto. }
  unfold gumbel_noise. rewrite (bind_ok _ Hnoise).
  match goal with |- context [emap _ ?t] => set (rows := t) end.
  assert (Hrows : logits_shape n x rows).
  { unfold rows. apply logits_shape_zip; [now apply logits_shape_map|].
    eapply logits_shape_transport; [exact Hxf|].
    eapply Forall2_weaken; [|exact Hrel]. intros u v Huv.
    eapply Forall2_weaken; [|exact Huv]. intros r1 r2 H12.
    symmetry. exact (Forall2_length H12). }
  destruct (emap_total_rel (emap argmax)
              (Forall2 (fun (_ : list score) (_ : Z) => True)) rows)
    as (y & Hy & Hyrel).
  { eapply Forall_impl; [|exact (logits_shape_exact _ _ _ Hrows)].
    intros lb Hlb. apply emap_total_rel.
    eapply Forall_impl; [|exact Hlb]. intros row Hrow. simpl in Hrow.
    destruct row as [|s row]; [simpl in Hrow; lia|]. simpl. eauto. }
  exists y, g1. unfold lift. rewrite Hy. split; [reflexivity|].
  eapply logits_shape_tokens; eauto.
Qed.

Lemma add_noise_total (nl : Z) (x : tokens) (r : list R)
  (random_x : option tokens) :
  Forall (fun v => 0 <= v <= 999999 / 1000000)%R r ->
  (random_x = None -> (0 < nl)%Z) ->
  forall g, exists p g', add_noise nl x r random_x g = inr (p, g').
Proof.
  intros Hr Hnl g. unfold add_noise. cbv zeta.
  destruct (bernoulli_total _ (noise_probabilities r x Hr) g)
    as (mf & g1 & Hb).
  rewrite (bind_ok _ Hb). destruct random_x as [rx|].
  - unfold bind, ret. eauto.
  - destruct (randint_like_total x nl (Hnl eq_refl) g1) as (t & g2 & Ht).
    rewrite (bind_ok _ Ht). unfold ret. eauto.
Qed.

Lemma renoise_total (model : Denoiser) (cfg : Config) (batch : nat)
  (init_x prev_x : tokens) (i : nat) (x : tokens) (g : Rng) :
  (0 < num_labels model)%Z ->
  ((i < renoise_steps cfg)%nat -> (i + 1 < T cfg)%nat) ->
  ((0 < renoise_steps cfg)%nat -> (Z.of_nat (T cfg) <= 1000000)%Z) ->
  exists y g',
    renoise model cfg (r_range_of cfg batch) init_x prev_x i x g = inr (y, g').
Proof.
  intros Hn Hi Hbig. unfold renoise.
  destruct (Nat.ltb_spec i (renoise_steps cfg)) as [Hlt|Hge];
    [|unfold ret; eauto].
  destruct (r_range_lookup_below cfg batch (i + 1) (Hi Hlt) (Hbig ltac:(lia)))
    as (rv & Hr & Hrv).
  assert (Hall : Forall (fun v => 0 <= v <= 999999 / 1000000)%R
                   (repeat rv batch)).
  { apply Forall_forall. intros v Hv. apply repeat_spec in Hv. now subst. }
  assert (Hlift : lift (index (r_range_of cfg batch) (i + 1)) g
                  = inr (repeat rv batch, g)) by (unfold lift; now rewrite Hr).
  destruct (String.eqb (renoise_mode cfg) "start");
    [|destruct (String.eqb (renoise_mode cfg) "prev")];
    rewrite (bind_ok _ Hlift).
  - destruct (add_noise_total (num_labels model) x (repeat rv batch)
                (Some init_x) Hall ltac:(discriminate) g) as (p & g' & Hp).
    rewrite (bind_ok _ Hp). unfold ret. eauto.
  - destruct (add_noise_total (num_labels model) x (repeat rv batch)
                (Some prev_x) Hall ltac:(discriminate) g) as (p & g' & Hp).
    rewrite (bind_ok _ Hp). unfold ret. eauto.
  - destruct (add_noise_total (num_labels model) x (repeat rv batch)
                None Hall (fun _ => Hn) g) as (p & g' & Hp).
    rewrite (bind_ok _ Hp). unfold ret. eauto.
Qed.

(** Lines 107-136 return a grid of the shape of the one they start from. *)
Lemma denoise_step_ok (model : Denoiser) (cfg : Config) (c : cond)
  (c_full : option cond_full) (mask : option tokens) (init_x : tokens)
  (i : nat) (x : tokens) (g : Rng) :
  denoiser_ok model ->
  ((0 <= classifier_free_scale cfg)%R -> c_full <> None) ->
  (typical_filtering cfg = true -> (typical_mass cfg <= 1)%R) ->
  (i < T cfg)%nat ->
  exists sampled g',
    denoise_step model cfg c c_full mask (r_range_of cfg (length c))
      (temperatures_of cfg) init_x i x g
    = inr (restore mask init_x sampled, g') /\
    same_shape sampled x.
Proof.
  intros Hok Hcf Hm Hi. unfold denoise_step.
  destruct (r_range_lookup cfg (length c) i Hi) as (rv & Hr & _).
  destruct (temperatures_lookup cfg i Hi) as (temp & Ht).
  destruct (denoise_logits_ok model cfg c c_full x (repeat rv (length c))
              Hok Hcf) as (lg & Hlg & Hshape).
  assert (Hn : (0 < Z.to_nat (num_labels model))%nat)
    by (destruct Hok as [Hn _]; lia).
  destruct (filter_logits_ok cfg _ x lg Hshape Hn Hm) as (xf & Hxf & Hxs).
  destruct (gumbel_sample_ok _ x xf temp g Hxs Hn) as (y & g' & Hy & Hys).
  exists y, g'. split; [|exact Hys].
  unfold bind, lift. rewrite Hr, Ht, Hlg, Hxf, Hy. reflexivity.
Qed.

Lemma sample_step_ok (model : Denoiser) (cfg : Config) (c : cond)
  (c_full : option cond_full) (mask : option tokens) (init_x : tokens)
  (i : nat) (x : tokens) (g : Rng) :
  denoiser_ok model ->
  ((0 <= classifier_free_scale cfg)%R -> c_full <> None) ->
  (typical_filtering cfg = true -> (typical_mass cfg <= 1)%R) ->
  (i < T cfg)%nat ->
  ((i < renoise_steps cfg)%nat -> (i + 1 < T cfg)%nat) ->
  ((0 < renoise_steps cfg)%nat -> (Z.of_nat (T cfg) <= 1000000)%Z) ->
  exists y g',
    sample_step model cfg c c_full mask (r_range_of cfg (length c))
      (temperatures_of cfg) init_x i x g = inr (y, g').
Proof.
  intros Hok Hcf Hm Hi Hre Hbig. unfold sample_step.
  destruct (denoise_step_ok model cfg c c_full mask init_x i x g Hok Hcf Hm Hi)
    as (sampled & g1 & Hd & _).
  rewrite (bind_ok _ Hd).
  apply renoise_total; [apply Hok|exact Hre|exact Hbig].
Qed.

Lemma init_grid_total (model : Denoiser) (cfg : Config) (c : cond)
  (x mask : option tokens) (g : Rng) :
  (0 < num_labels model)%Z ->
  exists x0 g', init_grid model cfg c x mask g = inr (x0, g').
Proof.
  intros Hn. unfold init_grid. cbv zeta.
  destruct x as [x0|]; [destruct mask as [m|]|].
  - destruct (randint_total (num_labels model) (length c)
                (fst (size cfg) * snd (size cfg)) Hn g) as (t & g' & Ht).
    rewrite (bind_ok _ Ht). unfold ret. eauto.
  - unfold ret. eauto.
  - now apply randint_total.
Qed.

(** The steps of [steps] run to the end when each is a step of the schedule,
    re-noising is not asked for at the last step of the schedule and a
    schedule that re-noises has at most 10^6 steps. *)
Lemma sample_steps_ok (model : Denoiser) (c : cond) (x mask : option tokens)
  (cfg : Config) (c_full : option cond_full) (steps : list nat) (g : Rng) :
  denoiser_ok model ->
  ((0 <= classifier_free_scale cfg)%R -> c_full <> None) ->
  (typical_filtering cfg = true -> (typical_mass cfg <= 1)%R) ->
  ((0 < renoise_steps cfg)%nat -> (Z.of_nat (T cfg) <= 1000000)%Z) ->
  Forall (fun i => (i < T cfg)%nat /\
                   ((i < renoise_steps cfg)%nat -> (i + 1 < T cfg)%nat))
    steps ->
  exists y g', sample_steps model c x mask cfg c_full steps g = inr (y, g').
Proof.
  intros Hok Hcf Hm Hbig Hsteps. unfold sample_steps. cbv zeta.
  destruct (init_grid_total model cfg c x mask g (proj1 Hok))
    as (x0 & g0 & Hinit).
  rewrite (bind_ok _ Hinit).
  destruct (sample_loop_total
              (sample_step model cfg c c_full mask (r_range_of cfg (length c))
                 (temperatures_of cfg) x0)
              (fun _ => True) steps) with (x := x0) (g := g0)
    as (y & g' & Hy & _); [|exact I|eauto].
  intros i z g1 Hin _. rewrite Forall_forall in Hsteps.
  destruct (Hsteps i Hin) as [Hi Hre].
  destruct (sample_step_ok model cfg c c_full mask x0 i z g1 Hok Hcf Hm Hi Hre
              Hbig)
    as (y & g' & Hy). eauto.
Qed.

(** With [T = 1] and [renoise_steps = 1] the only step asks for
    [r_range[1]], which does not exist. *)
Lemma sample_index_error :
  (0 < T last_step_renoise_config)%nat /\
  (starting_t last_step_renoise_config < T last_step_renoise_config)%nat /\
  (renoise_steps last_step_renoise_config <= T last_step_renoise_config)%nat /\
  sample (flat_denoiser 1) [[0%R]] None None last_step_renoise_config None
    (mkRng (fun _ => 0%Z) 0) = inl IndexError.
Proof.
  repeat split; try (simpl; lia).
  unfold sample, sample_steps. cbn.
  unfold sample_step, denoise_step, denoise_logits, bind. cbn.
  rewrite Rleb_false by lra. reflexivity.
Qed.

(** C5, as the code has it. The denoiser returns one row of [num_labels]
    scores per position, the optional arguments have the shapes [sample]
    expects, [c_full] is given when the guidance scale is not negative, and
    with the typical filter on [typical_mass <= 1/2] and there are at most
    65536 classes, so that the running mass reaches it whatever the
    rounding. Then from every [starting_t < T] the loop runs to the end and
    returns a grid when [renoise_steps <= T - 1], in a schedule of at most
    10^6 steps if it re-noises; the schedule entry [r_range[i + 1]] exists
    at every step that re-noises. *)
Theorem sample_returns (model : Denoiser) (c : cond) (x mask : option tokens)
  (cfg : Config) (c_full : option cond_full) (g : Rng) :
  denoiser_ok model -> inputs_ok c x mask cfg ->
  ((0 <= classifier_free_scale cfg)%R -> c_full <> None) ->
  (typical_filtering cfg = true ->
   (typical_mass cfg <= 1 / 2)%R /\ (num_labels model <= 65536)%Z) ->
  (0 < T cfg)%nat -> (starting_t cfg < T cfg)%nat ->
  (renoise_steps cfg <= T cfg - 1)%nat ->
  ((0 < renoise_steps cfg)%nat -> (Z.of_nat (T cfg) <= 1000000)%Z) ->
  (exists y g', sample model c x mask cfg c_full g = inr (y, g')) /\
  (forall i, (starting_t cfg <= i < T cfg)%nat ->
             (i < renoise_steps cfg)%nat ->
             exists r, index (r_range_of cfg (length c)) (i + 1) = inr r).
Proof.
  intros Hok _ Hcf Hm HT Hs Hre Hbig. split.
  - unfold sample. apply sample_steps_ok; auto.
    + intros Htf. destruct (Hm Htf). lra.
    + apply Forall_forall. intros i Hi. apply in_seq in Hi. lia.
  - intros i Hi Hlt.
    destruct (r_range_lookup cfg (length c) (i + 1) ltac:(lia)) as (r & Hr & _).
    eauto.
Qed.

Lemma sample_returns_witness :
  (exists y g',
     sample (flat_denoiser 2) [[0%R]] None None default_config None
       (mkRng (fun _ => 0%Z) 0) = inr (y, g')) /\
  (exists r, index (r_range_of default_config (length [[0%R]])) (10 + 1)
             = inr r).
Proof.
  destruct (sample_returns (flat_denoiser 2) [[0%R]] None None
              default_config None (mkRng (fun _ => 0%Z) 0)) as [H1 H2].
  - apply flat_denoiser_ok. lia.
  - exact I.
  - simpl. lra.
  - simpl. intros _. split; [lra|lia].
  - simpl. lia.
  - simpl. lia.
  - simpl. lia.
  - simpl. lia.
  - split; [exact H1|]. apply (H2 10%nat); simpl; lia.
Defined.

Lemma sample_step_in_range (model : Denoiser) (cfg : Config) (c : cond)
  (c_full : option cond_full) (mask : option tokens)
  (r_range : list (list R)) (temperatures : list R) (init_x : tokens)
  (i : nat) (x : tokens) (g g' : Rng) (y : tokens) :
  denoiser_ok model ->
  match mask with Some m => binary m | None => True end ->
  in_range (num_labels model) init_x -> in_range (num_labels model) x ->
  sample_step model cfg c c_full mask r_range temperatures init_x i x g
  = inr (y, g') ->
  in_range (num_labels model) y.
Proof.
  intros Hok Hm Hinit Hx H. unfold sample_step in H.
  apply bind_inr in H. destruct H as (x' & g1 & Hd & Hre).
  apply denoise_step_inv in Hd.
  destruct Hd as (r & temp & lg & xf & sampled & _ & _ & Hlg & Hxf & Hs & ->).
  apply (renoise_in_range _ _ _ _ _ _ _ _ _ _ Hinit Hx) in Hre; auto.
  apply restore_in_range; auto.
  rewrite <- (Z2Nat.id (num_labels model)) by (destruct Hok; lia).
  eapply gumbel_sample_range; [|exact Hs].
  eapply filter_logits_rows; [exact Hxf|].
  eapply denoise_logits_rows; eauto.
Qed.

(** C9: when the mask is binary and the given [x] holds class indices, so
    does every grid of the run: the initial one, the sampled one of each
    step, the restored one, the re-noised one, and the one returned. *)
Theorem grids_in_range (model : Denoiser) (c : cond) (x mask : option tokens)
  (cfg : Config) (c_full : option cond_full) :
  denoiser_ok model ->
  match mask with Some m => binary m | None => True end ->
  match x with Some t => in_range (num_labels model) t | None => True end ->
  (forall g x0 g0,
     init_grid model cfg c x mask g = inr (x0, g0) ->
     in_range (num_labels model) x0) /\
  (forall init_x prev_x y r temp lg xf sampled g1 g2,
     in_range (num_labels model) init_x ->
     in_range (num_labels model) prev_x ->
     denoise_logits model cfg c c_full y r = inr lg ->
     filter_logits cfg lg = inr xf ->
     gumbel_sample xf temp g1 = inr (sampled, g2) ->
     in_range (num_labels model) sampled /\
     in_range (num_labels model) (restore mask init_x sampled) /\
     forall r_range i z g3,
       renoise model cfg r_range init_x prev_x i (restore mask init_x sampled)
         g2 = inr (z, g3) ->
       in_range (num_labels model) z) /\
  (forall steps g y g',
     sample_steps model c x mask cfg c_full steps g = inr (y, g') ->
     in_range (num_labels model) y) /\
  (forall g y g',
     sample model c x mask cfg c_full g = inr (y, g') ->
     in_range (num_labels model) y).
Proof.
  intros Hok Hm Hx.
  assert (Hsteps : forall steps g y g',
             sample_steps model c x mask cfg c_full steps g = inr (y, g') ->
             in_range (num_labels model) y).
  { intros steps g y g' H. unfold sample_steps in H. cbv zeta in H.
    apply bind_inr in H. destruct H as (x0 & g0 & Hinit & Hloop).
    apply init_grid_in_range in Hinit; auto.
    revert Hloop. apply sample_loop_inv; [|exact Hinit].
    intros i z g1 z' g1' _ Hz. now apply sample_step_in_range. }
  split; [|split; [|split]].
  - intros g x0 g0. now apply init_grid_in_range.
  - intros init_x prev_x y r temp lg xf sampled g1 g2 Hinit Hprev Hlg Hxf Hs.
    assert (Hsampled : in_range (num_labels model) sampled).
    { rewrite <- (Z2Nat.id (num_labels model)) by (destruct Hok; lia).
      eapply gumbel_sample_range; [|exact Hs].
      eapply filter_logits_rows; [exact Hxf|].
      eapply denoise_logits_rows; eauto. }
    assert (Hrestored : in_range (num_labels model)
                          (restore mask init_x sampled))
      by (now apply restore_in_range).
    split; [exact Hsampled|]. split; [exact Hrestored|].
    intros r_range i z g3. now apply renoise_in_range.
  - exact Hsteps.
  - intros g y g'. apply Hsteps.
Qed.

Lemma grids_in_range_witness :
  exists y g',
    sample (flat_denoiser 2) [[0%R]] (Some [[0; 1]]%Z) (Some [[1; 0]]%Z)
      small_config None (mkRng (fun _ => 0%Z) 0) = inr (y, g') /\
    in_range 2 y.
Proof.
  destruct (sample_steps_ok (flat_denoiser 2) [[0%R]] (Some [[0; 1]]%Z)
              (Some [[1; 0]]%Z) small_config None
              (seq (starting_t small_config)
                 (T small_config - starting_t small_config))
              (mkRng (fun _ => 0%Z) 0)) as (y & g' & Hy).
  - apply flat_denoiser_ok. lia.
  - simpl. lra.
  - simpl. lra.
  - simpl. lia.
  - simpl. repeat (apply Forall_cons; [simpl; lia|]). apply Forall_nil.
  - exists y, g'. split; [exact Hy|].
    refine (proj2 (proj2 (proj2
              (grids_in_range (flat_denoiser 2) [[0%R]] (Some [[0; 1]]%Z)
                 (Some [[1; 0]]%Z) small_config None _ _ _)))
              (mkRng (fun _ => 0%Z) 0) y g' Hy).
    + apply flat_denoiser_ok. lia.
    + simpl. unfold binary. repeat (apply Forall_cons || apply Forall_nil); lia.
    + simpl. unfold in_range.
      repeat (apply Forall_cons || apply Forall_nil); lia.
Defined.

(** ** Positions the mask fixes *)

Lemma blended_shape (a m b : tokens) :
  same_shape a m -> same_shape b m ->
  same_shape (tadd (tmul a m) (tmul (rsub 1 m) b)) m.
Proof.
  intros Ha Hb.
  assert (H1 : same_shape (tmul a m) m).
  { eapply same_shape_trans; [apply same_shape_zip_with; exact Ha|exact Ha]. }
  assert (H2 : same_shape (tmul (rsub 1 m) b) m).
  { eapply same_shape_trans; [apply same_shape_zip_with|apply same_shape_map].
    eapply same_shape_trans; [apply same_shape_map|].
    now apply same_shape_sym. }
  eapply same_shape_trans; [apply same_shape_zip_with|exact H1].
  eapply same_shape_trans; [exact H1|now apply same_shape_sym].
Qed.

Lemma blended_fixed (a m b : tokens) :
  same_shape a m -> same_shape b m ->
  keeps_fixed m b (tadd (tmul a m) (tmul (rsub 1 m) b)).
Proof.
  intros Ha Hb i k Hm. rewrite get2_restore, Hm.
  destruct (same_shape_get2 _ _ _ _ _ (same_shape_sym _ _ Ha) Hm) as [u Hu].
  destruct (same_shape_get2 _ _ _ _ _ (same_shape_sym _ _ Hb) Hm) as [v Hv].
  rewrite Hu, Hv. f_equal. lia.
Qed.

Lemma same_shape_length {A B : Type} (a : list (list A)) (b : list (list B)) :
  same_shape a b -> length a = length b.
Proof. apply Forall2_length. Qed.

Lemma grid_shape_same (batch npos : nat) (a b : tokens) :
  grid_shape batch npos a -> grid_shape batch npos b -> same_shape a b.
Proof.
  intros [Ha1 Ha2] [Hb1 Hb2]. subst batch. revert b Hb1 Hb2.
  induction Ha2 as [|ra a Hra _ IH]; intros [|rb b] Hb1 Hb2; simpl in Hb1;
    try discriminate; constructor.
  - inversion Hb2. congruence.
  - inversion Hb2. apply IH; auto.
Qed.

Lemma gamma_half_pos : (0 < gamma (0 + 1 * ((1 - 0) / (1 + 1))) * 1 <= 1)%R.
Proof.
  replace (0 + 1 * ((1 - 0) / (1 + 1)))%R with (1 / 2)%R by lra.
  pose proof (gamma_bounds (1 / 2) ltac:(lra)) as [_ H1].
  split; [|lra]. unfold gamma. pose proof PI_enclosure as [Hl Hu].
  unfold torch_pi in *.
  assert (0 < cos (1 / 2 * (13176795 / 4194304) / 2))%R
    by (apply cos_gt_0; lra).
  lra.
Qed.

(** In mode 'rand' the re-noising after the first step replaces the token
    of a position the mask fixes: the grid holds 0 where the caller gave 1. *)
Lemma rand_overwrites_fixed :
  exists y g',
    sample_steps (flat_denoiser 2) [[0%R]] (Some [[1]]%Z) (Some [[0]]%Z)
      rand_config None [0%nat] (mkRng (fun _ => 0%Z) 0) = inr (y, g') /\
    ~ keeps_fixed [[0]]%Z [[1]]%Z y.
Proof.
  exists [[0]]%Z, (mkRng (fun _ => 0%Z) 5). split.
  - unfold sample_steps. cbn.
    unfold sample_step, denoise_step, denoise_logits, bind. cbn.
    rewrite Rleb_false by lra. cbn.
    rewrite Rltb_irrefl. cbn.
    unfold add_noise, bernoulli, bind. cbn.
    unfold bernoulli1. pose proof gamma_half_pos as [Hp0 Hp1].
    rewrite (Rleb_true _ _ (Rlt_le _ _ Hp0)), (Rleb_true _ _ Hp1). cbn.
    unfold uniform1, next_raw, bind, ret. cbn.
    rewrite Rltb_true by lra. cbn. rewrite round_long_1. reflexivity.
  - intros H. specialize (H 0%nat 0%nat eq_refl). discriminate.
Qed.

Lemma sample_loop_app (step : nat -> tokens -> M tokens) (l1 l2 : list nat) :
  forall x g,
    sample_loop step (l1 ++ l2) x g
    = bind (sample_loop step l1 x) (sample_loop step l2) g.
Proof.
  induction l1 as [|i l1 IH]; intros x g; simpl; [reflexivity|].
  unfold bind in *. destruct (step i x g) as [e|[y g1]]; [reflexivity|].
  apply IH.
Qed.

Lemma keeps_fixed_trans (m a b z : tokens) :
  keeps_fixed m a b -> keeps_fixed m b z -> keeps_fixed m a z.
Proof. intros Hab Hbz i k Hm. now rewrite (Hbz i k Hm), (Hab i k Hm). Qed.

(** Lines 102-105 on a masked grid. *)
Lemma init_grid_masked (model : Denoiser) (cfg : Config) (c : cond)
  (x0 m : tokens) (g : Rng) :
  denoiser_ok model -> inputs_ok c (Some x0) (Some m) cfg ->
  exists init g',
    init_grid model cfg c (Some x0) (Some m) g = inr (init, g') /\
    same_shape init m /\ keeps_fixed m x0 init.
Proof.
  intros [Hn _] (Hm & _ & Hx). unfold init_grid. cbv zeta.
  destruct (randint_total (num_labels model) (length c)
              (fst (size cfg) * snd (size cfg)) Hn g) as (noise & g' & Hnoise).
  rewrite (bind_ok _ Hnoise). unfold ret. eexists. eexists.
  split; [reflexivity|].
  destruct (randint_inv _ _ _ _ _ _ Hnoise) as (_ & Hl & Hrows).
  assert (Hns : same_shape noise m)
    by (eapply grid_shape_same; [split; eauto|exact Hm]).
  assert (Hxs : same_shape x0 m) by (eapply grid_shape_same; eauto).
  split; [now apply blended_shape|now apply blended_fixed].
Qed.

(** ** Shapes along a run that returns *)

Lemma upd_length {A : Type} (l : list A) (v : A) :
  forall i l', upd l i v = Some l' -> length l' = length l.
Proof.
  induction l as [|a l IH]; intros [|i] l' H; simpl in H; try discriminate.
  - now inversion H.
  - destruct (upd l i v) as [l1|] eqn:Hu; simpl in H; [|discriminate].
    inversion H. simpl. f_equal. eauto.
Qed.

Lemma scatter_length {A : Type} (idx : list nat) :
  forall (self src out : list A),
    scatter self idx src = inr out -> length out = length self.
Proof.
  induction idx as [|i idx IH]; intros self src out H; simpl in H.
  - now inversion H.
  - destruct src as [|v src]; [discriminate|].
    destruct (upd self i v) as [self'|] eqn:Hu; [|discriminate].
    rewrite (IH _ _ _ H). eapply upd_length; eauto.
Qed.

Lemma typical_filter_length_eq (mass : R) (min_tokens : nat) (x : list R)
  (out : list score) :
  typical_filter mass min_tokens x = inr out -> length out = length x.
Proof.
  unfold typical_filter, typical_prepare. cbv zeta.
  pose proof (sort_lengths (typical_distance x)) as [Hsl _].
  rewrite typical_distance_length in Hsl.
  destruct (sort (typical_distance x)) as [sorted indices]. simpl in Hsl.
  destruct (gather x indices) as [e|g]; simpl; [discriminate|].
  unfold typical_remove. simpl.
  destruct (gather sorted _) as [e|thr]; simpl; [discriminate|].
  match goal with |- context [scatter ?a _ _] => set (rs := a) end.
  assert (Hrs : length rs = length x).
  { unfold rs. destruct (1 <? min_tokens)%nat.
    - unfold clear_prefix.
      rewrite length_app, repeat_length, length_skipn, length_map. lia.
    - now rewrite length_map. }
  destruct (scatter rs indices rs) as [e|rem] eqn:Hsc; simpl; [discriminate|].
  intros [= <-]. unfold masked_fill. apply length_zip_with.
  rewrite (scatter_length _ _ _ _ Hsc). congruence.
Qed.

Lemma denoise_logits_shape (model : Denoiser) (cfg : Config) (c : cond)
  (c_full : option cond_full) (x : tokens) (r : list R) (lg : logits) :
  denoiser_ok model ->
  denoise_logits model cfg c c_full x r = inr lg ->
  logits_shape (Z.to_nat (num_labels model)) x lg.
Proof.
  intros [_ Hshape]. unfold denoise_logits.
  destruct (Rleb 0 (classifier_free_scale cfg)).
  - destruct (zeros_like_full c_full) as [e|zf]; simpl; [discriminate|].
    intros [= <-]. apply logits_shape_zip; apply Hshape.
  - intros [= <-]. apply Hshape.
Qed.

Lemma filter_logits_shape (cfg : Config) (n : nat) (x : tokens) (lg : logits)
  (xf : list (list (list score))) :
  filter_logits cfg lg = inr xf -> logits_shape n x lg -> logits_shape n x xf.
Proof.
  unfold filter_logits. destruct (typical_filtering cfg).
  - intros H Hlg. eapply logits_shape_transport; [exact Hlg|].
    revert H. apply emap_inv. intros a b. apply emap_inv.
    intros row out. apply typical_filter_length_eq.
  - intros [= <-] Hlg. now apply logits_shape_map.
Qed.

Lemma gumbel_sample_shape (n : nat) (x : tokens)
  (xf : list (list (list score))) (temp : R) (g g' : Rng) (y : tokens) :
  logits_shape n x xf ->
  gumbel_sample xf temp g = inr (y, g') -> same_shape y x.
Proof.
  intros Hxf. unfold gumbel_sample. cbv zeta. intros H.
  apply bind_inr in H. destruct H as (noise & g1 & Hnoise & H).
  apply lift_inr in H. destruct H as [H _].
  assert (Hrel : Forall2 (Forall2 (Forall2 (fun (_ : score) (_ : R) => True)))
                   xf noise).
  { revert Hnoise. unfold gumbel_noise. apply mapM_inv. intros a g2 b g3.
    apply mapM_inv. intros a' g4 b' g5. apply mapM_inv. auto. }
  match type of H with emap _ ?t = _ => set (rows := t) in * end.
  assert (Hrows : logits_shape n x rows).
  { unfold rows. apply logits_shape_zip; [now apply logits_shape_map|].
    eapply logits_shape_transport; [exact Hxf|].
    eapply Forall2_weaken; [|exact Hrel]. intros u v Huv.
    eapply Forall2_weaken; [|exact Huv]. intros r1 r2 H12.
    symmetry. exact (Forall2_length H12). }
  eapply logits_shape_tokens; [exact Hrows|].
  revert H. apply emap_inv. intros a b. apply emap_inv. auto.
Qed.

(** Lines 107-136, when they return: the sampled grid has the shape of the
    grid of the step. *)
Lemma denoise_step_shape (model : Denoiser) (cfg : Config) (c : cond)
  (c_full : option cond_full) (mask : option tokens)
  (r_range : list (list R)) (temperatures : list R) (init_x : tokens)
  (i : nat) (x : tokens) (g g' : Rng) (y : tokens) :
  denoiser_ok model ->
  denoise_step model cfg c c_full mask r_range temperatures init_x i x g
  = inr (y, g') ->
  exists sampled, y = restore mask init_x sampled /\ same_shape sampled x.
Proof.
  intros Hok H. apply denoise_step_inv in H.
  destruct H as (r & temp & lg & xf & sampled & _ & _ & Hlg & Hxf & Hs & ->).
  exists sampled. split; [reflexivity|].
  eapply gumbel_sample_shape; [|exact Hs].
  eapply filter_logits_shape; [exact Hxf|].
  eapply denoise_logits_shape; eauto.
Qed.

Lemma r_range_rows (cfg : Config) (batch j : nat) (r : list R) :
  index (r_range_of cfg batch) j = inr r -> length r = batch.
Proof.
  unfold index, r_range_of.
  destruct (nth_error _ j) as [r'|] eqn:Hr; [|discriminate].
  intros [= <-]. apply nth_error_In, in_map_iff in Hr.
  destruct Hr as (v & <- & _). apply repeat_length.
Qed.

Lemma r_range_bound (cfg : Config) (batch j : nat) (r : list R) :
  index (r_range_of cfg batch) j = inr r -> (j < T cfg)%nat.
Proof.
  unfold index. destruct (nth_error _ j) as [r'|] eqn:Hr; [|discriminate].
  intros _. rewrite <- (r_range_length cfg batch).
  apply nth_error_Some. congruence.
Qed.

(** What [add_noise] returned, on operands of one shape. *)
Lemma add_noise_inv_shape (nl : Z) (x : tokens) (r : list R)
  (random_x : option tokens) (g g' : Rng) (p : tokens * tokens) :
  length r = length x ->
  match random_x with Some rx => same_shape rx x | None => True end ->
  add_noise nl x r random_x g = inr (p, g') ->
  exists mask src,
    p = (tadd (tmul x (rsub 1 mask)) (tmul src mask), mask) /\
    binary mask /\ same_shape mask x /\ same_shape src x /\
    match random_x with
    | Some rx => src = rx
    | None => in_range nl src /\
              exists g1, randint_like x 0 nl g1 = inr (src, g')
    end.
Proof.
  intros Hlen Hrx. unfold add_noise. cbv zeta. intros H.
  apply bind_inr in H. destruct H as (mf & g1 & Hb & H).
  apply bind_inr in H. destruct H as (src & g2 & Hs & H).
  inversion H. subst. exists (map (map round_long) mf), src.
  destruct (bernoulli_inv _ _ _ _ Hb) as [Hmf Hbin].
  split; [reflexivity|]. split; [exact Hbin|]. split.
  { eapply same_shape_trans; [apply same_shape_map|].
    eapply same_shape_trans; [exact Hmf|].
    now apply noise_probabilities_shape. }
  destruct random_x as [rx|].
  - inversion Hs. subst. auto.
  - destruct (randint_like_inv _ _ _ _ _ Hs). eauto.
Qed.

Lemma noised_fixed (m init z nm src : tokens) :
  binary nm -> same_shape z m -> same_shape nm z -> same_shape src z ->
  keeps_fixed m init z -> keeps_fixed m init src ->
  keeps_fixed m init (tadd (tmul z (rsub 1 nm)) (tmul src nm)).
Proof.
  intros Hbin Hz Hnm Hsrc Hzf Hsf b p Hm. rewrite get2_noised.
  destruct (same_shape_get2 _ _ _ _ _ (same_shape_sym _ _ Hz) Hm) as [u Hu].
  destruct (same_shape_get2 _ _ _ _ _ (same_shape_sym _ _ Hnm) Hu) as [w Hw].
  destruct (same_shape_get2 _ _ _ _ _ (same_shape_sym _ _ Hsrc) Hu) as [v Hv].
  rewrite Hu, Hw, Hv. rewrite <- (Hzf b p Hm), Hu.
  assert (Hvu : v = u).
  { pose proof (Hsf b p Hm) as H1. pose proof (Hzf b p Hm) as H2.
    rewrite Hv in H1. rewrite Hu in H2. congruence. }
  subst v. f_equal.
  destruct (Forall_get2 _ _ _ _ _ Hbin Hw) as [-> | ->]; lia.
Qed.

(** One iteration on a masked grid, when it returns: the result has the
    shape of the mask; it keeps the fixed positions when the step does not
    re-noise, in mode 'start', and in mode 'prev' from a grid that kept
    them; the last step of the schedule does not re-noise. *)
Lemma sample_step_masked_inv (model : Denoiser) (cfg : Config) (c : cond)
  (c_full : option cond_full) (m : tokens) (temperatures : list R)
  (init_x : tokens) (i : nat) (x : tokens) (g g' : Rng) (y : tokens) :
  denoiser_ok model ->
  length m = length c -> same_shape init_x m -> same_shape x m ->
  sample_step model cfg c c_full (Some m) (r_range_of cfg (length c))
    temperatures init_x i x g = inr (y, g') ->
  same_shape y m /\
  ((renoise_steps cfg <= i)%nat \/ renoise_mode cfg = "start"%string \/
   (renoise_mode cfg = "prev"%string /\ keeps_fixed m init_x x) ->
   keeps_fixed m init_x y) /\
  ((T cfg <= i + 1)%nat -> keeps_fixed m init_x y).
Proof.
  intros Hok Hlen Hinit Hx H. unfold sample_step in H.
  apply bind_inr in H. destruct H as (x' & g1 & Hd & Hre).
  apply denoise_step_shape in Hd; [|exact Hok].
  destruct Hd as (sampled & -> & Hs). simpl restore in Hre.
  set (restored := tadd (tmul sampled m) (tmul (rsub 1 m) init_x)) in *.
  assert (Hsm : same_shape sampled m) by (eapply same_shape_trans; eauto).
  assert (Hrs : same_shape restored m) by (now apply blended_shape).
  assert (Hrf : keeps_fixed m init_x restored) by (now apply blended_fixed).
  unfold renoise in Hre.
  destruct (Nat.ltb_spec i (renoise_steps cfg)) as [Hlt|Hge].
  2:{ inversion Hre. subst. auto. }
  assert (Hnoise : forall random_x,
             match random_x with
             | Some rx => same_shape rx m
             | None => True
             end ->
             (r <- lift (index (r_range_of cfg (length c)) (i + 1)) ;;
              p <- add_noise (num_labels model) restored r random_x ;;
              ret (fst p)) g1 = inr (y, g') ->
             (i + 1 < T cfg)%nat /\ same_shape y m /\
             (match random_x with
              | Some rx => keeps_fixed m init_x rx
              | None => False
              end -> keeps_fixed m init_x y)).
  { intros random_x Hrx Hrun.
    apply bind_inr in Hrun. destruct Hrun as (r & g2 & Hr & Hrun).
    apply lift_inr in Hr. destruct Hr as [Hr ->].
    apply bind_inr in Hrun. destruct Hrun as (p & g3 & Hp & Hrun).
    inversion Hrun. subst.
    apply add_noise_inv_shape in Hp.
    - destruct Hp as (nm & src & -> & Hbin & Hnm & Hsrc & Hsrcv). simpl.
      split; [eapply r_range_bound; eauto|]. split.
      + eapply same_shape_trans; [now apply noised_shape|exact Hrs].
      + destruct random_x as [rx|]; [|tauto]. subst src. intros Hfix.
        now apply noised_fixed.
    - rewrite (r_range_rows _ _ _ _ Hr), <- Hlen. symmetry.
      now apply same_shape_length.
    - destruct random_x as [rx|]; [|exact I].
      eapply same_shape_trans; [exact Hrx|now apply same_shape_sym]. }
  destruct (String.eqb_spec (renoise_mode cfg) "start") as [Hstart|Hstart];
    [|destruct (String.eqb_spec (renoise_mode cfg) "prev") as [Hprev|Hprev]].
  - destruct (Hnoise (Some init_x) Hinit Hre) as (Hi & Hys & Hyf).
    split; [exact Hys|]. split; [|intros; lia].
    intros _. apply Hyf. intros b p _. reflexivity.
  - destruct (Hnoise (Some x) Hx Hre) as (Hi & Hys & Hyf).
    split; [exact Hys|]. split; [|intros; lia].
    intros [Hc|[Hc|[_ Hc]]]; [lia|congruence|now apply Hyf].
  - destruct (Hnoise None I Hre) as (Hi & Hys & _).
    split; [exact Hys|]. split; [|intros; lia].
    intros [Hc|[Hc|[Hc _]]]; [lia|congruence|congruence].
Qed.

(** C1, as the code has it. With a binary mask and a grid of its shape
    given, in every configuration: the mask restore of every step puts the
    initial value back at every position where the mask is 0, in every
    mode; in modes 'start' and 'prev' those positions hold the caller's
    value after every step; in every mode they hold it in the grid the
    sampler returns. *)
Theorem fixed_positions_kept (model : Denoiser) (c : cond) (x0 m : tokens)
  (cfg : Config) (c_full : option cond_full) :
  denoiser_ok model -> inputs_ok c (Some x0) (Some m) cfg ->
  (forall init_x sampled,
     same_shape init_x m -> same_shape sampled m ->
     keeps_fixed m init_x (restore (Some m) init_x sampled)) /\
  (renoise_mode cfg = "start"%string \/ renoise_mode cfg = "prev"%string ->
   forall steps g y g',
     sample_steps model c (Some x0) (Some m) cfg c_full steps g = inr (y, g') ->
     keeps_fixed m x0 y) /\
  (forall g y g',
     sample model c (Some x0) (Some m) cfg c_full g = inr (y, g') ->
     keeps_fixed m x0 y).
Proof.
  intros Hok Hin.
  assert (Hlen : length m = length c) by (destruct Hin as ([Hl _] & _); exact Hl).
  assert (Hinit : forall g init g0,
             init_grid model cfg c (Some x0) (Some m) g = inr (init, g0) ->
             same_shape init m /\ keeps_fixed m x0 init).
  { intros g init g0 H.
    destruct (init_grid_masked model cfg c x0 m g Hok Hin)
      as (init' & g0' & H' & Hs & Hf).
    rewrite H in H'. inversion H'. subst. auto. }
  split; [|split].
  - intros init_x sampled Hi Hsm. simpl. now apply blended_fixed.
  - intros Hmode steps g y g' H. unfold sample_steps in H. cbv zeta in H.
    apply bind_inr in H. destruct H as (init & g0 & Hi & Hloop).
    destruct (Hinit _ _ _ Hi) as [Hishape Hifix].
    eapply keeps_fixed_trans; [exact Hifix|].
    assert (HP : same_shape y m /\ keeps_fixed m init y); [|tauto].
    revert Hloop.
    apply (sample_loop_inv _ (fun z => same_shape z m /\ keeps_fixed m init z)).
    + intros i z g1 z' g1' _ [Hz Hzf] Hstep.
      destruct (sample_step_masked_inv _ _ _ _ _ _ _ _ _ _ _ _ Hok Hlen
                  Hishape Hz Hstep) as (Hz' & Hzf' & _).
      split; [exact Hz'|]. apply Hzf'. tauto.
    + split; [exact Hishape|]. intros b p _. reflexivity.
  - intros g y g' H. unfold sample, sample_steps in H. cbv zeta in H.
    apply bind_inr in H. destruct H as (init & g0 & Hi & Hloop).
    destruct (Hinit _ _ _ Hi) as [Hishape Hifix].
    eapply keeps_fixed_trans; [exact Hifix|].
    destruct (T cfg - starting_t cfg)%nat as [|n] eqn:Hn.
    + simpl in Hloop. inversion Hloop. subst. intros b p _. reflexivity.
    + rewrite seq_S, sample_loop_app in Hloop.
      apply bind_inr in Hloop. destruct Hloop as (y1 & g1 & Hfirst & Hlast).
      assert (Hy1 : same_shape y1 m).
      { revert Hfirst.
        apply (sample_loop_inv _ (fun z => same_shape z m)); [|exact Hishape].
        intros i z g2 z' g2' _ Hz Hstep.
        now destruct (sample_step_masked_inv _ _ _ _ _ _ _ _ _ _ _ _ Hok Hlen
                        Hishape Hz Hstep). }
      simpl in Hlast. apply bind_inr in Hlast.
      destruct Hlast as (y2 & g2 & Hstep & Hret). inversion Hret. subst.
      destruct (sample_step_masked_inv _ _ _ _ _ _ _ _ _ _ _ _ Hok Hlen
                  Hishape Hy1 Hstep) as (_ & _ & Hfix).
      apply Hfix. lia.
Qed.

Lemma fixed_positions_kept_witness :
  exists y g',
    sample (flat_denoiser 2) [[0%R]] (Some [[0; 1]]%Z) (Some [[1; 0]]%Z)
      small_config None (mkRng (fun _ => 0%Z) 0) = inr (y, g') /\
    keeps_fixed [[1; 0]]%Z [[0; 1]]%Z y.
Proof.
  destruct (sample_steps_ok (flat_denoiser 2) [[0%R]] (Some [[0; 1]]%Z)
              (Some [[1; 0]]%Z) small_config None
              (seq (starting_t small_config)
                 (T small_config - starting_t small_config))
              (mkRng (fun _ => 0%Z) 0)) as (y & g' & Hy).
  - apply flat_denoiser_ok. lia.
  - simpl. lra.
  - simpl. lra.
  - simpl. lia.
  - simpl. repeat (apply Forall_cons; [simpl; lia|]). apply Forall_nil.
  - exists y, g'. split; [exact Hy|].
    refine (proj2 (proj2
              (fixed_positions_kept (flat_denoiser 2) [[0%R]] [[0; 1]]%Z
                 [[1; 0]]%Z small_config None _ _))
              (mkRng (fun _ => 0%Z) 0) y g' Hy).
    + apply flat_denoiser_ok. lia.
    + simpl. unfold grid_shape, binary. simpl.
      repeat split; repeat (apply Forall_cons || apply Forall_nil); auto.
Defined.

(** C6: whenever [add_noise] returns, its mask holds zeros and ones; the
    grid it returns is the given one where the mask is 0, and where it is 1
    the value of [random_x] or, without [random_x], a token drawn in
    [0, num_labels); it does return for progress values from 0 to 0.999999,
    where the schedule is a probability. *)
Theorem add_noise_replaces (nl : Z) (x : tokens) (r : list R)
  (random_x : option tokens) (g : Rng) :
  length r = length x ->
  match random_x with Some rx => same_shape rx x | None => True end ->
  (forall x' mask g',
     add_noise nl x r random_x g = inr ((x', mask), g') ->
     binary mask /\ same_shape mask x /\ same_shape x' x /\
     exists src,
       match random_x with
       | Some rx => src = rx
       | None => in_range nl src /\
                 exists g1, randint_like x 0 nl g1 = inr (src, g')
       end /\
       forall b k m, get2 mask b k = Some m ->
         (m = 0 \/ m = 1)%Z /\
         (m = 0%Z -> get2 x' b k = get2 x b k) /\
         (m = 1%Z -> get2 x' b k = get2 src b k)) /\
  (Forall (fun v => 0 <= v <= 999999 / 1000000)%R r ->
   (random_x = None -> (0 < nl)%Z) ->
   exists x' mask g', add_noise nl x r random_x g = inr ((x', mask), g')).
Proof.
  intros Hlen Hrx. split.
  - intros x' mask g' H.
    destruct (add_noise_inv_shape _ _ _ _ _ _ _ Hlen Hrx H)
      as (mask0 & src & Hp & Hbin & Hmask & Hsrc & Hsrcv).
    inversion Hp. subst x' mask0. clear Hp.
    split; [exact Hbin|]. split; [exact Hmask|].
    split; [now apply noised_shape|].
    exists src. split; [exact Hsrcv|].
    intros b k w Hw. rewrite get2_noised, Hw.
    destruct (same_shape_get2 _ _ _ _ _ Hmask Hw) as [xv Hxv].
    destruct (same_shape_get2 _ _ _ _ _
                (same_shape_trans _ _ _ Hmask (same_shape_sym _ _ Hsrc)) Hw)
      as [sv Hsv].
    rewrite Hxv, Hsv.
    split; [exact (Forall_get2 _ _ _ _ _ Hbin Hw)|].
    split; intros ->; f_equal; lia.
  - intros Hr Hnl.
    destruct (add_noise_total nl x r random_x Hr Hnl g) as ([x' mask] & g' & H).
    eauto.
Qed.

Lemma add_noise_replaces_witness :
  exists x' mask g',
    add_noise 8 [[5; 6]]%Z [(1 / 2)%R] (Some [[1; 2]]%Z) (mkRng (fun _ => 0%Z) 0)
      = inr ((x', mask), g') /\
    binary mask /\ same_shape mask [[5; 6]]%Z /\ same_shape x' [[5; 6]]%Z.
Proof.
  pose proof (add_noise_replaces 8 [[5; 6]]%Z [(1 / 2)%R] (Some [[1; 2]]%Z)
                (mkRng (fun _ => 0%Z) 0) eq_refl) as H.
  destruct H as [Hinv Htot].
  - repeat constructor.
  - destruct Htot as (x' & mask & g' & Hrun).
    + repeat constructor; lra.
    + discriminate.
    + exists x', mask, g'. split; [exact Hrun|].
      destruct (Hinv x' mask g' Hrun) as (Hb & Hm & Hx & _). auto.
Defined.

(** * Further properties of the code *)

(** ** resize_image *)

Lemma scaled_ge_target (a b : Z) :
  (0 < b)%Z -> (b <= a)%Z -> (TARGET_SIZE <= a * TARGET_SIZE / b)%Z.
Proof.
  intros Hb Hab. unfold TARGET_SIZE.
  apply Z.div_le_lower_bound; [exact Hb|]. lia.
Qed.

Lemma resize_target_positive (w h : Z) :
  (0 < w)%Z -> (0 < h)%Z ->
  resize_target (w, h)
  = inr (if (h <=? w)%Z then (w * TARGET_SIZE / h)%Z else TARGET_SIZE,
         if (w <=? h)%Z then (h * TARGET_SIZE / w)%Z else TARGET_SIZE).
Proof.
  intros Hw Hh. unfold resize_target, floor_scaled.
  destruct (Z.leb_spec h w) as [Hhw|Hhw]; destruct (Z.leb_spec w h) as [Hwh|Hwh];
    try lia.
  - assert (w = h) by lia. subst h. rewrite Z.max_id, Z.eqb_refl.
    replace (w =? 0)%Z with false by (symmetry; apply Z.eqb_neq; lia).
    simpl pybind.
    replace (w * TARGET_SIZE / w)%Z with TARGET_SIZE
      by (rewrite Z.mul_comm, Z.div_mul; lia).
    reflexivity.
  - rewrite Z.max_l by lia. rewrite Z.eqb_refl.
    replace (h =? 0)%Z with false by (symmetry; apply Z.eqb_neq; lia).
    replace (w =? h)%Z with false by (symmetry; apply Z.eqb_neq; lia).
    simpl pybind. pose proof (scaled_ge_target w h Hh ltac:(lia)) as Hge.
    destruct (Z.ltb_spec (w * TARGET_SIZE / h) TARGET_SIZE); [lia|].
    reflexivity.
  - rewrite Z.max_r by lia. rewrite Z.eqb_refl.
    replace (h =? w)%Z with false by (symmetry; apply Z.eqb_neq; lia).
    simpl pybind.
    replace (w =? 0)%Z with false by (symmetry; apply Z.eqb_neq; lia).
    simpl pybind. pose proof (scaled_ge_target h w Hw ltac:(lia)) as Hge.
    destruct (Z.ltb_spec (h * TARGET_SIZE / w) TARGET_SIZE); [lia|].
    reflexivity.
Qed.

Lemma pil_resize_ok (img : image) (w h : Z) :
  (1 <= w)%Z -> (1 <= h)%Z -> pil_resize img (w, h) = inr (w, h).
Proof.
  intros Hw Hh. unfold pil_resize. cbn [fst snd].
  destruct ((w =? fst img) && (h =? snd img))%Z eqn:E.
  - apply andb_prop in E. destruct E as [E1 E2].
    apply Z.eqb_eq in E1, E2. destruct img; simpl in *. now subst.
  - destruct (Z.ltb_spec w 1); [lia|]. destruct (Z.ltb_spec h 1); [lia|].
    reflexivity.
Qed.

(** On an image with pixels the resize is carried out, to a size whose
    sides are both at least 128. *)
Lemma resize_image_positive (w h : Z) :
  (0 < w)%Z -> (0 < h)%Z ->
  exists w' h',
    resize_image (w, h) = inr (w', h') /\
    w' = (if (h <=? w)%Z then (w * 128 / h)%Z else 128%Z) /\
    h' = (if (w <=? h)%Z then (h * 128 / w)%Z else 128%Z) /\
    (128 <= w')%Z /\ (128 <= h')%Z.
Proof.
  intros Hw Hh. unfold resize_image.
  rewrite (resize_target_positive w h Hw Hh). simpl pybind.
  pose proof (scaled_ge_target w h Hh) as Hgw.
  pose proof (scaled_ge_target h w Hw) as Hgh.
  unfold TARGET_SIZE in *.
  assert (Hw' : (128 <= (if (h <=? w)%Z then (w * 128 / h)%Z else 128%Z))%Z)
    by (destruct (Z.leb_spec h w); [auto|lia]).
  assert (Hh' : (128 <= (if (w <=? h)%Z then (h * 128 / w)%Z else 128%Z))%Z)
    by (destruct (Z.leb_spec w h); [auto|lia]).
  rewrite pil_resize_ok by lia.
  eexists. eexists. split; [reflexivity|]. auto.
Qed.

(** X1: on an image with pixels [resize_image] returns; the shorter side
    becomes 128 and the longer one the floor of 128 times the aspect ratio,
    which is at least 128. *)
Theorem resize_image_sides (w h : Z) :
  (0 < w)%Z -> (0 < h)%Z ->
  exists w' h',
    resize_image (w, h) = inr (w', h') /\
    Z.min w' h' = 128%Z /\
    ((h <= w)%Z -> h' = 128%Z /\ w' = (w * 128 / h)%Z) /\
    ((w <= h)%Z -> w' = 128%Z /\ h' = (h * 128 / w)%Z).
Proof.
  intros Hw Hh.
  destruct (resize_image_positive w h Hw Hh)
    as (w' & h' & E & Ew & Eh & Hw' & Hh').
  exists w', h'. split; [exact E|].
  assert (Hsq : w = h -> (w * 128 / h)%Z = 128%Z /\ (h * 128 / w)%Z = 128%Z).
  { intros <-. rewrite Z.mul_comm, Z.div_mul by lia. split; reflexivity. }
  destruct (Z.leb_spec h w) as [Hhw|Hhw] in Ew;
    destruct (Z.leb_spec w h) as [Hwh|Hwh] in Eh;
    try (exfalso; lia); subst w' h';
    try (destruct (Hsq ltac:(lia)) as [-> ->]);
    repeat split; lia.
Qed.

Lemma resize_image_sides_witness :
  exists w' h',
    resize_image (640, 480)%Z = inr (w', h') /\
    Z.min w' h' = 128%Z /\
    ((480 <= 640)%Z -> h' = 128%Z /\ w' = (640 * 128 / 480)%Z) /\
    ((640 <= 480)%Z -> w' = 128%Z /\ h' = (480 * 128 / 640)%Z).
Proof. apply (resize_image_sides 640 480); lia. Defined.

(** X2: on sizes that are not negative [resize_image] divides by zero
    exactly when a side is 0. *)
Theorem resize_image_zero_side (w h : Z) :
  (0 <= w)%Z -> (0 <= h)%Z ->
  (resize_image (w, h) = inl ZeroDivisionError <-> w = 0%Z \/ h = 0%Z).
Proof.
  intros Hw Hh. split.
  - intros H. destruct (Z.eq_dec w 0) as [|Hw0]; [now left|].
    destruct (Z.eq_dec h 0) as [|Hh0]; [now right|].
    destruct (resize_image_positive w h ltac:(lia) ltac:(lia))
      as (w' & h' & E & _).
    rewrite E in H. discriminate.
  - unfold resize_image, resize_target, floor_scaled.
    intros [-> | ->].
    + rewrite Z.max_r by lia.
      destruct (Z.eqb_spec h 0) as [->|Hh0]; [reflexivity|].
      simpl pybind. rewrite Z.eqb_refl. reflexivity.
    + rewrite Z.max_l by lia. rewrite Z.eqb_refl. reflexivity.
Qed.

Lemma resize_image_zero_side_witness :
  resize_image (0, 5)%Z = inl ZeroDivisionError <-> 0%Z = 0%Z \/ 5%Z = 0%Z.
Proof. apply (resize_image_zero_side 0 5); lia. Defined.

(** ** crop_random, preprocess and their composition *)

Lemma randrange_ok (stop : Z) (g : Rng) :
  (0 < stop)%Z ->
  exists v, randrange 0 stop g = inr (v, mkRng (tape g) (S (cursor g))) /\
            (0 <= v < stop)%Z.
Proof.
  intros Hs. unfold randrange.
  destruct (Z.leb_spec stop 0); [lia|].
  eexists. split; [reflexivity|].
  rewrite Z.sub_0_r, Z.add_0_l. apply Z.mod_pos_bound. exact Hs.
Qed.

Lemma randrange_empty (stop : Z) (g : Rng) :
  (stop <= 0)%Z -> randrange 0 stop g = inl ValueError.
Proof.
  intros Hs. unfold randrange. destruct (Z.leb_spec stop 0); [reflexivity|lia].
Qed.

Lemma half_succ_pos (a : Z) : (0 < a / 2 + 1)%Z <-> (0 <= a)%Z.
Proof.
  pose proof (Z.div_mod a 2 ltac:(lia)).
  pose proof (Z.mod_pos_bound a 2 ltac:(lia)). lia.
Qed.

(** The box of a crop that is carried out: twice a draw below
    [x_max // 2 + 1], and the same down the image. *)
Lemma crop_area_ok (w h : Z) (g : Rng) :
  (128 <= w)%Z -> (128 <= h)%Z ->
  exists rx ry,
    crop_area (w, h) g
    = inr ((rx * 2, ry * 2, rx * 2 + 128, ry * 2 + 128)%Z,
           mkRng (tape g) (S (S (cursor g)))) /\
    (0 <= rx < (w - 128) / 2 + 1)%Z /\ (0 <= ry < (h - 128) / 2 + 1)%Z.
Proof.
  intros Hw Hh.
  destruct (randrange_ok ((w - 128) / 2 + 1) g) as (rx & Ex & Hrx);
    [apply half_succ_pos; lia|].
  destruct (randrange_ok ((h - 128) / 2 + 1) (mkRng (tape g) (S (cursor g))))
    as (ry & Ey & Hry); [apply half_succ_pos; lia|].
  simpl in Ey. exists rx, ry. split; [|split; assumption].
  unfold crop_area, pymbind, TARGET_SIZE. simpl fst. simpl snd.
  rewrite Ex, Ey. reflexivity.
Qed.

Lemma crop_random_ok (w h : Z) (g : Rng) :
  (128 <= w)%Z -> (128 <= h)%Z ->
  crop_random (w, h) g
  = inr ((128, 128)%Z, mkRng (tape g) (S (S (cursor g)))).
Proof.
  intros Hw Hh.
  destruct (crop_area_ok w h g Hw Hh) as (rx & ry & Ea & _).
  unfold crop_random, pymbind. rewrite Ea. unfold pyret, pil_crop.
  replace (rx * 2 + 128 - rx * 2)%Z with 128%Z by lia.
  replace (ry * 2 + 128 - ry * 2)%Z with 128%Z by lia.
  reflexivity.
Qed.

(** X3: on an image whose sides are both at least 128 [crop_random] returns
    a 128 x 128 image; the box it cuts has even offsets, lies inside the
    image, and two numbers of the generator are consumed. *)
Theorem crop_random_box (w h : Z) (g : Rng) :
  (128 <= w)%Z -> (128 <= h)%Z ->
  exists x y,
    crop_area (w, h) g
    = inr ((x, y, x + 128, y + 128)%Z, mkRng (tape g) (S (S (cursor g)))) /\
    crop_random (w, h) g
    = inr ((128, 128)%Z, mkRng (tape g) (S (S (cursor g)))) /\
    (0 <= x)%Z /\ (x + 128 <= w)%Z /\ Z.even x = true /\
    (0 <= y)%Z /\ (y + 128 <= h)%Z /\ Z.even y = true.
Proof.
  intros Hw Hh.
  destruct (crop_area_ok w h g Hw Hh) as (rx & ry & Ea & Hrx & Hry).
  exists (rx * 2)%Z, (ry * 2)%Z. split; [exact Ea|].
  split; [apply crop_random_ok; assumption|].
  pose proof (Z.div_mod (w - 128) 2 ltac:(lia)).
  pose proof (Z.mod_pos_bound (w - 128) 2 ltac:(lia)).
  pose proof (Z.div_mod (h - 128) 2 ltac:(lia)).
  pose proof (Z.mod_pos_bound (h - 128) 2 ltac:(lia)).
  repeat split; try lia.
  - rewrite Z.mul_comm, Z.even_mul. reflexivity.
  - rewrite Z.mul_comm, Z.even_mul. reflexivity.
Qed.

Lemma crop_random_box_witness :
  exists x y,
    crop_area (300, 128)%Z (mkRng (fun _ => 7%Z) 0)
    = inr ((x, y, x + 128, y + 128)%Z, mkRng (fun _ => 7%Z) 2) /\
    crop_random (300, 128)%Z (mkRng (fun _ => 7%Z) 0)
    = inr ((128, 128)%Z, mkRng (fun _ => 7%Z) 2) /\
    (0 <= x)%Z /\ (x + 128 <= 300)%Z /\ Z.even x = true /\
    (0 <= y)%Z /\ (y + 128 <= 128)%Z /\ Z.even y = true.
Proof.
  apply (crop_random_box 300 128 (mkRng (fun _ => 7%Z) 0)); lia.
Defined.

(** X4: [crop_random] raises ValueError, from [randrange] over an empty
    range, exactly when a side of the image is below 128. *)
Theorem crop_random_too_small (w h : Z) (g : Rng) :
  crop_random (w, h) g = inl ValueError <-> (w < 128)%Z \/ (h < 128)%Z.
Proof.
  split.
  - intros H. destruct (Z.lt_ge_cases w 128) as [|Hw]; [now left|].
    destruct (Z.lt_ge_cases h 128) as [|Hh]; [now right|].
    rewrite (crop_random_ok w h g Hw Hh) in H. discriminate.
  - intros Hs. unfold crop_random, crop_area, pymbind, TARGET_SIZE.
    simpl fst. simpl snd.
    destruct (Z.lt_ge_cases w 128) as [Hw|Hw].
    + rewrite randrange_empty; [reflexivity|].
      pose proof (half_succ_pos (w - 128)). lia.
    + destruct (randrange_ok ((w - 128) / 2 + 1) g) as (rx & Ex & _);
        [apply half_succ_pos; lia|].
      rewrite Ex. rewrite randrange_empty; [reflexivity|].
      pose proof (half_succ_pos (h - 128)). lia.
Qed.

(** X5: on an image whose sides are both at least 32 [preprocess] returns a
    tensor of shape (1, 3, h', w') where h' and w' are the sides rounded
    down to multiples of 32. *)
Theorem preprocess_shape (w h : Z) :
  (32 <= w)%Z -> (32 <= h)%Z ->
  exists w' h',
    preprocess (w, h) = inr [1; 3; h'; w']%Z /\
    (w' mod 32 = 0)%Z /\ (w - 32 < w' <= w)%Z /\
    (h' mod 32 = 0)%Z /\ (h - 32 < h' <= h)%Z.
Proof.
  intros Hw Hh.
  pose proof (Z.div_mod w 32 ltac:(lia)) as Dw.
  pose proof (Z.mod_pos_bound w 32 ltac:(lia)) as Bw.
  pose proof (Z.div_mod h 32 ltac:(lia)) as Dh.
  pose proof (Z.mod_pos_bound h 32 ltac:(lia)) as Bh.
  exists (w - w mod 32)%Z, (h - h mod 32)%Z. split.
  { unfold preprocess. rewrite pil_resize_ok by lia. reflexivity. }
  repeat split; try lia.
  - replace (w - w mod 32)%Z with (w / 32 * 32)%Z by lia. apply Z.mod_mul. lia.
  - replace (h - h mod 32)%Z with (h / 32 * 32)%Z by lia. apply Z.mod_mul. lia.
Qed.

Lemma preprocess_shape_witness :
  exists w' h',
    preprocess (100, 70)%Z = inr [1; 3; h'; w']%Z /\
    (w' mod 32 = 0)%Z /\ (100 - 32 < w' <= 100)%Z /\
    (h' mod 32 = 0)%Z /\ (70 - 32 < h' <= 70)%Z.
Proof. apply (preprocess_shape 100 70); lia. Defined.

Lemma transforms_ok (w h : Z) (g : Rng) :
  (0 < w)%Z -> (0 < h)%Z ->
  transforms (w, h) g
  = inr ([1; 3; 128; 128]%Z, mkRng (tape g) (S (S (cursor g)))).
Proof.
  intros Hw Hh.
  destruct (resize_image_positive w h Hw Hh) as (w' & h' & Er & _ & _ & Hw' & Hh').
  unfold transforms, pymbind, pylift.
  rewrite Er, (crop_random_ok w' h' g Hw' Hh').
  reflexivity.
Qed.

(** X6: the transform of the data pipeline, resize, random crop and
    preprocess in a row, returns a tensor of shape (1, 3, 128, 128) for
    every image with pixels, whatever the generator draws; it consumes two
    numbers of the generator. *)
Theorem transforms_shape (w h : Z) (g : Rng) :
  (0 < w)%Z -> (0 < h)%Z ->
  exists g',
    transforms (w, h) g = inr ([1; 3; 128; 128]%Z, g') /\
    tape g' = tape g /\ cursor g' = (cursor g + 2)%nat.
Proof.
  intros Hw Hh. eexists. split; [apply transforms_ok; assumption|].
  simpl. split; [reflexivity|lia].
Qed.

Lemma transforms_shape_witness :
  exists g',
    transforms (640, 480)%Z (mkRng (fun _ => 7%Z) 0)
    = inr ([1; 3; 128; 128]%Z, g') /\
    tape g' = tape (mkRng (fun _ => 7%Z) 0) /\
    cursor g' = (cursor (mkRng (fun _ => 7%Z) 0) + 2)%nat.
Proof.
  apply (transforms_shape 640 480 (mkRng (fun _ => 7%Z) 0)); lia.
Defined.

(** ** The typical filter and the mass it is given *)

Lemma cumsum_from_le_total (l : list R) :
  Forall (fun p => 0 <= p)%R l ->
  forall acc, Forall (fun v => v <= acc + rsum l)%R (cumsum_from acc l).
Proof.
  induction 1 as [|v l Hv Hl IH]; intros acc; simpl; constructor.
  - assert (0 <= rsum l)%R.
    { clear IH. induction Hl; simpl; [lra|]. unfold rsum in *. simpl. lra. }
    unfold rsum in *. simpl. lra.
  - eapply Forall_impl; [|apply (IH (acc + v)%R)].
    intros a Ha. simpl in Ha. unfold rsum in *. simpl. lra.
Qed.

Lemma cumsum_le_total (l : list R) :
  Forall (fun p => 0 <= p)%R l -> Forall (fun v => v <= rsum l)%R (cumsum l).
Proof.
  intros H. destruct H as [|v l Hv Hl]; simpl; [constructor|].
  pose proof (cumsum_from_le_total l Hl v) as Hc.
  assert (0 <= rsum l)%R.
  { clear Hc. induction Hl; simpl; [lra|]. unfold rsum in *. simpl. lra. }
  constructor; [unfold rsum in *; simpl; lra|exact Hc].
Qed.

Lemma filter_all {A : Type} (f : A -> bool) (l : list A) :
  Forall (fun a => f a = true) l -> filter f l = l.
Proof. induction 1 as [|a l Ha _ IH]; simpl; auto. now rewrite Ha, IH. Qed.

(** X7: on a row with classes the typical filter raises RuntimeError when
    [typical_mass] is 2 or more: the running mass, which ends at 1 up to
    rounding, never reaches it, and the threshold is then read one place
    after the end of the sorted row. *)
Theorem typical_filter_mass_above_one (mass : R) (min_tokens : nat)
  (x : list R) :
  x <> [] -> (2 <= mass)%R ->
  typical_filter mass min_tokens x = inl RuntimeError.
Proof.
  intros Hx Hm.
  pose proof (sort_indices_perm (typical_distance x)) as Hperm.
  rewrite typical_distance_length in Hperm.
  destruct (gather_total x _ (perm_seq_bound _ _ Hperm)) as [g Hg].
  assert (Hlen : length g = length x).
  { rewrite <- (Forall2_length (gather_inv _ _ _ Hg)).
    rewrite (Permutation_length Hperm). apply length_seq. }
  assert (Hg1 : g <> []).
  { intros ->. destruct x; [congruence|discriminate]. }
  assert (Hall : filter (fun v => Rltb v mass) (cumsum (softmax g))
                 = cumsum (softmax g)).
  { apply filter_all.
    eapply Forall_impl; [|apply (cumsum_le_total _ (softmax_nonneg g))].
    intros a Ha. simpl in Ha. rewrite rsum_softmax in Ha by assumption.
    apply Rltb_true. lra. }
  destruct (sort_lengths (typical_distance x)) as [Hls _].
  rewrite typical_distance_length in Hls.
  unfold typical_filter, typical_prepare. cbv zeta.
  destruct (sort (typical_distance x)) as [sorted indices]. simpl in *.
  rewrite Hg. simpl. rewrite Hall, cumsum_length, softmax_length, Hlen.
  unfold typical_remove. simpl.
  assert (Hn : nth_error sorted (length x) = None)
    by (apply nth_error_None; lia).
  unfold gather. simpl. rewrite Hn. reflexivity.
Qed.

Lemma typical_filter_mass_above_one_witness :
  typical_filter 2 1 [0; 1; 2]%R = inl RuntimeError.
Proof.
  apply (typical_filter_mass_above_one 2 1 [0; 1; 2]%R); [discriminate|lra].
Defined.

(** ** Runs of the sampler that raise *)

Lemma bind_raise {A B : Type} (m : M A) (f : A -> M B) (g : Rng) (e : exn) :
  m g = inl e -> bind m f g = inl e.
Proof. intros H. unfold bind. now rewrite H. Qed.

Lemma lift_ok {A : Type} (r : E A) (a : A) (g : Rng) :
  r = inr a -> lift r g = inr (a, g).
Proof. intros ->. reflexivity. Qed.

Lemma seq_first (s n : nat) :
  (s < n)%nat -> seq s (n - s) = s :: seq (S s) (n - S s).
Proof.
  intros H. replace (n - s)%nat with (S (n - S s)) by lia. reflexivity.
Qed.

(** X8: with a guidance scale that is not negative and no [c_full], which is
    how the defaults leave it, [sample] raises TypeError in its first step,
    at [torch.zeros_like(c_full)], on optional arguments of the shapes it
    expects and with a step left to run. *)
Theorem guidance_needs_c_full (model : Denoiser) (c : cond)
  (x mask : option tokens) (cfg : Config) (g : Rng) :
  (0 < num_labels model)%Z -> inputs_ok c x mask cfg ->
  (starting_t cfg < T cfg)%nat ->
  (0 <= classifier_free_scale cfg)%R ->
  sample model c x mask cfg None g = inl TypeError.
Proof.
  intros Hn _ Hs Hcf.
  destruct (init_grid_total model cfg c x mask g Hn) as (x0 & g0 & Hi).
  destruct (r_range_lookup cfg (length c) (starting_t cfg) Hs) as (r & Hr & _).
  destruct (temperatures_lookup cfg (starting_t cfg) Hs) as (t & Ht).
  unfold sample, sample_steps. rewrite (bind_ok _ Hi).
  rewrite (seq_first _ _ Hs). simpl sample_loop.
  apply bind_raise. unfold sample_step. apply bind_raise.
  unfold denoise_step.
  rewrite (bind_ok _ (lift_ok _ _ g0 Hr)).
  rewrite (bind_ok _ (lift_ok _ _ g0 Ht)).
  apply bind_raise. unfold denoise_logits.
  rewrite (Rleb_true _ _ Hcf). reflexivity.
Qed.

Lemma guidance_needs_c_full_witness :
  sample (flat_denoiser 2) [[0%R]] None None guided_config None
    (mkRng (fun _ => 0%Z) 0) = inl TypeError.
Proof.
  apply (guidance_needs_c_full (flat_denoiser 2) [[0%R]] None None
           guided_config (mkRng (fun _ => 0%Z) 0));
    [reflexivity | exact I | simpl; lia | simpl; lra].
Defined.

Lemma index_out_of_range {A : Type} (t : list A) (i : nat) :
  (length t <= i)%nat -> index t i = inl IndexError.
Proof.
  intros H. unfold index.
  now rewrite (proj2 (nth_error_None t i) H).
Qed.

Lemma renoise_past_schedule (model : Denoiser) (cfg : Config) (batch : nat)
  (init_x prev_x : tokens) (i : nat) (x : tokens) (g : Rng) :
  (i < renoise_steps cfg)%nat -> (T cfg <= i + 1)%nat ->
  renoise model cfg (r_range_of cfg batch) init_x prev_x i x g
  = inl IndexError.
Proof.
  intros Hi HT. unfold renoise.
  destruct (Nat.ltb_spec i (renoise_steps cfg)) as [_|]; [|lia].
  assert (E : index (r_range_of cfg batch) (i + 1) = inl IndexError)
    by (apply index_out_of_range; rewrite r_range_length; exact HT).
  destruct (String.eqb _ "start"); [|destruct (String.eqb _ "prev")];
    apply bind_raise; rewrite E; reflexivity.
Qed.

(** X9: with [renoise_steps >= T] a run that reaches its last step raises
    IndexError there, in every mode: the steps before it are all carried
    out, and after the last sampling [r_range[T]] is read. The run gets
    that far when [c_full] is given under guidance, the schedule has at
    most 10^6 steps and, with the typical filter on, [typical_mass <= 1/2]
    and there are at most 65536 classes. *)
Theorem renoise_steps_reach_T (model : Denoiser) (c : cond)
  (x mask : option tokens) (cfg : Config) (c_full : option cond_full)
  (g : Rng) :
  denoiser_ok model -> inputs_ok c x mask cfg ->
  ((0 <= classifier_free_scale cfg)%R -> c_full <> None) ->
  (typical_filtering cfg = true ->
   (typical_mass cfg <= 1 / 2)%R /\ (num_labels model <= 65536)%Z) ->
  (Z.of_nat (T cfg) <= 1000000)%Z ->
  (starting_t cfg < T cfg)%nat -> (T cfg <= renoise_steps cfg)%nat ->
  sample model c x mask cfg c_full g = inl IndexError.
Proof.
  intros Hok _ Hcf Hm0 Hbig Hs Hre.
  assert (Hm : typical_filtering cfg = true -> (typical_mass cfg <= 1)%R)
    by (intros Htf; destruct (Hm0 Htf); lra).
  destruct (init_grid_total model cfg c x mask g (proj1 Hok))
    as (x0 & g0 & Hi).
  unfold sample, sample_steps. rewrite (bind_ok _ Hi).
  replace (T cfg - starting_t cfg)%nat
    with (S (T cfg - 1 - starting_t cfg)) by lia.
  rewrite seq_S, sample_loop_app.
  replace (starting_t cfg + (T cfg - 1 - starting_t cfg))%nat
    with (T cfg - 1)%nat by lia.
  destruct (sample_loop_total
              (sample_step model cfg c c_full mask (r_range_of cfg (length c))
                 (temperatures_of cfg) x0)
              (fun _ => True)
              (seq (starting_t cfg) (T cfg - 1 - starting_t cfg)))
    with (x := x0) (g := g0) as (y & g1 & Hy & _).
  - intros i z g2 Hin _. apply in_seq in Hin.
    destruct (sample_step_ok model cfg c c_full mask x0 i z g2 Hok Hcf Hm)
      as (y & g' & Hy); [lia|lia|auto|]. eauto.
  - exact I.
  - rewrite (bind_ok _ Hy). simpl sample_loop. apply bind_raise.
    unfold sample_step.
    destruct (denoise_step_ok model cfg c c_full mask x0 (T cfg - 1) y g1
                Hok Hcf Hm ltac:(lia)) as (sampled & g2 & Hd & _).
    rewrite (bind_ok _ Hd).
    apply renoise_past_schedule; lia.
Qed.

Lemma renoise_steps_reach_T_witness :
  sample (flat_denoiser 2) [[0%R]] None None renoise_every_step_config None
    (mkRng (fun _ => 0%Z) 0) = inl IndexError.
Proof.
  apply (renoise_steps_reach_T (flat_denoiser 2) [[0%R]] None None
           renoise_every_step_config None (mkRng (fun _ => 0%Z) 0)).
  - apply flat_denoiser_ok. lia.
  - exact I.
  - simpl. intros H. exfalso. lra.
  - simpl. intros _. split; [lra|lia].
  - simpl. lia.
  - simpl. lia.
  - simpl. lia.
Defined.

(** ** The two ends of the noise schedule *)

Lemma uniform1_range (g g' : Rng) (u : R) :
  uniform1 g = inr (u, g') -> (0 <= u < 1)%R.
Proof.
  unfold uniform1, next_raw, bind, ret. intros H. inversion H. subst. clear H.
  pose proof (Z.mod_pos_bound (tape g (cursor g)) (2 ^ 24) ltac:(lia)) as [H0 H1].
  apply IZR_le in H0. apply IZR_lt in H1.
  assert (0 < IZR (2 ^ 24))%R by (apply IZR_lt; lia).
  split.
  - apply Rmult_le_pos; [exact H0|]. left. now apply Rinv_0_lt_compat.
  - apply Rmult_lt_reg_r with (r := IZR (2 ^ 24)); [assumption|].
    unfold Rdiv. rewrite Rmult_assoc, Rinv_l, Rmult_1_r, Rmult_1_l by lra.
    exact H1.
Qed.

Lemma bernoulli1_certain (p : R) (g : Rng) :
  p = 1%R -> exists g', bernoulli1 p g = inr (1%R, g').
Proof.
  intros ->. unfold bernoulli1.
  rewrite (Rleb_true 0 1), (Rleb_true 1 1) by lra. simpl.
  destruct (uniform1 g) as [e|[u g']] eqn:Hu;
    [unfold uniform1, next_raw, bind, ret in Hu; discriminate|].
  exists g'. unfold bind. rewrite Hu. unfold ret.
  rewrite Rltb_true; [reflexivity|]. apply (uniform1_range _ _ _ Hu).
Qed.

Lemma bernoulli1_never (p : R) (g : Rng) :
  p = 0%R -> exists g', bernoulli1 p g = inr (0%R, g').
Proof.
  intros ->. unfold bernoulli1.
  rewrite (Rleb_true 0 0), (Rleb_true 0 1) by lra. simpl.
  destruct (uniform1 g) as [e|[u g']] eqn:Hu;
    [unfold uniform1, next_raw, bind, ret in Hu; discriminate|].
  exists g'. unfold bind. rewrite Hu. unfold ret.
  rewrite Rltb_false; [reflexivity|]. apply (uniform1_range _ _ _ Hu).
Qed.

Lemma bernoulli_constant (v : R) (p : list (list R)) (g : Rng) :
  v = 0%R \/ v = 1%R ->
  Forall (Forall (eq v)) p ->
  exists m g', bernoulli p g = inr (m, g') /\
               Forall2 (Forall2 (fun _ b => b = v)) p m.
Proof.
  intros Hv Hp. unfold bernoulli. apply mapM_total_rel.
  eapply Forall_impl; [|exact Hp]. intros row Hrow. simpl in Hrow.
  apply mapM_total_rel.
  eapply Forall_impl; [|exact Hrow]. intros q Hq g0. simpl in Hq. subst q.
  destruct Hv as [-> | ->].
  - destruct (bernoulli1_never 0 g0 eq_refl) as [g' H]. eauto.
  - destruct (bernoulli1_certain 1 g0 eq_refl) as [g' H]. eauto.
Qed.

Lemma noise_probabilities_constant (v : R) (r : list R) (x : tokens) :
  Forall (fun q => gamma q = v) r ->
  Forall (Forall (eq v))
    (zip_with (fun rb xb => map (fun o => (rb * IZR o)%R) (ones_like xb))
       (map gamma r) x).
Proof.
  intros Hr. revert x. induction Hr as [|q r Hq _ IH]; intros [|xb x]; simpl;
    constructor; auto.
  unfold ones_like. rewrite map_map. apply Forall_map.
  apply Forall_forall. intros ? _. rewrite Hq. simpl. lra.
Qed.

Lemma row_noised_all (xb mb sb : list Z) :
  length mb = length xb -> length sb = length xb -> Forall (eq 1%Z) mb ->
  zip_with Z.add (zip_with Z.mul xb (map (fun v => 1 - v)%Z mb))
    (zip_with Z.mul sb mb) = sb.
Proof.
  revert mb sb. induction xb as [|a xb IH]; intros [|m mb] [|s sb] Hm Hs Hz;
    cbn [zip_with map length] in *; try discriminate; auto.
  inversion Hz; subst. f_equal; [lia|]. apply IH; auto.
Qed.

Lemma noised_all (x mask src : tokens) :
  same_shape mask x -> same_shape src x -> Forall (Forall (eq 1%Z)) mask ->
  tadd (tmul x (rsub 1 mask)) (tmul src mask) = src.
Proof.
  unfold same_shape, tadd, tmul, rsub. intros Hm. revert src.
  induction Hm as [|mb xb mask x Hl _ IH]; intros src Hs Hz;
    inversion Hs; subst; simpl; auto.
  inversion Hz; subst. f_equal; [apply row_noised_all; auto|].
  apply IH; auto.
Qed.

Lemma rounded_constant (v : R) (w : Z) (p m : list (list R)) :
  round_long v = w ->
  Forall2 (Forall2 (fun (_ b : R) => b = v)) p m ->
  Forall (Forall (eq w)) (map (map round_long) m).
Proof.
  intros Hw H. induction H as [|pr mr p m Hr _ IH]; simpl; constructor; auto.
  clear IH. induction Hr as [|a b pr mr Hb _ IH]; simpl; constructor; auto.
  now subst.
Qed.

Lemma bernoulli_refused (p : list (list R)) (g : Rng) :
  Forall (Forall (fun q => q < 0)%R) p ->
  Exists (fun row => row <> []) p ->
  bernoulli p g = inl RuntimeError.
Proof.
  unfold bernoulli. intros Hp. revert g.
  induction Hp as [|row p Hrow _ IH]; intros g Hex; [inversion Hex|].
  cbn [mapM]. destruct row as [|q row].
  - unfold bind at 1. cbn [mapM]. unfold ret at 1.
    inversion Hex as [? ? Hne|? ? Hrest]; subst; [congruence|].
    unfold bind. now rewrite (IH g Hrest).
  - apply bind_raise. cbn [mapM]. apply bind_raise.
    inversion Hrow as [|? ? Hq _]; subst.
    unfold bernoulli1. rewrite (Rleb_false 0 q) by lra. reflexivity.
Qed.

Lemma same_shape_nonempty {A B : Type} (a : list (list A))
  (b : list (list B)) :
  same_shape a b -> Exists (fun row => row <> []) b ->
  Exists (fun row => row <> []) a.
Proof.
  induction 1 as [|ra rb a b Hl _ IH]; intros Hex; inversion Hex; subst.
  - left. intros ->. destruct rb; [congruence|discriminate].
  - right. auto.
Qed.

(** X10: the two ends of the schedule in [add_noise], with [random_x]
    given, on a grid with a position and for float32 progress values. At
    progress 0 the mask is 1 everywhere and the grid returned is
    [random_x]; at progress 1 the schedule is below 0, [torch.bernoulli]
    refuses it and [add_noise] raises RuntimeError. *)
Theorem add_noise_ends (nl : Z) (x rx : tokens) (g : Rng) :
  same_shape rx x -> Exists (fun row => row <> []) x ->
  (exists mask g',
     add_noise nl x (repeat 0%R (length x)) (Some rx) g
     = inr ((rx, mask), g') /\
     same_shape mask x /\ Forall (Forall (eq 1%Z)) mask) /\
  add_noise nl x (repeat 1%R (length x)) (Some rx) g = inl RuntimeError.
Proof.
  intros Hrx Hex. split.
  - pose proof (noise_probabilities_shape (repeat 0%R (length x)) x
                  (repeat_length _ _)) as Hps.
    assert (Hr : Forall (fun q => gamma q = 1%R) (repeat 0%R (length x))).
    { apply Forall_forall. intros q Hq. apply repeat_spec in Hq. subst q.
      apply gamma_0. }
    destruct (bernoulli_constant 1 _ g (or_intror eq_refl)
                (noise_probabilities_constant 1 _ x Hr))
      as (m & g' & Hb & Hm).
    pose proof (rounded_constant 1 1 _ _ round_long_1 Hm) as Hones.
    assert (Hsh : same_shape (map (map round_long) m) x).
    { eapply same_shape_trans; [apply same_shape_map|].
      eapply same_shape_trans; [|exact Hps].
      exact (proj1 (bernoulli_inv _ _ _ _ Hb)). }
    exists (map (map round_long) m), g'. split; [|split; assumption].
    unfold add_noise. rewrite (bind_ok _ Hb). unfold bind, ret.
    now rewrite (noised_all _ _ _ Hsh Hrx Hones).
  - pose proof (noise_probabilities_shape (repeat 1%R (length x)) x
                  (repeat_length _ _)) as Hps.
    assert (Hr : Forall (fun q => gamma q = gamma 1) (repeat 1%R (length x))).
    { apply Forall_forall. intros q Hq. apply repeat_spec in Hq. now subst q. }
    unfold add_noise. apply bind_raise. apply bernoulli_refused.
    + eapply Forall_impl;
        [|exact (noise_probabilities_constant (gamma 1) _ x Hr)].
      intros row Hrow. eapply Forall_impl; [|exact Hrow].
      intros q <-. pose proof gamma_1. lra.
    + exact (same_shape_nonempty _ _ Hps Hex).
Qed.

Lemma add_noise_ends_witness :
  (exists mask g',
     add_noise 7 [[3; 4]]%Z (repeat 0%R (length [[3; 4]]%Z))
       (Some [[5; 6]]%Z) (mkRng (fun _ => 0%Z) 0)
     = inr (([[5; 6]]%Z, mask), g') /\
     same_shape mask [[3; 4]]%Z /\ Forall (Forall (eq 1%Z)) mask) /\
  add_noise 7 [[3; 4]]%Z (repeat 1%R (length [[3; 4]]%Z))
    (Some [[5; 6]]%Z) (mkRng (fun _ => 0%Z) 0) = inl RuntimeError.
Proof.
  refine (add_noise_ends 7 [[3; 4]]%Z [[5; 6]]%Z (mkRng (fun _ => 0%Z) 0)
            _ _).
  - repeat constructor.
  - left. discriminate.
Defined.

(** ** The schedule of a run *)

Lemma r_range_value (cfg : Config) (batch i : nat) :
  (i < T cfg)%nat ->
  index (r_range_of cfg batch) i = inr (repeat (INR i / INR (T cfg))%R batch).
Proof.
  intros Hi. unfold r_range_of, linspace, index.
  rewrite Nat.add_1_r, seq_S, map_app. simpl app.
  rewrite removelast_last, nth_error_map, nth_error_map, nth_error_seq0 by lia.
  simpl. replace (T cfg - 0)%nat with (T cfg) by lia.
  do 2 f_equal. unfold Rdiv. lra.
Qed.

Lemma temperatures_value (cfg : Config) (i : nat) :
  (i < T cfg)%nat ->
  index (temperatures_of cfg) i
  = inr (fst (temp_range cfg)
         + INR i * ((snd (temp_range cfg) - fst (temp_range cfg))
                    / INR (T cfg - 1)))%R.
Proof.
  intros Hi. unfold temperatures_of, linspace, index.
  rewrite nth_error_map, nth_error_seq0 by lia. reflexivity.
Qed.

(** X11: step [i] of a run of [T] steps uses the progress value [i / T],
    which stays below 1, and a temperature that goes linearly from
    [temp_range[0]] at the first step to [temp_range[1]] at the last; with
    [T = 1] the only temperature is [temp_range[0]]. The schedule has no
    entry [T]. *)
Theorem schedule_entries (cfg : Config) (batch i : nat) :
  (i < T cfg)%nat ->
  index (r_range_of cfg batch) i = inr (repeat (INR i / INR (T cfg))%R batch) /\
  (0 <= INR i / INR (T cfg) < 1)%R /\
  index (r_range_of cfg batch) (T cfg) = inl IndexError /\
  index (temperatures_of cfg) i
  = inr (fst (temp_range cfg)
         + INR i * ((snd (temp_range cfg) - fst (temp_range cfg))
                    / INR (T cfg - 1)))%R /\
  index (temperatures_of cfg) 0 = inr (fst (temp_range cfg)) /\
  ((2 <= T cfg)%nat ->
   index (temperatures_of cfg) (T cfg - 1) = inr (snd (temp_range cfg))) /\
  index (temperatures_of cfg) (T cfg) = inl IndexError.
Proof.
  intros Hi.
  assert (Ht : (0 < INR (T cfg))%R) by (apply lt_0_INR; lia).
  split; [now apply r_range_value|]. split.
  { split.
    - apply Rmult_le_pos; [apply pos_INR|]. left. now apply Rinv_0_lt_compat.
    - apply Rmult_lt_reg_r with (INR (T cfg)); [exact Ht|].
      unfold Rdiv. rewrite Rmult_assoc, Rinv_l by lra.
      rewrite Rmult_1_r, Rmult_1_l. apply lt_INR. exact Hi. }
  split.
  { apply index_out_of_range. rewrite r_range_length. lia. }
  split; [now apply temperatures_value|]. split.
  { rewrite temperatures_value by lia. f_equal. simpl INR. lra. }
  split.
  { intros H2. rewrite temperatures_value by lia. f_equal.
    assert (0 < INR (T cfg - 1))%R by (apply lt_0_INR; lia).
    field. lra. }
  apply index_out_of_range. unfold temperatures_of.
  rewrite linspace_length. lia.
Qed.

Lemma schedule_entries_witness :
  index (r_range_of default_config 1) 3
  = inr (repeat (INR 3 / INR (T default_config))%R 1) /\
  (0 <= INR 3 / INR (T default_config) < 1)%R /\
  index (r_range_of default_config 1) (T default_config) = inl IndexError /\
  index (temperatures_of default_config) 3
  = inr (fst (temp_range default_config)
         + INR 3 * ((snd (temp_range default_config)
                     - fst (temp_range default_config))
                    / INR (T default_config - 1)))%R /\
  index (temperatures_of default_config) 0
  = inr (fst (temp_range default_config)) /\
  ((2 <= T default_config)%nat ->
   index (temperatures_of default_config) (T default_config - 1)
   = inr (snd (temp_range default_config))) /\
  index (temperatures_of default_config) (T default_config) = inl IndexError.
Proof.
  refine (schedule_entries default_config 1 3 _). simpl. lia.
Defined.

(** ** Runs without steps, and masks without a grid *)

(** X12: with [starting_t >= T] the loop has no iteration: the model is
    never called and [sample] returns the initial grid as it stands; a grid
    given without a mask comes back unchanged, with the generator
    untouched. *)
Theorem no_steps_left (model : Denoiser) (c : cond) (x mask : option tokens)
  (cfg : Config) (c_full : option cond_full) (g : Rng) :
  (T cfg <= starting_t cfg)%nat ->
  sample model c x mask cfg c_full g = init_grid model cfg c x mask g /\
  (forall x0, x = Some x0 -> mask = None ->
              sample model c x mask cfg c_full g = inr (x0, g)).
Proof.
  intros Hs.
  assert (E : sample model c x mask cfg c_full g
              = init_grid model cfg c x mask g).
  { unfold sample, sample_steps.
    replace (T cfg - starting_t cfg)%nat with 0%nat by lia.
    simpl. apply bind_ret_r. }
  split; [exact E|]. intros x0 -> ->. rewrite E. reflexivity.
Qed.

Lemma no_steps_left_witness :
  sample (flat_denoiser 2) [[0%R]] (Some [[1; 0]]%Z) None
    (mkConfig 12 (1, 2) 12 (1, 1)%R true (1 / 5)%R 1 (-1)%R 11 "start")
    None (mkRng (fun _ => 0%Z) 0)
  = inr ([[1; 0]]%Z, mkRng (fun _ => 0%Z) 0).
Proof.
  refine (proj2 (no_steps_left (flat_denoiser 2) [[0%R]] (Some [[1; 0]]%Z) None
            (mkConfig 12 (1, 2) 12 (1, 1)%R true (1 / 5)%R 1 (-1)%R 11 "start")
            None (mkRng (fun _ => 0%Z) 0) _) [[1; 0]]%Z eq_refl eq_refl).
  simpl. lia.
Defined.

(** X13: a mask given without a grid fixes random tokens. The run draws its
    initial grid with [randint], and the grid it returns holds the tokens of
    that draw at every position where the mask is 0, in every mode. The run
    returns when [c_full] is given under guidance, [renoise_steps <= T - 1]
    in a schedule of at most 10^6 steps if it re-noises and, with the
    typical filter on, [typical_mass <= 1/2] and there are at most 65536
    classes. *)
Theorem mask_without_grid (model : Denoiser) (c : cond) (m : tokens)
  (cfg : Config) (c_full : option cond_full) (g : Rng) :
  denoiser_ok model -> inputs_ok c None (Some m) cfg ->
  ((0 <= classifier_free_scale cfg)%R -> c_full <> None) ->
  (typical_filtering cfg = true ->
   (typical_mass cfg <= 1 / 2)%R /\ (num_labels model <= 65536)%Z) ->
  (renoise_steps cfg <= T cfg - 1)%nat ->
  ((0 < renoise_steps cfg)%nat -> (Z.of_nat (T cfg) <= 1000000)%Z) ->
  exists init g0 y g',
    randint 0 (num_labels model) (length c)
      (fst (size cfg) * snd (size cfg)) g = inr (init, g0) /\
    sample model c None (Some m) cfg c_full g = inr (y, g') /\
    in_range (num_labels model) init /\
    keeps_fixed m init y.
Proof.
  intros Hok Hin Hcf Hm0 Hre Hbig.
  assert (Hm : typical_filtering cfg = true -> (typical_mass cfg <= 1)%R)
    by (intros Htf; destruct (Hm0 Htf); lra).
  assert (Hlen : length m = length c) by (destruct Hin as ([Hl _] & _); exact Hl).
  destruct (sample_steps_ok model c None (Some m) cfg c_full
              (seq (starting_t cfg) (T cfg - starting_t cfg)) g Hok Hcf Hm
              Hbig)
    as (y & g' & Hy).
  { apply Forall_forall. intros i Hi. apply in_seq in Hi. lia. }
  pose proof Hy as H. unfold sample_steps in H. cbv zeta in H.
  apply bind_inr in H. destruct H as (init & g0 & Hi & Hloop).
  simpl in Hi. destruct (randint_inv _ _ _ _ _ _ Hi) as (Hr & Hb & Hrows).
  assert (Hishape : same_shape init m).
  { destruct Hin as (Hgm & _). eapply grid_shape_same; [|exact Hgm].
    split; assumption. }
  exists init, g0, y, g'. split; [exact Hi|]. split; [exact Hy|].
  split; [exact Hr|].
  destruct (T cfg - starting_t cfg)%nat as [|n] eqn:Hn.
  - simpl in Hloop. inversion Hloop. subst. intros b p _. reflexivity.
  - rewrite seq_S, sample_loop_app in Hloop.
    apply bind_inr in Hloop. destruct Hloop as (y1 & g1 & Hfirst & Hlast).
    assert (Hy1 : same_shape y1 m).
    { revert Hfirst.
      apply (sample_loop_inv _ (fun z => same_shape z m)); [|exact Hishape].
      intros i z g2 z' g2' _ Hz Hstep.
      now destruct (sample_step_masked_inv _ _ _ _ _ _ _ _ _ _ _ _ Hok Hlen
                      Hishape Hz Hstep). }
    simpl in Hlast. apply bind_inr in Hlast.
    destruct Hlast as (y2 & g2 & Hstep & Hret). inversion Hret. subst.
    destruct (sample_step_masked_inv _ _ _ _ _ _ _ _ _ _ _ _ Hok Hlen
                Hishape Hy1 Hstep) as (_ & _ & Hfix).
    apply Hfix. lia.
Qed.

Lemma mask_without_grid_witness :
  exists init g0 y g',
    randint 0 (num_labels (flat_denoiser 2)) (length [[0%R]])
      (fst (size small_config) * snd (size small_config))
      (mkRng (fun _ => 0%Z) 0) = inr (init, g0) /\
    sample (flat_denoiser 2) [[0%R]] None (Some [[1; 0]]%Z) small_config None
      (mkRng (fun _ => 0%Z) 0) = inr (y, g') /\
    in_range (num_labels (flat_denoiser 2)) init /\
    keeps_fixed [[1; 0]]%Z init y.
Proof.
  refine (mask_without_grid (flat_denoiser 2) [[0%R]] [[1; 0]]%Z small_config
            None (mkRng (fun _ => 0%Z) 0) _ _ _ _ _ _).
  - apply flat_denoiser_ok. lia.
  - simpl. split; [split; [reflexivity|repeat constructor]|].
    split; [|exact I].
    apply Forall_cons; [|apply Forall_nil].
    apply Forall_cons; [now right|].
    apply Forall_cons; [now left|apply Forall_nil].
  - simpl. intros H. exfalso. lra.
  - simpl. intros _. split; [lra|lia].
  - simpl. lia.
  - simpl. lia.
Defined.

(** ** gumbel_noise *)

Lemma uniform1_below (g g' : Rng) (u : R) :
  uniform1 g = inr (u, g') -> (0 <= u <= 1 - / IZR (2 ^ 24))%R.
Proof.
  unfold uniform1, next_raw, bind, ret. intros H. inversion H. subst. clear H.
  pose proof (Z.mod_pos_bound (tape g (cursor g)) (2 ^ 24) ltac:(lia)) as [H0 H1].
  assert (H2 : (tape g (cursor g) mod 2 ^ 24 <= 2 ^ 24 - 1)%Z)
    by (apply Z.lt_le_pred; exact H1).
  apply IZR_le in H0. apply IZR_le in H2. rewrite minus_IZR in H2.
  assert (Hp : (0 < IZR (2 ^ 24))%R) by (apply IZR_lt; lia).
  assert (Hi : (0 < / IZR (2 ^ 24))%R) by now apply Rinv_0_lt_compat.
  split.
  - apply Rmult_le_pos; [exact H0|]. lra.
  - apply Rmult_le_reg_r with (r := IZR (2 ^ 24)); [assumption|].
    unfold Rdiv. rewrite Rmult_assoc, Rinv_l by lra.
    rewrite Rmult_minus_distr_r, Rinv_l by lra.
    change (Z.pow_pos 2 24) with (2 ^ 24)%Z. lra.
Qed.

Lemma uniform1_total (g : Rng) : exists u g', uniform1 g = inr (u, g').
Proof. unfold uniform1, next_raw, bind, ret. eauto. Qed.

Lemma log_arguments (u : R) :
  (0 <= u <= 1 - / IZR (2 ^ 24))%R ->
  (0 < u + / 10 ^ 20 < 1)%R /\ (0 < - log u)%R.
Proof.
  intros [H0 H1].
  assert (He : (0 < / 10 ^ 20 < / IZR (2 ^ 24))%R).
  { split.
    - apply Rinv_0_lt_compat. apply pow_lt. lra.
    - apply Rinv_lt_contravar.
      + apply Rmult_lt_0_compat; [apply IZR_lt; lia|apply pow_lt; lra].
      + replace (10 ^ 20)%R with (IZR (10 ^ 20)) by (simpl; lra).
        apply IZR_lt. lia. }
  assert (Ha : (0 < u + / 10 ^ 20 < 1)%R) by lra.
  split; [exact Ha|]. unfold log.
  assert (ln (u + / 10 ^ 20) < ln 1)%R by (apply ln_increasing; lra).
  rewrite ln_1 in H. lra.
Qed.

(** X14: [gumbel_noise] never raises and gives one number per score; each
    is [-log(-log u)] for a draw [u] of [0, 1), and both logarithms are
    taken of a positive number: the inner one of [u + 1e-20], below 1, the
    outer one of a positive [-log u] plus [1e-20]. *)
Theorem gumbel_noise_defined {A : Type} (t : list (list (list A))) (g : Rng) :
  exists noise g',
    gumbel_noise t g = inr (noise, g') /\
    Forall2 (Forall2 (Forall2 (fun _ n =>
      exists u, (0 <= u < 1)%R /\ (0 < u + / 10 ^ 20 < 1)%R /\
                (0 < - log u + / 10 ^ 20)%R /\
                n = (- log (- log u))%R))) t noise.
Proof.
  unfold gumbel_noise. apply mapM_total_rel.
  apply Forall_forall. intros tb _. apply mapM_total_rel.
  apply Forall_forall. intros row _. apply mapM_total_rel.
  apply Forall_forall. intros a _ g0.
  destruct (uniform1_total g0) as (u & g1 & Hu).
  exists (- log (- log u))%R, g1. split.
  - unfold bind. rewrite Hu. reflexivity.
  - pose proof (uniform1_below _ _ _ Hu) as Hb.
    destruct (log_arguments u Hb) as [Ha Hl].
    assert (0 < / IZR (2 ^ 24))%R
      by (apply Rinv_0_lt_compat; apply IZR_lt; lia).
    assert (0 < / 10 ^ 20)%R by (apply Rinv_0_lt_compat; apply pow_lt; lra).
    exists u. repeat split; try lra.
Qed.

(** ** gen_r_embedding *)

Lemma gen_r_embedding_value (c_r : nat) (r : list R) (max_positions : R) :
  (0 < max_positions)%R -> (c_r / 2 <> 1)%nat ->
  gen_r_embedding c_r r max_positions
  = inr (map (fun rb =>
                let angles :=
                  map (fun k => gamma rb * max_positions
                                * exp (INR k * - (ln max_positions
                                                  / IZR (Z.of_nat (c_r / 2) - 1))))%R
                      (seq 0 (c_r / 2)) in
                map sin angles ++ map cos angles
                ++ (if (c_r mod 2 =? 1)%nat then [0%R] else [])) r).
Proof.
  intros Hm Hh. unfold gen_r_embedding.
  rewrite Rleb_false by exact Hm.
  destruct (Z.eqb_spec (Z.of_nat (c_r / 2) - 1) 0) as [E|_]; [lia|].
  f_equal.
  destruct (c_r mod 2 =? 1)%nat; rewrite !map_map; apply map_ext; intros rb;
    cbv beta zeta; rewrite !map_map, <- ?app_assoc, ?app_nil_r; reflexivity.
Qed.

(** X15: for progress values of the unit interval, a [max_positions]
    from 1 to 10000, its default, where no product overflows, and a [c_r]
    other than 2 and 3, [gen_r_embedding] returns one row per progress
    value, of exactly [c_r] entries, each between -1 and 1. *)
Theorem gen_r_embedding_shape (c_r : nat) (r : list R) (max_positions : R) :
  Forall (fun v => 0 <= v <= 1)%R r ->
  (1 <= max_positions <= 10000)%R -> (c_r / 2 <> 1)%nat ->
  exists emb,
    gen_r_embedding c_r r max_positions = inr emb /\
    length emb = length r /\
    Forall (fun row => length row = c_r /\
                       Forall (fun v => -1 <= v <= 1)%R row) emb.
Proof.
  intros _ [Hm _] Hh.
  rewrite (gen_r_embedding_value c_r r max_positions ltac:(lra) Hh).
  eexists. split; [reflexivity|]. split; [apply length_map|].
  apply Forall_map. apply Forall_forall. intros rb _. cbv zeta. split.
  - rewrite !length_app, !length_map, length_seq.
    pose proof (Nat.div_mod_eq c_r 2) as Hd.
    pose proof (Nat.mod_upper_bound c_r 2 ltac:(lia)) as Hu.
    destruct (Nat.eqb_spec (c_r mod 2) 1); simpl length; lia.
  - apply Forall_app. split; [|apply Forall_app; split].
    + apply Forall_map. apply Forall_forall. intros a _.
      pose proof (SIN_bound a). lra.
    + apply Forall_map. apply Forall_forall. intros a _.
      pose proof (COS_bound a). lra.
    + destruct (c_r mod 2 =? 1)%nat; repeat constructor; lra.
Qed.

Lemma gen_r_embedding_shape_witness :
  exists emb,
    gen_r_embedding 5 [0; 1]%R 10000 = inr emb /\
    length emb = length [0; 1]%R /\
    Forall (fun row => length row = 5%nat /\
                       Forall (fun v => -1 <= v <= 1)%R row) emb.
Proof.
  refine (gen_r_embedding_shape 5 [0; 1]%R 10000 _ _ _).
  - repeat constructor; lra.
  - lra.
  - simpl. lia.
Defined.

(** X16: for a positive [max_positions], [gen_r_embedding] raises
    ZeroDivisionError exactly when [c_r] is 2 or 3, where [half_dim - 1]
    is 0. *)
Theorem gen_r_embedding_zero_division (c_r : nat) (r : list R)
  (max_positions : R) :
  (0 < max_positions)%R ->
  (gen_r_embedding c_r r max_positions = inl ZeroDivisionError
   <-> c_r = 2%nat \/ c_r = 3%nat).
Proof.
  intros Hm.
  pose proof (Nat.div_mod_eq c_r 2) as Hd.
  pose proof (Nat.mod_upper_bound c_r 2 ltac:(lia)) as Hu.
  split.
  - intros H. destruct (Nat.eq_dec (c_r / 2) 1) as [E|E]; [lia|].
    rewrite (gen_r_embedding_value c_r r max_positions Hm E) in H.
    discriminate.
  - intros Hc. unfold gen_r_embedding. rewrite Rleb_false by exact Hm.
    assert (E : (c_r / 2 = 1)%nat) by (destruct Hc; subst; reflexivity).
    rewrite E. reflexivity.
Qed.

Lemma gen_r_embedding_zero_division_witness :
  gen_r_embedding 3 [0%R] 10000 = inl ZeroDivisionError
  <-> 3%nat = 2%nat \/ 3%nat = 3%nat.
Proof. refine (gen_r_embedding_zero_division 3 [0%R] 10000 _). lra. Defined.

(** X17: the entries of a row of the embedding, for a progress value of
    the unit interval and a [max_positions] from 1 to 10000, its default.
    Entry [k] below [half_dim = c_r // 2] is the sine, and entry
    [half_dim + k] the cosine, of the angle
    [gamma(r) * max_positions * exp(-k * log(max_positions) / (half_dim - 1))],
    which is [gamma(r) * max_positions] at [k = 0] and falls to [gamma(r)]
    at [k = half_dim - 1]; an odd [c_r] adds a final 0. *)
Theorem gen_r_embedding_entries (c_r : nat) (r : list R) (max_positions : R)
  (b : nat) (rb : R) :
  Forall (fun v => 0 <= v <= 1)%R r ->
  (1 <= max_positions <= 10000)%R -> (2 <= c_r / 2)%nat ->
  nth_error r b = Some rb ->
  exists emb row,
    gen_r_embedding c_r r max_positions = inr emb /\
    nth_error emb b = Some row /\
    (forall k, (k < c_r / 2)%nat ->
       let angle :=
         (gamma rb * max_positions
          * exp (INR k * - (ln max_positions
                            / IZR (Z.of_nat (c_r / 2) - 1))))%R in
       nth_error row k = Some (sin angle) /\
       nth_error row (c_r / 2 + k) = Some (cos angle)) /\
    nth_error row 0 = Some (sin (gamma rb * max_positions)) /\
    nth_error row (c_r / 2) = Some (cos (gamma rb * max_positions)) /\
    nth_error row (c_r / 2 - 1) = Some (sin (gamma rb)) /\
    nth_error row (c_r / 2 + (c_r / 2 - 1)) = Some (cos (gamma rb)) /\
    (c_r mod 2 = 1%nat -> nth_error row (c_r - 1) = Some 0%R).
Proof.
  intros _ [Hm1 _] Hh Hb.
  assert (Hm : (0 < max_positions)%R) by lra.
  rewrite (gen_r_embedding_value c_r r max_positions Hm ltac:(lia)).
  set (half := (c_r / 2)%nat) in *.
  set (f := fun k : nat =>
              (gamma rb * max_positions
               * exp (INR k * - (ln max_positions / IZR (Z.of_nat half - 1))))%R).
  eexists. eexists. split; [reflexivity|].
  split; [rewrite nth_error_map, Hb; reflexivity|]. cbv zeta. fold f.
  assert (Hsin : forall k, (k < half)%nat ->
            nth_error (map sin (map f (seq 0 half)) ++
                       map cos (map f (seq 0 half)) ++
                       (if (c_r mod 2 =? 1)%nat then [0%R] else [])) k
            = Some (sin (f k))).
  { intros k Hk. rewrite nth_error_app1
      by (rewrite !length_map, length_seq; exact Hk).
    rewrite !nth_error_map, nth_error_seq0 by exact Hk. reflexivity. }
  assert (Hcos : forall k, (k < half)%nat ->
            nth_error (map sin (map f (seq 0 half)) ++
                       map cos (map f (seq 0 half)) ++
                       (if (c_r mod 2 =? 1)%nat then [0%R] else [])) (half + k)
            = Some (cos (f k))).
  { intros k Hk. rewrite nth_error_app2
      by (rewrite !length_map, length_seq; lia).
    rewrite !length_map, length_seq.
    replace (half + k - half)%nat with k by lia.
    rewrite nth_error_app1 by (rewrite !length_map, length_seq; exact Hk).
    rewrite !nth_error_map, nth_error_seq0 by exact Hk. reflexivity. }
  assert (F0 : f 0%nat = (gamma rb * max_positions)%R).
  { unfold f. simpl INR. rewrite Rmult_0_l, exp_0. lra. }
  assert (Fl : f (half - 1)%nat = gamma rb).
  { unfold f. rewrite minus_INR by lia. simpl INR.
    rewrite minus_IZR, <- INR_IZR_INZ.
    assert (1 < INR half)%R by (apply (lt_INR 1); lia).
    replace ((INR half - 1) * - (ln max_positions / (INR half - 1)))%R
      with (- ln max_positions)%R by (field; lra).
    rewrite exp_Ropp, exp_ln by exact Hm. field. lra. }
  split.
  { intros k Hk. split; [now apply Hsin|now apply Hcos]. }
  split; [rewrite <- F0; apply Hsin; lia|].
  split; [rewrite <- F0; specialize (Hcos 0%nat ltac:(lia));
          rewrite Nat.add_0_r in Hcos; exact Hcos|].
  split; [rewrite <- Fl; apply Hsin; lia|].
  split; [rewrite <- Fl; apply Hcos; lia|].
  intros Hodd. rewrite Hodd. simpl Nat.eqb. cbv iota.
  pose proof (Nat.div_mod_eq c_r 2) as Hd. fold half in Hd.
  rewrite nth_error_app2 by (rewrite !length_map, length_seq; lia).
  rewrite nth_error_app2 by (rewrite !length_map, length_seq; lia).
  rewrite !length_map, length_seq.
  replace (c_r - 1 - half - half)%nat with 0%nat by lia. reflexivity.
Qed.

Lemma gen_r_embedding_entries_witness :
  exists emb row,
    gen_r_embedding 5 [0; 1 / 2]%R 10000 = inr emb /\
    nth_error emb 1 = Some row /\
    (forall k, (k < 5 / 2)%nat ->
       let angle :=
         (gamma (1 / 2) * 10000
          * exp (INR k * - (ln 10000 / IZR (Z.of_nat (5 / 2) - 1))))%R in
       nth_error row k = Some (sin angle) /\
       nth_error row (5 / 2 + k) = Some (cos angle)) /\
    nth_error row 0 = Some (sin (gamma (1 / 2) * 10000)) /\
    nth_error row 2 = Some (cos (gamma (1 / 2) * 10000)) /\
    nth_error row 1 = Some (sin (gamma (1 / 2))) /\
    nth_error row 3 = Some (cos (gamma (1 / 2))) /\
    nth_error row 4 = Some 0%R.
Proof.
  destruct (gen_r_embedding_entries 5 [0; 1 / 2]%R 10000 1 (1 / 2))
    as (emb & row & H1 & H2 & H3 & H4 & H5 & H6 & H7 & H8).
  - repeat constructor; lra.
  - lra.
  - simpl. lia.
  - reflexivity.
  - exists emb, row. split; [exact H1|]. split; [exact H2|].
    split; [exact H3|]. split; [exact H4|]. split; [exact H5|].
    split; [exact H6|]. split; [exact H7|]. apply H8. reflexivity.
Defined.

(** ** filter_laion_coco_dataset *)

Lemma contains_false (item : pydict) (k : string) :
  contains k item = false -> dict_lookup item k = None.
Proof. unfold contains. destruct (dict_lookup item k); [discriminate|auto]. Qed.

Lemma pybind_inr {A B : Type} (a : A) (f : A -> Py B) :
  pybind (inr a) f = f a.
Proof. reflexivity. Qed.

(** The test of a size: [item[k] is not None and item[k] < n]. *)
Lemma below_check (item : pydict) (k : string) (n : R) :
  number_or_none item k -> contains k item = true ->
  exists b,
    py_and (v <- getitem item k ;; inr (negb (is_none v)))%py
           (v <- getitem item k ;; py_lt v n)%py = inr b /\
    (b = false <-> none_or (not_below n) item k).
Proof.
  unfold number_or_none, contains, getitem, none_or, py_and.
  destruct (dict_lookup item k) as [v|]; [|discriminate].
  intros Hv _. destruct v as [|x| |neg| | | | | | ]; try contradiction; simpl.
  - exists false. split; [reflexivity|]. split; [|reflexivity].
    intros _. exists PNone. auto.
  - destruct (Rlt_dec x n) as [Hlt|Hge].
    + exists true. rewrite Rltb_true by exact Hlt. split; [reflexivity|].
      split; [discriminate|].
      intros (u & [= <-] & [Hu|Hx]); [discriminate|simpl in Hx; lra].
    + exists false. rewrite Rltb_false by lra. split; [reflexivity|].
      split; [|reflexivity]. intros _. exists (PNum x). split; [reflexivity|].
      right. simpl. lra.
  - exists false. split; [reflexivity|]. split; [|reflexivity].
    intros _. exists PNan. split; [reflexivity|]. right. exact I.
  - exists neg. split; [reflexivity|]. split.
    + intros ->. exists (PInf false). split; [reflexivity|]. now right.
    + intros (u & [= <-] & [Hu|Hx]); [discriminate|exact Hx].
Qed.

(** The test of the score: [item[k] is not None and item[k] > n]. *)
Lemma above_check (item : pydict) (k : string) (n : R) :
  number_or_none item k -> contains k item = true ->
  exists b,
    py_and (v <- getitem item k ;; inr (negb (is_none v)))%py
           (v <- getitem item k ;; py_gt v n)%py = inr b /\
    (b = false <-> none_or (not_above n) item k).
Proof.
  unfold number_or_none, contains, getitem, none_or, py_and.
  destruct (dict_lookup item k) as [v|]; [|discriminate].
  intros Hv _. destruct v as [|x| |neg| | | | | | ]; try contradiction; simpl.
  - exists false. split; [reflexivity|]. split; [|reflexivity].
    intros _. exists PNone. auto.
  - destruct (Rlt_dec n x) as [Hlt|Hge].
    + exists true. rewrite Rltb_true by exact Hlt. split; [reflexivity|].
      split; [discriminate|].
      intros (u & [= <-] & [Hu|Hx]); [discriminate|simpl in Hx; lra].
    + exists false. rewrite Rltb_false by lra. split; [reflexivity|].
      split; [|reflexivity]. intros _. exists (PNum x). split; [reflexivity|].
      right. simpl. lra.
  - exists false. split; [reflexivity|]. split; [|reflexivity].
    intros _. exists PNan. split; [reflexivity|]. right. exact I.
  - exists (negb neg). split; [reflexivity|]. split.
    + intros Hn. exists (PInf neg). split; [reflexivity|]. right. simpl.
      now destruct neg.
    + intros (u & [= <-] & [Hu|Hx]); [discriminate|].
      simpl in Hx. now subst neg.
Qed.

(** The test of an entry: [k not in item or item[k] is None]. *)
Lemma missing_check (item : pydict) (k : string) :
  exists b,
    py_or (inr (negb (contains k item)))
          (v <- getitem item k ;; inr (is_none v))%py = inr b /\
    (b = false <-> given item k).
Proof.
  unfold contains, getitem, given, py_or.
  destruct (dict_lookup item k) as [v|]; simpl.
  - exists (is_none v). split; [reflexivity|]. split.
    + intros Hn. exists v. split; [reflexivity|]. intros ->. discriminate.
    + intros (u & [= <-] & Hu). destruct v; auto. congruence.
  - exists true. split; [reflexivity|]. split; [discriminate|].
    intros (u & Hu & _). discriminate.
Qed.

Lemma caption_keys_given_spec (item : pydict) (caption_keys : list string) :
  exists b,
    caption_keys_given item caption_keys = inr b /\
    (b = true <-> Forall (given item) caption_keys).
Proof.
  induction caption_keys as [|c_k rest (b & Hb & Hiff)];
    cbn [caption_keys_given].
  - exists true. split; [reflexivity|]. split; auto.
  - destruct (missing_check item c_k) as (m & Hm & Hmiff). rewrite Hm.
    rewrite pybind_inr. destruct m.
    + exists false. split; [reflexivity|]. split; [discriminate|].
      intros H. inversion H; subst.
      destruct Hmiff as [_ Hg]. specialize (Hg ltac:(assumption)). discriminate.
    + exists b. split; [exact Hb|]. rewrite Hiff. split.
      * intros H. constructor; [now apply Hmiff|exact H].
      * intros H. now inversion H.
Qed.

(** X18: on an item whose height, width and punsafe entries, when there,
    are numbers or [None], [filter_laion_coco_dataset] never raises, and it
    accepts the item exactly when all of these hold: the height and the
    width are there and are [None] or not below 128, the punsafe score is
    there and is [None] or not above 0.99, and the caption, the image and
    every entry of [caption_keys] are there and are not [None]. An unknown
    size or score passes the filter, and so does a NaN, which is neither
    below 128 nor above 0.99. *)
Theorem filter_laion_coco_accepts (item : pydict)
  (image_key caption_key : string) (caption_keys : list string)
  (punsafe_key height_key width_key : string) :
  number_or_none item height_key -> number_or_none item width_key ->
  number_or_none item punsafe_key ->
  exists b,
    filter_laion_coco_dataset item image_key caption_key caption_keys
      punsafe_key height_key width_key = inr b /\
    (b = true <->
     none_or (not_below 128) item height_key /\
     none_or (not_below 128) item width_key /\
     none_or (not_above (99 / 100)) item punsafe_key /\
     given item caption_key /\ given item image_key /\
     Forall (given item) caption_keys).
Proof.
  intros Hh Hw Hp. unfold filter_laion_coco_dataset.
  assert (Hno : forall P k, contains k item = false -> ~ none_or P item k).
  { intros P k Hc (v & Hv & _). rewrite (contains_false _ _ Hc) in Hv.
    discriminate. }
  destruct (contains height_key item) eqn:Ch; simpl negb; cbv iota;
    [|exists false; split; [reflexivity|]; split; [discriminate|];
      intros (H & _); exfalso; exact (Hno _ _ Ch H)].
  destruct (below_check item height_key (IZR TARGET_SIZE) Hh Ch)
    as (bh & Eh & Ih).
  rewrite Eh. rewrite pybind_inr. unfold TARGET_SIZE in Ih.
  destruct bh;
    [exists false; split; [reflexivity|]; split; [discriminate|];
     intros (H & _); apply Ih in H; discriminate|].
  destruct (contains width_key item) eqn:Cw; simpl negb; cbv iota;
    [|exists false; split; [reflexivity|]; split; [discriminate|];
      intros (_ & H & _); exfalso; exact (Hno _ _ Cw H)].
  destruct (below_check item width_key (IZR TARGET_SIZE) Hw Cw)
    as (bw & Ew & Iw).
  rewrite Ew. rewrite pybind_inr. unfold TARGET_SIZE in Iw.
  destruct bw;
    [exists false; split; [reflexivity|]; split; [discriminate|];
     intros (_ & H & _); apply Iw in H; discriminate|].
  destruct (contains punsafe_key item) eqn:Cp; simpl negb; cbv iota;
    [|exists false; split; [reflexivity|]; split; [discriminate|];
      intros (_ & _ & H & _); exfalso; exact (Hno _ _ Cp H)].
  destruct (above_check item punsafe_key (99 / 100) Hp Cp) as (bp & Ep & Ip).
  rewrite Ep. rewrite pybind_inr.
  destruct bp;
    [exists false; split; [reflexivity|]; split; [discriminate|];
     intros (_ & _ & H & _); apply Ip in H; discriminate|].
  destruct (missing_check item caption_key) as (bc & Ec & Ic).
  rewrite Ec. rewrite pybind_inr.
  destruct bc;
    [exists false; split; [reflexivity|]; split; [discriminate|];
     intros (_ & _ & _ & H & _); apply Ic in H; discriminate|].
  destruct (missing_check item image_key) as (bi & Ei & Ii).
  rewrite Ei. rewrite pybind_inr.
  destruct bi;
    [exists false; split; [reflexivity|]; split; [discriminate|];
     intros (_ & _ & _ & _ & H & _); apply Ii in H; discriminate|].
  destruct (caption_keys_given_spec item caption_keys) as (b & Eb & Ib).
  exists b. split; [exact Eb|]. rewrite Ib. split.
  - intros H. repeat split; auto; [apply Ih|apply Iw|apply Ip|apply Ic|apply Ii];
      reflexivity.
  - intros (_ & _ & _ & _ & _ & H). exact H.
Qed.

Lemma filter_laion_coco_accepts_witness :
  exists b,
    filter_laion_coco_dataset laion_coco_row "URL" "TEXT"
      ["top_caption"; "all_captions"]%string "punsafe" "HEIGHT" "WIDTH"
    = inr b /\
    (b = true <->
     none_or (not_below 128) laion_coco_row "HEIGHT" /\
     none_or (not_below 128) laion_coco_row "WIDTH" /\
     none_or (not_above (99 / 100)) laion_coco_row "punsafe" /\
     given laion_coco_row "TEXT" /\ given laion_coco_row "URL" /\
     Forall (given laion_coco_row) ["top_caption"; "all_captions"]%string).
Proof.
  refine (filter_laion_coco_accepts laion_coco_row "URL" "TEXT"
            ["top_caption"; "all_captions"]%string "punsafe" "HEIGHT" "WIDTH"
            _ _ _); exact I.
Defined.

(** ** filter_laion_a_dataset *)

Lemma number_below_check (md : pydict) (k : string) (n : R) :
  number_if_any md k ->
  (contains k md = false /\ ~ entry (not_below n) md k) \/
  (contains k md = true /\
   exists v b, getitem md k = inr v /\ py_lt v n = inr b /\
               (b = false <-> entry (not_below n) md k)).
Proof.
  unfold number_if_any, contains, getitem, entry.
  destruct (dict_lookup md k) as [v|].
  - intros Hv. right. split; [reflexivity|].
    destruct v as [|x| |neg| | | | | | ]; try contradiction.
    + exists (PNum x), (Rltb x n). split; [reflexivity|].
      split; [reflexivity|]. destruct (Rlt_dec x n) as [Hlt|Hge].
      * rewrite Rltb_true by exact Hlt. split; [discriminate|].
        intros (u & [= <-] & Hx). simpl in Hx. lra.
      * rewrite Rltb_false by lra. split; [|reflexivity].
        intros _. exists (PNum x). split; [reflexivity|simpl; lra].
    + exists PNan, false. split; [reflexivity|]. split; [reflexivity|].
      split; [|reflexivity]. intros _. exists PNan. split; [reflexivity|exact I].
    + exists (PInf neg), neg. split; [reflexivity|]. split; [reflexivity|].
      split.
      * intros ->. exists (PInf false). split; reflexivity.
      * intros (u & [= <-] & Hx). exact Hx.
  - intros _. left. split; [reflexivity|]. intros (x & Hx & _). discriminate.
Qed.

Lemma number_above_check (md : pydict) (k : string) (n : R) :
  number_if_any md k ->
  (contains k md = false /\ ~ entry (not_above n) md k) \/
  (contains k md = true /\
   exists v b, getitem md k = inr v /\ py_gt v n = inr b /\
               (b = false <-> entry (not_above n) md k)).
Proof.
  unfold number_if_any, contains, getitem, entry.
  destruct (dict_lookup md k) as [v|].
  - intros Hv. right. split; [reflexivity|].
    destruct v as [|x| |neg| | | | | | ]; try contradiction.
    + exists (PNum x), (Rltb n x). split; [reflexivity|].
      split; [reflexivity|]. destruct (Rlt_dec n x) as [Hlt|Hge].
      * rewrite Rltb_true by exact Hlt. split; [discriminate|].
        intros (u & [= <-] & Hx). simpl in Hx. lra.
      * rewrite Rltb_false by lra. split; [|reflexivity].
        intros _. exists (PNum x). split; [reflexivity|simpl; lra].
    + exists PNan, false. split; [reflexivity|]. split; [reflexivity|].
      split; [|reflexivity]. intros _. exists PNan. split; [reflexivity|exact I].
    + exists (PInf neg), (negb neg). split; [reflexivity|].
      split; [reflexivity|]. split.
      * intros Hn. exists (PInf neg). split; [reflexivity|]. simpl.
        now destruct neg.
      * intros (u & [= <-] & Hx). simpl in Hx. now subst neg.
  - intros _. left. split; [reflexivity|]. intros (x & Hx & _). discriminate.
Qed.

Lemma filter_laion_a_on_metadata (item md : pydict)
  (punsafe_key height_key width_key : string) :
  dict_lookup item "metadata" = Some (PDict md) ->
  number_if_any md height_key -> number_if_any md width_key ->
  number_if_any md punsafe_key ->
  exists b,
    filter_laion_a_dataset item punsafe_key height_key width_key = inr b /\
    (b = true <->
     entry (not_below 128) md height_key /\
     entry (not_below 128) md width_key /\
     entry (not_above (99 / 100)) md punsafe_key).
Proof.
  intros Hmd Hh Hw Hp. unfold filter_laion_a_dataset, contains, getitem.
  rewrite Hmd. simpl negb. cbv iota. rewrite pybind_inr.
  unfold py_contains, py_getitem. rewrite pybind_inr.
  destruct (number_below_check md height_key (IZR TARGET_SIZE) Hh)
    as [[Ch Nh]|(Ch & x & bh & Gh & Lh & Ih)]; unfold TARGET_SIZE in *;
    rewrite Ch; simpl negb; cbv iota;
    [exists false; split; [reflexivity|]; split; [discriminate|];
     intros (H & _); contradiction|].
  rewrite Gh, pybind_inr, Lh, pybind_inr.
  destruct bh;
    [exists false; split; [reflexivity|]; split; [discriminate|];
     intros (H & _); apply Ih in H; discriminate|].
  rewrite pybind_inr.
  destruct (number_below_check md width_key 128 Hw)
    as [[Cw Nw]|(Cw & y & bw & Gw & Lw & Iw)];
    rewrite Cw; simpl negb; cbv iota;
    [exists false; split; [reflexivity|]; split; [discriminate|];
     intros (_ & H & _); contradiction|].
  rewrite Gw, pybind_inr, Lw, pybind_inr.
  destruct bw;
    [exists false; split; [reflexivity|]; split; [discriminate|];
     intros (_ & H & _); apply Iw in H; discriminate|].
  rewrite pybind_inr.
  destruct (number_above_check md punsafe_key (99 / 100) Hp)
    as [[Cp Np]|(Cp & z & bp & Gp & Lp & Ip)];
    rewrite Cp; simpl negb; cbv iota;
    [exists false; split; [reflexivity|]; split; [discriminate|];
     intros (_ & _ & H); contradiction|].
  rewrite Gp, pybind_inr, Lp, pybind_inr.
  destruct bp;
    [exists false; split; [reflexivity|]; split; [discriminate|];
     intros (_ & _ & H); apply Ip in H; discriminate|].
  exists true. split; [reflexivity|]. split; [|reflexivity].
  intros _. split; [apply Ih|split; [apply Iw|apply Ip]]; reflexivity.
Qed.

(** X19: on an item whose metadata is a dict in which height, width and
    punsafe, when there, are numbers, [filter_laion_a_dataset] never raises,
    and it accepts the item exactly when the three are there, the height and
    the width not below 128 and the punsafe score not above 0.99; a NaN,
    which is neither below 128 nor above 0.99, passes. An item without
    metadata is rejected. *)
Theorem filter_laion_a_accepts (item md : pydict)
  (punsafe_key height_key width_key : string) :
  number_if_any md height_key -> number_if_any md width_key ->
  number_if_any md punsafe_key ->
  (dict_lookup item "metadata" = None ->
   filter_laion_a_dataset item punsafe_key height_key width_key = inr false) /\
  (dict_lookup item "metadata" = Some (PDict md) ->
   exists b,
     filter_laion_a_dataset item punsafe_key height_key width_key = inr b /\
     (b = true <->
      entry (not_below 128) md height_key /\
      entry (not_below 128) md width_key /\
      entry (not_above (99 / 100)) md punsafe_key)).
Proof.
  intros Hh Hw Hp. split.
  - intros Hmd. unfold filter_laion_a_dataset, contains. rewrite Hmd.
    reflexivity.
  - intros Hmd. now apply filter_laion_a_on_metadata.
Qed.

Lemma filter_laion_a_accepts_witness :
  filter_laion_a_dataset [("txt", PStr "a cat")]%string
    "punsafe" "height" "width" = inr false /\
  exists b,
    filter_laion_a_dataset laion_a_sample_nan "punsafe" "height" "width"
    = inr b /\
    (b = true <->
     entry (not_below 128)
       [("height", PNan); ("width", PNum 640);
        ("punsafe", PNum (1 / 10))]%string "height" /\
     entry (not_below 128)
       [("height", PNan); ("width", PNum 640);
        ("punsafe", PNum (1 / 10))]%string "width" /\
     entry (not_above (99 / 100))
       [("height", PNan); ("width", PNum 640);
        ("punsafe", PNum (1 / 10))]%string "punsafe").
Proof.
  split.
  - refine (proj1 (filter_laion_a_accepts [("txt", PStr "a cat")]%string
                     [("height", PNan); ("width", PNum 640);
                      ("punsafe", PNum (1 / 10))]%string
                     "punsafe" "height" "width" _ _ _) eq_refl); exact I.
  - refine (proj2 (filter_laion_a_accepts laion_a_sample_nan
                     [("height", PNan); ("width", PNum 640);
                      ("punsafe", PNum (1 / 10))]%string
                     "punsafe" "height" "width" _ _ _) eq_refl); exact I.
Defined.

(** X20: unlike the filter of LAION-COCO, [filter_laion_a_dataset] does not
    take an unknown size: when the metadata holds [None] as height the
    comparison with 128 raises TypeError, and so it does for a [None] width
    behind a height that passes. *)
Theorem filter_laion_a_none_size (item md : pydict)
  (punsafe_key height_key width_key : string) :
  dict_lookup item "metadata" = Some (PDict md) ->
  dict_lookup md height_key = Some PNone \/
  (number (fun x => 128 <= x)%R md height_key /\
   dict_lookup md width_key = Some PNone) ->
  filter_laion_a_dataset item punsafe_key height_key width_key
  = inl (Raised TypeError).
Proof.
  intros Hmd H. unfold filter_laion_a_dataset, contains, getitem.
  rewrite Hmd. simpl negb. cbv iota. rewrite pybind_inr.
  unfold py_contains, py_getitem, contains, getitem. rewrite pybind_inr.
  destruct H as [Hn|[(x & Hx & Hge) Hn]].
  - rewrite Hn. reflexivity.
  - rewrite Hx. simpl negb. cbv iota. rewrite !pybind_inr.
    unfold TARGET_SIZE. cbn [py_lt]. rewrite Rltb_false by exact Hge.
    rewrite pybind_inr, Hn. reflexivity.
Qed.

Lemma filter_laion_a_none_size_witness :
  filter_laion_a_dataset laion_a_sample_unknown_height
    "punsafe" "height" "width" = inl (Raised TypeError).
Proof.
  refine (filter_laion_a_none_size laion_a_sample_unknown_height
            [("height", PNone); ("width", PNum 640);
             ("punsafe", PNum (1 / 10))]%string
            "punsafe" "height" "width" eq_refl (or_introl eq_refl)).
Defined.

(** ** torch.cat and collate_laion_a *)

Lemma pyfilter_total {A : Type} (f : A -> Py bool) (l : list A) :
  Forall (fun a => exists b, f a = inr b) l ->
  pyfilter f l
  = inr (filter (fun a => match f a with inr true => true | _ => false end) l).
Proof.
  induction 1 as [|a l [b Hb] _ IH]; simpl; [reflexivity|].
  rewrite Hb, IH. simpl. now destruct b.
Qed.

Lemma pymap_total {A B : Type} (f : A -> Py B) (h : A -> B) (l : list A) :
  Forall (fun a => f a = inr (h a)) l -> pymap f l = inr (map h l).
Proof.
  induction 1 as [|a l Ha _ IH]; simpl; [reflexivity|].
  now rewrite Ha, IH.
Qed.

Lemma shape_eqb_refl (a : list Z) : shape_eqb a a = true.
Proof. unfold shape_eqb. destruct (list_eq_dec Z.eq_dec a a); congruence. Qed.

Lemma cat_dim0_same (rest : list Z) (others : list (list Z)) :
  Forall (eq (1%Z :: rest)) others ->
  forall n, cat_dim0 rest n others
            = inr ((n + Z.of_nat (length others))%Z :: rest).
Proof.
  induction 1 as [|s others <- _ IH]; intros n; simpl cat_dim0.
  - simpl. now rewrite Z.add_0_r.
  - rewrite shape_eqb_refl, IH. f_equal. f_equal.
    change (length ((1%Z :: rest) :: others)) with (S (length others)). lia.
Qed.

(** Tensors that have one row each along the first axis and agree on the
    others are joined into one with as many rows as there are tensors. *)
Lemma torch_cat_rows (rest : list Z) (ts : list pyval) :
  Forall (eq (PTensor (1%Z :: rest))) ts -> ts <> [] ->
  torch_cat ts = inr (Z.of_nat (length ts) :: rest).
Proof.
  intros Hts Hne. unfold torch_cat.
  rewrite (pymap_total as_tensor (fun _ => (1%Z :: rest)) ts)
    by (eapply Forall_impl; [|exact Hts]; intros t <-; reflexivity).
  rewrite pybind_inr.
  assert (He : existsb (shape_eqb [0%Z]) (map (fun _ => (1%Z :: rest)) ts)
               = false).
  { clear. induction ts as [|t ts IH]; simpl; [reflexivity|]. rewrite IH.
    unfold shape_eqb. destruct (list_eq_dec Z.eq_dec [0%Z] (1%Z :: rest));
      [discriminate|reflexivity]. }
  rewrite He. destruct ts as [|t ts]; [congruence|]. simpl map.
  cbv beta iota. rewrite cat_dim0_same.
  - rewrite length_map. f_equal. f_equal.
    change (length (t :: ts)) with (S (length ts)). lia.
  - clear. induction ts; simpl; constructor; auto.
Qed.

Lemma torch_cat_nothing : torch_cat [] = inl (Raised RuntimeError).
Proof. reflexivity. Qed.

(** X21: [collate_laion_a] keeps the items that [filter_laion_a_dataset]
    accepts, in the order of the batch. When the filter raises on no item
    and each accepted item carries a tensor of shape (1, 3, 128, 128) and a
    caption, the result is a tensor of shape (k, 3, 128, 128) with the k
    captions of the accepted items; when no item is accepted, [torch.cat]
    of an empty list raises RuntimeError. *)
Theorem collate_laion_a_batch (batch : list pydict) :
  Forall (fun i => exists b,
            filter_laion_a_dataset i "punsafe" "height" "width" = inr b)
    batch ->
  Forall (fun i => accepted_a i = true ->
                   dict_lookup i "jpg" = Some (PTensor [1; 3; 128; 128]%Z) /\
                   exists t, dict_lookup i "txt" = Some t) batch ->
  let kept := filter accepted_a batch in
  (kept <> [] ->
   collate_laion_a batch
   = inr ([Z.of_nat (length kept); 3; 128; 128]%Z,
          map (fun i => dict_get i "txt" PNone) kept)) /\
  (kept = [] -> collate_laion_a batch = inl (Raised RuntimeError)).
Proof.
  intros Hf Hitems kept. unfold collate_laion_a.
  assert (E : pyfilter
                (fun item =>
                   filter_laion_a_dataset item "punsafe" "height" "width")
                batch = inr kept)
    by (rewrite (pyfilter_total _ batch Hf); reflexivity).
  rewrite E, pybind_inr.
  assert (Hk : Forall (fun i =>
                 dict_lookup i "jpg" = Some (PTensor [1; 3; 128; 128]%Z) /\
                 exists t, dict_lookup i "txt" = Some t) kept).
  { apply Forall_forall. intros i Hi. apply filter_In in Hi.
    destruct Hi as [Hi Ha]. rewrite Forall_forall in Hitems. auto. }
  rewrite (pymap_total (fun i => getitem i "jpg")
             (fun _ => PTensor [1; 3; 128; 128]%Z) kept)
    by (eapply Forall_impl; [|exact Hk]; intros i [Hj _];
        unfold getitem; now rewrite Hj).
  rewrite pybind_inr. split.
  - intros Hne. rewrite (torch_cat_rows [3; 128; 128]%Z).
    + rewrite pybind_inr, length_map.
      rewrite (pymap_total (fun i => getitem i "txt")
                 (fun i => dict_get i "txt" PNone) kept); [reflexivity|].
      eapply Forall_impl; [|exact Hk]. intros i [_ [t Ht]].
      unfold getitem, dict_get. now rewrite Ht.
    + apply Forall_map. apply Forall_forall. intros; reflexivity.
    + destruct kept; [congruence|discriminate].
  - intros ->. reflexivity.
Qed.

Lemma collate_laion_a_batch_witness :
  let kept := filter accepted_a [laion_a_sample; laion_a_sample_narrow] in
  (kept <> [] ->
   collate_laion_a [laion_a_sample; laion_a_sample_narrow]
   = inr ([Z.of_nat (length kept); 3; 128; 128]%Z,
          map (fun i => dict_get i "txt" PNone) kept)) /\
  (kept = [] ->
   collate_laion_a [laion_a_sample; laion_a_sample_narrow]
   = inl (Raised RuntimeError)).
Proof.
  refine (collate_laion_a_batch [laion_a_sample; laion_a_sample_narrow] _ _).
  - apply Forall_cons; [|apply Forall_cons; [|apply Forall_nil]].
    + destruct (filter_laion_a_on_metadata laion_a_sample
                  [("height", PNum 512); ("width", PNum 640);
                   ("punsafe", PNum (1 / 10))]%string
                  "punsafe" "height" "width" eq_refl I I I) as (b & Hb & _).
      exists b. exact Hb.
    + destruct (filter_laion_a_on_metadata laion_a_sample_narrow
                  [("height", PNum 512); ("width", PNum 100);
                   ("punsafe", PNum (1 / 10))]%string
                  "punsafe" "height" "width" eq_refl I I I) as (b & Hb & _).
      exists b. exact Hb.
  - apply Forall_cons; [|apply Forall_cons; [|apply Forall_nil]];
      intros _; (split; [reflexivity|eexists; reflexivity]).
Defined.

(** ** collate_oldbookillustrations_2 *)

Lemma pymbind_ok {A B : Type} {m : PyM A} (f : A -> PyM B) {g g1 : Rng} {a : A} :
  m g = inr (a, g1) -> pymbind m f g = f a g1.
Proof. intros H. unfold pymbind. now rewrite H. Qed.

Lemma pylift_ok {A : Type} (r : Py A) (a : A) (g : Rng) :
  r = inr a -> pylift r g = inr (a, g).
Proof. intros ->. reflexivity. Qed.

(** The images of a batch go through the transform one after the other,
    each drawing two numbers. *)
Lemma transform_batch (batch : list pydict) :
  Forall (fun i => exists w h,
            dict_lookup i "1600px" = Some (PImage (w, h)) /\
            (0 < w)%Z /\ (0 < h)%Z) batch ->
  forall g,
    pymapM (fun i => v <- pylift (getitem i "1600px") ;;
                     img <- pylift (as_image v) ;;
                     t <- transforms img ;;
                     pyret (PTensor t))%pym batch g
    = inr (map (fun _ => PTensor [1; 3; 128; 128]%Z) batch,
           mkRng (tape g) (cursor g + 2 * length batch)).
Proof.
  induction 1 as [|i batch (w & h & Hi & Hw & Hh) _ IH]; intros g.
  - simpl. unfold pyret. destruct g as [t c]. simpl.
    now rewrite Nat.add_0_r.
  - cbn [pymapM].
    assert (E : (v <- pylift (getitem i "1600px") ;;
                 img <- pylift (as_image v) ;;
                 t <- transforms img ;;
                 pyret (PTensor t))%pym g
                = inr (PTensor [1; 3; 128; 128]%Z,
                       mkRng (tape g) (S (S (cursor g))))).
    { assert (G1 : getitem i "1600px" = inr (PImage (w, h)))
        by (unfold getitem; now rewrite Hi).
      rewrite (pymbind_ok _ (pylift_ok _ _ g G1)).
      rewrite (pymbind_ok _ (pylift_ok (as_image (PImage (w, h))) (w, h) g
                               eq_refl)).
      rewrite (pymbind_ok _ (transforms_ok w h g Hw Hh)). reflexivity. }
    rewrite (pymbind_ok _ E), (pymbind_ok _ (IH _)). unfold pyret.
    simpl tape. simpl cursor. simpl map. simpl length.
    do 3 f_equal. lia.
Qed.

Lemma caption_choice (i : pydict) :
  (if negb (is_none (dict_get i "image_alt" PNone))
   then getitem i "image_alt"
   else inr (dict_get i "image_caption" (PStr "")))
  = inr (caption_of i).
Proof.
  unfold caption_of, getitem. unfold dict_get at 1.
  destruct (dict_lookup i "image_alt") as [v|]; [|reflexivity].
  now destruct v.
Qed.

(** X22: on a batch of items that each hold an image with pixels under
    '1600px', [collate_oldbookillustrations_2] returns a tensor of shape
    (n, 3, 128, 128) and n captions, n the size of the batch; the caption of
    an item is its 'image_alt' unless that is missing or [None], then its
    'image_caption', then the empty string; two random numbers are drawn per
    item. On an empty batch [torch.cat] raises RuntimeError. *)
Theorem collate_oldbook_batch (batch : list pydict) (g : Rng) :
  Forall (fun i => exists w h,
            dict_lookup i "1600px" = Some (PImage (w, h)) /\
            (0 < w)%Z /\ (0 < h)%Z) batch ->
  (batch <> [] ->
   collate_oldbookillustrations_2 batch g
   = inr (([Z.of_nat (length batch); 3; 128; 128]%Z, map caption_of batch),
          mkRng (tape g) (cursor g + 2 * length batch))) /\
  (batch = [] ->
   collate_oldbookillustrations_2 batch g = inl (Raised RuntimeError)).
Proof.
  intros Hb. unfold collate_oldbookillustrations_2.
  rewrite (pymbind_ok _ (transform_batch batch Hb g)). split.
  - intros Hne.
    assert (Hcat : torch_cat (map (fun _ => PTensor [1; 3; 128; 128]%Z) batch)
                   = inr [Z.of_nat (length batch); 3; 128; 128]%Z).
    { rewrite (torch_cat_rows [3; 128; 128]%Z).
      - now rewrite length_map.
      - apply Forall_map. apply Forall_forall. intros; reflexivity.
      - destruct batch; [congruence|discriminate]. }
    rewrite (pymbind_ok _ (pylift_ok _ _ _ Hcat)).
    assert (Hcap : pymap (fun i =>
                     if negb (is_none (dict_get i "image_alt" PNone))
                     then getitem i "image_alt"
                     else inr (dict_get i "image_caption" (PStr "")))
                     batch = inr (map caption_of batch)).
    { apply pymap_total. apply Forall_forall. intros i _.
      apply caption_choice. }
    rewrite (pymbind_ok _ (pylift_ok _ _ _ Hcap)).
    reflexivity.
  - intros ->. reflexivity.
Qed.

Lemma collate_oldbook_batch_witness :
  (oldbook_batch <> [] ->
   collate_oldbookillustrations_2 oldbook_batch (mkRng (fun _ => 7%Z) 0)
   = inr (([Z.of_nat (length oldbook_batch); 3; 128; 128]%Z,
           map caption_of oldbook_batch),
          mkRng (tape (mkRng (fun _ => 7%Z) 0))
            (cursor (mkRng (fun _ => 7%Z) 0) + 2 * length oldbook_batch))) /\
  (oldbook_batch = [] ->
   collate_oldbookillustrations_2 oldbook_batch (mkRng (fun _ => 7%Z) 0)
   = inl (Raised RuntimeError)).
Proof.
  refine (collate_oldbook_batch oldbook_batch (mkRng (fun _ => 7%Z) 0) _).
  apply Forall_cons; [|apply Forall_cons; [|apply Forall_nil]].
  - exists 1600%Z, 1200%Z. split; [reflexivity|lia].
  - exists 900%Z, 1600%Z. split; [reflexivity|lia].
Defined.

(** ** ProcessDataLaionCoco and ProcessDataLaionA *)

Lemma pymbind_raise {A B : Type} (m : PyM A) (f : A -> PyM B) (g : Rng)
  (e : pyexn) :
  m g = inl e -> pymbind m f g = inl e.
Proof. intros H. unfold pymbind. now rewrite H. Qed.

Lemma getitem_ok (d : pydict) (k : string) (v : pyval) :
  dict_lookup d k = Some v -> getitem d k = inr v.
Proof. intros H. unfold getitem. now rewrite H. Qed.

Ltac pym_step :=
  match goal with
  | |- exists e, pymbind ?m ?f ?g = inl e =>
      let H := fresh "H" in
      let e0 := fresh "e" in
      let a := fresh "a" in
      let g1 := fresh "g" in
      destruct (m g) as [e0|[a g1]] eqn:H;
      [exists e0; apply pymbind_raise; exact H|rewrite (pymbind_ok f H)]
  end.

(** X23: [ProcessDataLaionCoco.__call__] reads [caption_keys[1]] and
    [caption_keys[2]]. With fewer than three caption keys, and its default
    has two, it never returns: every call ends in an exception, and on an
    item that has the image, the key and the captions the exception is the
    IndexError of [caption_keys[2]]. *)
Theorem laion_coco_call_never_returns
  (image_open : string -> Py image) (decode_utf8 : string -> Py string)
  (item : pydict) (image_key caption_key : string)
  (caption_keys : list string) (g : Rng) :
  (length caption_keys < 3)%nat ->
  (exists e,
     ProcessDataLaionCoco_call image_open decode_utf8 item image_key
       caption_key caption_keys g = inl e) /\
  (forall data w h key txt k1 top,
     dict_lookup item image_key = Some (PBytes data) ->
     image_open data = inr (w, h) -> (0 < w)%Z -> (0 < h)%Z ->
     dict_lookup item "__key__" = Some key ->
     dict_lookup item caption_key = Some txt ->
     nth_error caption_keys 1 = Some k1 ->
     dict_lookup item k1 = Some top ->
     ProcessDataLaionCoco_call image_open decode_utf8 item image_key
       caption_key caption_keys g = inl (Raised IndexError)).
Proof.
  intros Hlen.
  assert (Hk2 : list_index caption_keys 2 = inl (Raised IndexError)).
  { unfold list_index.
    now rewrite (proj2 (nth_error_None caption_keys 2) ltac:(lia)). }
  split.
  - unfold ProcessDataLaionCoco_call.
    do 8 pym_step.
    exists (Raised IndexError). apply pymbind_raise. rewrite Hk2. reflexivity.
  - intros data w h key txt k1 top Himg Hopen Hw Hh Hkey Htxt Hk1 Htop.
    unfold ProcessDataLaionCoco_call.
    rewrite (pymbind_ok _ (pylift_ok _ _ g (getitem_ok _ _ _ Himg))).
    rewrite (pymbind_ok _ (pylift_ok _ _ g (getitem_ok _ _ _ Hkey))).
    rewrite (pymbind_ok _ (pylift_ok _ _ g (getitem_ok _ _ _ Himg))).
    rewrite (pymbind_ok _ (pylift_ok (open_image image_open (PBytes data))
                             _ g Hopen)).
    rewrite (pymbind_ok _ (transforms_ok w h g Hw Hh)).
    rewrite (pymbind_ok _ (pylift_ok _ _ _ (getitem_ok _ _ _ Htxt))).
    assert (Hl1 : list_index caption_keys 1 = inr k1)
      by (unfold list_index; now rewrite Hk1).
    rewrite (pymbind_ok _ (pylift_ok _ _ _ Hl1)).
    rewrite (pymbind_ok _ (pylift_ok _ _ _ (getitem_ok _ _ _ Htop))).
    apply pymbind_raise. rewrite Hk2. reflexivity.
Qed.

Lemma laion_coco_call_never_returns_witness :
  ProcessDataLaionCoco_call open_vga decode_ascii shard_sample "jpg" "txt"
    ["top_caption"; "all_captions"]%string (mkRng (fun _ => 7%Z) 0)
  = inl (Raised IndexError).
Proof.
  refine (proj2 (laion_coco_call_never_returns open_vga decode_ascii
                   shard_sample "jpg" "txt"
                   ["top_caption"; "all_captions"]%string
                   (mkRng (fun _ => 7%Z) 0) _)
            "<jpeg>"%string 640%Z 480%Z (PStr "000001") (PBytes "a cat")
            "all_captions"%string
            (PList [PBytes "a cat"; PBytes "a pet"])
            eq_refl eq_refl _ _ eq_refl eq_refl eq_refl eq_refl).
  - simpl. lia.
  - lia.
  - lia.
Defined.

(** X24: on an item whose image bytes open to an image with pixels, whose
    caption and metadata bytes decode and whose metadata parses,
    [ProcessDataLaionA.__call__] returns a list of one sample: the key of
    the item (or [None]), a tensor of shape (1, 3, 128, 128), the decoded
    caption and the parsed metadata, in that order; two random numbers are
    drawn. *)
Theorem laion_a_call_output
  (image_open : string -> Py image) (decode_utf8 : string -> Py string)
  (json_loads : string -> Py pyval)
  (item : pydict) (image_key caption_key : string) (g : Rng)
  (data text json : string) (w h : Z) (caption document : string)
  (metadata : pyval) :
  dict_lookup item image_key = Some (PBytes data) ->
  image_open data = inr (w, h) -> (0 < w)%Z -> (0 < h)%Z ->
  dict_lookup item caption_key = Some (PBytes text) ->
  decode_utf8 text = inr caption ->
  dict_lookup item "json" = Some (PBytes json) ->
  decode_utf8 json = inr document ->
  json_loads document = inr metadata ->
  ProcessDataLaionA_call image_open decode_utf8 json_loads item image_key
    caption_key g
  = inr ([[("image_filename", dict_get item "__key__" PNone);
           ("jpg", PTensor [1; 3; 128; 128]%Z);
           ("txt", PStr caption); ("metadata", metadata)]%string],
         mkRng (tape g) (S (S (cursor g)))).
Proof.
  intros Himg Hopen Hw Hh Htxt Hcap Hjson Hdoc Hmeta.
  unfold ProcessDataLaionA_call.
  rewrite (pymbind_ok _ (pylift_ok _ _ g (getitem_ok _ _ _ Himg))).
  cbv zeta.
  rewrite (pymbind_ok _ (pylift_ok _ _ g (getitem_ok _ _ _ Himg))).
  rewrite (pymbind_ok _ (pylift_ok (open_image image_open (PBytes data))
                           _ g Hopen)).
  rewrite (pymbind_ok _ (transforms_ok w h g Hw Hh)).
  rewrite (pymbind_ok _ (pylift_ok _ _ _ (getitem_ok _ _ _ Htxt))).
  rewrite (pymbind_ok _ (pylift_ok (decode decode_utf8 (PBytes text))
                           _ _ Hcap)).
  rewrite (pymbind_ok _ (pylift_ok _ _ _ (getitem_ok _ _ _ Hjson))).
  rewrite (pymbind_ok _ (pylift_ok (decode decode_utf8 (PBytes json))
                           _ _ Hdoc)).
  rewrite (pymbind_ok _ (pylift_ok _ _ _ Hmeta)).
  reflexivity.
Qed.

Lemma laion_a_call_output_witness :
  ProcessDataLaionA_call open_vga decode_ascii parse_empty shard_sample
    "jpg" "txt" (mkRng (fun _ => 7%Z) 0)
  = inr ([[("image_filename", dict_get shard_sample "__key__" PNone);
           ("jpg", PTensor [1; 3; 128; 128]%Z);
           ("txt", PStr "a cat"); ("metadata", PDict [])]%string],
         mkRng (tape (mkRng (fun _ => 7%Z) 0))
           (S (S (cursor (mkRng (fun _ => 7%Z) 0))))).
Proof.
  refine (laion_a_call_output open_vga decode_ascii parse_empty shard_sample
            "jpg" "txt" (mkRng (fun _ => 7%Z) 0)
            "<jpeg>"%string "a cat"%string "{}"%string 640%Z 480%Z
            "a cat"%string "{}"%string (PDict [])
            eq_refl eq_refl _ _ eq_refl eq_refl eq_refl eq_refl eq_refl); lia.
Defined.

(** ** The layers of DenoiseUNet *)

Lemma pymap_inv {A B : Type} (f : A -> Py B) (l : list A) (bs : list B) :
  pymap f l = inr bs -> Forall2 (fun a b => f a = inr b) l bs.
Proof.
  revert bs. induction l as [|a l IH]; intros bs; simpl.
  - intros [= <-]. constructor.
  - destruct (f a) as [e|b] eqn:Hb; [discriminate|]. simpl.
    destruct (pymap f l) as [e|bs'] eqn:Hbs; [discriminate|]. simpl.
    intros [= <-]. constructor; auto.
Qed.

Lemma pymap_all {A B : Type} (f : A -> Py B) (l : list A) :
  Forall (fun a => exists b, f a = inr b) l -> exists bs, pymap f l = inr bs.
Proof.
  induction 1 as [|a l [b Hb] _ [bs Hbs]]; simpl; [eauto|].
  rewrite Hb, Hbs. simpl. eauto.
Qed.

Lemma pymap_ext {A B : Type} (f f' : A -> Py B) (l : list A) :
  Forall (fun a => f a = f' a) l -> pymap f l = pymap f' l.
Proof.
  induction 1 as [|a l Ha _ IH]; simpl; [reflexivity|]. now rewrite Ha, IH.
Qed.

Lemma c_levels_length (c_hidden : Z) (n : nat) :
  length (UNet.c_levels_of c_hidden n) = n.
Proof.
  unfold UNet.c_levels_of. now rewrite length_map, length_rev, length_seq.
Qed.

Lemma nth_error_rev_seq (n k : nat) :
  (k < n)%nat -> nth_error (rev (seq 0 n)) k = Some (n - 1 - k)%nat.
Proof.
  intros Hk. rewrite nth_error_rev, length_seq.
  destruct (Nat.ltb_spec k n) as [_|]; [|lia].
  replace (n - S k)%nat with (n - 1 - k)%nat by lia.
  apply nth_error_seq0. lia.
Qed.

(** Entry [k] of the levels of the down path: the channel counts double
    from level to level and end at [c_hidden]. *)
Lemma c_levels_lookup (c_hidden : Z) (n k : nat) :
  (k < n)%nat ->
  list_index (UNet.c_levels_of c_hidden n) k
  = inr (c_hidden / 2 ^ Z.of_nat (n - 1 - k))%Z.
Proof.
  intros Hk. unfold list_index, UNet.c_levels_of.
  now rewrite nth_error_map, nth_error_rev_seq.
Qed.

(** Entry [k] of the levels of the up path. *)
Lemma c_levels_up_lookup (c_hidden : Z) (n k : nat) :
  (k < n)%nat ->
  list_index (rev (UNet.c_levels_of c_hidden n)) k
  = inr (c_hidden / 2 ^ Z.of_nat k)%Z.
Proof.
  intros Hk. unfold list_index, UNet.c_levels_of.
  rewrite <- map_rev, rev_involutive, nth_error_map, nth_error_seq0 by exact Hk.
  reflexivity.
Qed.

Lemma enumerate_lookup {A : Type} (l : list A) (i : nat) (a : A) :
  In (i, a) (UNet.enumerate l) -> (i < length l)%nat /\ nth_error l i = Some a.
Proof.
  unfold UNet.enumerate. intros H.
  assert (G : forall s, In (i, a) (combine (seq s (length l)) l) ->
                        (s <= i < s + length l)%nat /\
                        nth_error l (i - s) = Some a).
  { clear H. induction l as [|b l IH]; intros s; simpl; [tauto|].
    intros [[= <- <-]|H].
    - split; [lia|]. now rewrite Nat.sub_diag.
    - destruct (IH _ H) as [Hr Hn]. split; [lia|].
      replace (i - s)%nat with (S (i - S s)) by lia. exact Hn. }
  destruct (G 0%nat H) as [Hr Hn]. rewrite Nat.sub_0_r in Hn. split; [lia|auto].
Qed.

Lemma enumerate_length {A : Type} (l : list A) :
  length (UNet.enumerate l) = length l.
Proof.
  unfold UNet.enumerate. rewrite length_combine, length_seq. lia.
Qed.

Lemma enumerate_nth {A : Type} (l : list A) (i : nat) (a : A) :
  nth_error l i = Some a -> nth_error (UNet.enumerate l) i = Some (i, a).
Proof.
  unfold UNet.enumerate. intros H.
  assert (G : forall s, nth_error (combine (seq s (length l)) l) i
                        = Some ((s + i)%nat, a)).
  { revert i H. induction l as [|b l IH]; intros [|i] H s; simpl in *;
      try discriminate.
    - inversion H. now rewrite Nat.add_0_r.
    - rewrite (IH _ H). do 2 f_equal. lia. }
  apply (G 0%nat).
Qed.

Lemma for_range_value (num_blocks : Z) (body : nat -> Py (list UNet.layer))
  (h : nat -> list UNet.layer) :
  (forall j, (j < Z.to_nat num_blocks)%nat -> body j = inr (h j)) ->
  UNet.for_range num_blocks body
  = inr (concat (map h (seq 0 (Z.to_nat num_blocks)))).
Proof.
  intros H. unfold UNet.for_range.
  rewrite (pymap_total body h); [reflexivity|].
  apply Forall_forall. intros j Hj. apply in_seq in Hj. apply H. lia.
Qed.

Lemma for_range_none (num_blocks : Z) (body : nat -> Py (list UNet.layer)) :
  (num_blocks <= 0)%Z -> UNet.for_range num_blocks body = inr [].
Proof.
  intros H. unfold UNet.for_range.
  replace (Z.to_nat num_blocks) with 0%nat by lia. reflexivity.
Qed.

Lemma for_range_raises (num_blocks : Z) (body : nat -> Py (list UNet.layer))
  (e : pyexn) :
  (0 < num_blocks)%Z -> body 0%nat = inl e ->
  UNet.for_range num_blocks body = inl e.
Proof.
  intros H Hb. unfold UNet.for_range.
  destruct (Z.to_nat num_blocks) as [|k] eqn:Hk; [lia|]. simpl.
  now rewrite Hb.
Qed.

Lemma weight_scale_ok (total : Z) :
  total <> 0%Z -> UNet.weight_scale total = inr total.
Proof.
  intros H. unfold UNet.weight_scale.
  destruct (Z.eqb_spec total 0); [contradiction|reflexivity].
Qed.

Lemma sum_rev (l : list Z) : UNet.sum (rev l) = UNet.sum l.
Proof.
  unfold UNet.sum. induction l as [|a l IH]; simpl; [reflexivity|].
  rewrite fold_right_app. simpl. rewrite <- IH.
  generalize (rev l). intros r. induction r as [|b r IHr]; simpl; lia.
Qed.

Lemma sum_pos (l : list Z) (k : Z) :
  Forall (fun v => 0 <= v)%Z l -> In k l -> (0 < k)%Z -> (0 < UNet.sum l)%Z.
Proof.
  unfold UNet.sum. induction 1 as [|a l Ha Hl IH]; simpl; [tauto|].
  assert (0 <= fold_right Z.add 0 l)%Z
    by (clear IH; induction Hl; simpl; lia).
  intros [->|Hin] Hk; [lia|]. specialize (IH Hin Hk). lia.
Qed.

Lemma c_levels_nonneg (c_hidden : Z) (n : nat) :
  (0 <= c_hidden)%Z ->
  Forall (fun v => 0 <= v)%Z (UNet.c_levels_of c_hidden n).
Proof.
  intros Hc. unfold UNet.c_levels_of. apply Forall_map.
  apply Forall_forall. intros i _. apply Z.div_pos; [exact Hc|].
  apply Z.pow_pos_nonneg; lia.
Qed.

Lemma c_levels_up_sum_pos (c_hidden : Z) (m : nat) :
  (0 < c_hidden)%Z -> (0 < m)%nat ->
  (0 < UNet.sum (rev (UNet.c_levels_of c_hidden m)))%Z.
Proof.
  intros Hc Hm. rewrite sum_rev.
  apply sum_pos with (k := c_hidden).
  - apply c_levels_nonneg. lia.
  - unfold UNet.c_levels_of. apply in_map_iff. exists 0%nat. split.
    + simpl. now rewrite Z.div_1_r.
    + apply in_rev. rewrite rev_involutive. apply in_seq. lia.
  - exact Hc.
Qed.

Lemma map_const_seq {A : Type} (u : A) (k : nat) :
  forall s, map (fun _ => u) (seq s k) = repeat u k.
Proof. induction k as [|k IH]; intros s; simpl; [reflexivity|]. now rewrite IH. Qed.

(** The blocks of a down level: the strided convolution from the level
    before, when there is one, then one unit per block, which is a
    [ResBlock], at level 1 followed by a transformer and a [ResBlock]. *)
Lemma down_level_value (a : UNet.args) (dim_head : Z) (i : nat)
  (num_blocks : Z) :
  let n := length (UNet.down_levels a) in
  let c_i := (UNet.c_hidden a / 2 ^ Z.of_nat (n - 1 - i))%Z in
  let c_cond := (UNet.c_clip a + UNet.c_r a)%Z in
  let total := UNet.sum (UNet.down_levels a) in
  (i < n)%nat -> (0 < num_blocks -> total <> 0)%Z ->
  UNet.down_level a dim_head (UNet.c_levels_of (UNet.c_hidden a) n) i
    num_blocks
  = inr ((if (0 <? i)%nat
          then [UNet.Conv2d (UNet.c_hidden a / 2 ^ Z.of_nat (n - i)) c_i 4 2 1]
          else [])
         ++ concat (repeat
                      (if (i =? 1)%nat
                       then [UNet.ResBlock c_i (c_i * 4) c_cond 0 total;
                             UNet.transformer a dim_head;
                             UNet.ResBlock c_i c_i c_cond 0 total]
                       else [UNet.ResBlock c_i (c_i * 4) c_cond 0 total])
                      (Z.to_nat num_blocks))).
Proof.
  intros n c_i c_cond total Hi Htot. unfold UNet.down_level.
  assert (Hc : list_index (UNet.c_levels_of (UNet.c_hidden a) n) i = inr c_i)
    by (now apply c_levels_lookup).
  assert (Hconv :
    (if (0 <? i)%nat
     then (c_prev <- list_index (UNet.c_levels_of (UNet.c_hidden a) n) (i - 1) ;;
           c_i <- list_index (UNet.c_levels_of (UNet.c_hidden a) n) i ;;
           inr [UNet.Conv2d c_prev c_i 4 2 1])%py
     else inr [])
    = inr (if (0 <? i)%nat
           then [UNet.Conv2d (UNet.c_hidden a / 2 ^ Z.of_nat (n - i)) c_i 4 2 1]
           else [])).
  { destruct (Nat.ltb_spec 0 i) as [Hpos|]; [|reflexivity].
    rewrite c_levels_lookup by lia. rewrite pybind_inr, Hc, pybind_inr.
    replace (n - 1 - (i - 1))%nat with (n - i)%nat by lia. reflexivity. }
  rewrite Hconv, pybind_inr.
  destruct (Z.le_gt_cases num_blocks 0) as [Hk|Hk].
  - rewrite for_range_none by exact Hk.
    replace (Z.to_nat num_blocks) with 0%nat by lia. reflexivity.
  - specialize (Htot ltac:(lia)).
    rewrite (for_range_value num_blocks _
               (fun _ => if (i =? 1)%nat
                         then [UNet.ResBlock c_i (c_i * 4) c_cond 0 total;
                               UNet.transformer a dim_head;
                               UNet.ResBlock c_i c_i c_cond 0 total]
                         else [UNet.ResBlock c_i (c_i * 4) c_cond 0 total])).
    + rewrite pybind_inr, map_const_seq. reflexivity.
    + intros j _. unfold UNet.down_iteration.
      rewrite Hc, pybind_inr. fold total.
      rewrite (weight_scale_ok total Htot), pybind_inr.
      destruct (i =? 1)%nat; [|reflexivity].
      rewrite !pybind_inr. reflexivity.
Qed.

(** The blocks of an up level. The last level has none; a level before it
    has one unit per block, a [ResBlock] that at the level before the last
    is followed by a transformer and a [ResBlock], and then the transposed
    convolution to the next level. Only the first block of a level after
    the first is built with a skip input. *)
Lemma up_level_value (a : UNet.args) (dim_head : Z) (i : nat)
  (num_blocks : Z) :
  let m := length (UNet.up_levels a) in
  let c_i := (UNet.c_hidden a / 2 ^ Z.of_nat i)%Z in
  let c_cond := (UNet.c_clip a + UNet.c_r a)%Z in
  let total := UNet.sum (rev (UNet.c_levels_of (UNet.c_hidden a) m)) in
  (i < m)%nat -> ((0 < num_blocks)%Z -> (S i < m)%nat -> total <> 0%Z) ->
  UNet.up_level a dim_head (rev (UNet.c_levels_of (UNet.c_hidden a) m)) i
    num_blocks
  = inr (if (S i <? m)%nat
         then concat
                (map (fun j =>
                        UNet.ResBlock c_i (c_i * 4) c_cond
                          (if (j =? 0)%nat && (0 <? i)%nat then c_i else 0%Z)
                          total
                        :: (if (S (S i) =? m)%nat
                            then [UNet.transformer a dim_head;
                                  UNet.ResBlock c_i c_i c_cond 0 total]
                            else []))
                   (seq 0 (Z.to_nat num_blocks)))
              ++ [UNet.ConvTranspose2d c_i
                    (UNet.c_hidden a / 2 ^ Z.of_nat (i + 1)) 4 2 1]
         else []).
Proof.
  intros m c_i c_cond total Hi Htot. unfold UNet.up_level.
  rewrite length_rev, c_levels_length. fold m.
  destruct (Nat.ltb_spec (S i) m) as [Hlt|Hge].
  - destruct (Z.ltb_spec (Z.of_nat i) (Z.of_nat m - 1)) as [_|]; [|lia].
    destruct (Z.eqb_spec (Z.of_nat i) (Z.of_nat m - 1)) as [|_]; [lia|].
    simpl negb. cbv iota.
    assert (Hc : list_index (rev (UNet.c_levels_of (UNet.c_hidden a) m)) i
                 = inr c_i) by (now apply c_levels_up_lookup).
    assert (Hblocks :
      UNet.for_range num_blocks
        (UNet.up_iteration a dim_head
           (rev (UNet.c_levels_of (UNet.c_hidden a) m)) i)
      = inr (concat
               (map (fun j =>
                       UNet.ResBlock c_i (c_i * 4) c_cond
                         (if (j =? 0)%nat && (0 <? i)%nat then c_i else 0%Z)
                         total
                       :: (if (S (S i) =? m)%nat
                           then [UNet.transformer a dim_head;
                                 UNet.ResBlock c_i c_i c_cond 0 total]
                           else []))
                  (seq 0 (Z.to_nat num_blocks))))).
    { destruct (Z.le_gt_cases num_blocks 0) as [Hk|Hk].
      - rewrite for_range_none by exact Hk.
        replace (Z.to_nat num_blocks) with 0%nat by lia. reflexivity.
      - specialize (Htot ltac:(lia) Hlt).
        apply for_range_value. intros j _. unfold UNet.up_iteration.
        rewrite Hc, pybind_inr. fold total.
        rewrite (weight_scale_ok total Htot), pybind_inr.
        rewrite length_rev, c_levels_length. fold m.
        destruct (Z.eqb_spec (Z.of_nat i) (Z.of_nat m - 2)) as [E|E];
          destruct (Nat.eqb_spec (S (S i)) m) as [E'|E']; try lia.
        + rewrite pybind_inr. reflexivity.
        + reflexivity. }
    rewrite Hblocks, pybind_inr, Hc, pybind_inr.
    rewrite c_levels_up_lookup by lia. rewrite pybind_inr. reflexivity.
  - destruct (Z.ltb_spec (Z.of_nat i) (Z.of_nat m - 1)) as [|_]; [lia|].
    destruct (Z.eqb_spec (Z.of_nat i) (Z.of_nat m - 1)) as [_|]; [|lia].
    reflexivity.
Qed.

Lemma list_index_empty {A : Type} (i : nat) :
  @list_index A [] i = inl (Raised IndexError).
Proof. unfold list_index. now destruct i. Qed.

(** The layers of a network that [__init__] returns. *)
Lemma init_value (a : UNet.args) :
  let n := length (UNet.down_levels a) in
  let m := length (UNet.up_levels a) in
  UNet.down_levels a <> [] -> UNet.num_heads a <> 0%Z ->
  Forall (fun k => 0 <= k)%Z (UNet.down_levels a) ->
  (0 < UNet.c_hidden a)%Z ->
  exists down up,
    UNet.__init__ a
    = inr (UNet.mkNet
             (UNet.Embedding (UNet.num_labels a)
                (UNet.c_hidden a / 2 ^ Z.of_nat (n - 1)))
             down up
             (UNet.Conv2d (UNet.c_hidden a / 2 ^ Z.of_nat (n - 1))
                (UNet.num_labels a) 1 1 0)) /\
    Forall2 (fun p blocks =>
               UNet.down_level a (UNet.model_channels a / UNet.num_heads a)
                 (UNet.c_levels_of (UNet.c_hidden a) n) (fst p) (snd p)
               = inr blocks)
      (UNet.enumerate (UNet.down_levels a)) down /\
    Forall2 (fun p blocks =>
               UNet.up_level a (UNet.model_channels a / UNet.num_heads a)
                 (rev (UNet.c_levels_of (UNet.c_hidden a) m)) (fst p) (snd p)
               = inr blocks)
      (UNet.enumerate (UNet.up_levels a)) up.
Proof.
  intros n m Hne Hh Hpos Hc.
  assert (Hn : (0 < n)%nat)
    by (unfold n; destruct (UNet.down_levels a); [congruence|simpl; lia]).
  destruct (pymap_all
              (fun '(i, num_blocks) =>
                 UNet.down_level a (UNet.model_channels a / UNet.num_heads a)
                   (UNet.c_levels_of (UNet.c_hidden a) n) i num_blocks)
              (UNet.enumerate (UNet.down_levels a))) as [down Hdown].
  { apply Forall_forall. intros [i k] Hin.
    destruct (enumerate_lookup _ _ _ Hin) as [Hi Hk].
    eexists. apply down_level_value; [exact Hi|].
    intros Hkpos. apply nth_error_In in Hk.
    apply not_eq_sym, Z.lt_neq. exact (sum_pos _ _ Hpos Hk Hkpos). }
  destruct (pymap_all
              (fun '(i, num_blocks) =>
                 UNet.up_level a (UNet.model_channels a / UNet.num_heads a)
                   (rev (UNet.c_levels_of (UNet.c_hidden a) m)) i num_blocks)
              (UNet.enumerate (UNet.up_levels a))) as [up Hup].
  { apply Forall_forall. intros [i k] Hin.
    destruct (enumerate_lookup _ _ _ Hin) as [Hi Hk].
    eexists. apply up_level_value; [exact Hi|].
    intros _ _. apply not_eq_sym, Z.lt_neq.
    apply c_levels_up_sum_pos; [exact Hc|lia]. }
  exists down, up. split.
  - unfold UNet.__init__. cbv zeta. fold n. fold m.
    rewrite (c_levels_lookup (UNet.c_hidden a) n 0 Hn), !pybind_inr.
    unfold UNet.floordiv.
    destruct (Z.eqb_spec (UNet.num_heads a) 0); [contradiction|].
    rewrite pybind_inr, Hdown, pybind_inr, Hup, pybind_inr.
    replace (n - 1 - 0)%nat with (n - 1)%nat by lia. reflexivity.
  - split.
    + eapply Forall2_impl; [|exact (pymap_inv _ _ _ Hdown)].
      intros [i k] blocks H. exact H.
    + eapply Forall2_impl; [|exact (pymap_inv _ _ _ Hup)].
      intros [i k] blocks H. exact H.
Qed.

Lemma default_unet_built :
  UNet.__init__ (UNet.default_args 8192) = inr default_unet.
Proof. vm_compute. reflexivity. Qed.

(** X25: how [__init__] ends. Without down levels it raises IndexError at
    [c_levels[0]]. With down levels, a positive [num_labels] and at least
    [2^(n-1)] hidden channels, [n] the number of down levels, the embedding
    is built and [num_heads = 0] raises ZeroDivisionError at
    [model_channels // num_heads]. A network that [__init__] returns has one
    list of modules per entry of [down_levels] and of [up_levels], and its
    embedding and classifier both have [c_hidden // 2^(n-1)] channels. *)
Theorem unet_init_returns (a : UNet.args) :
  (UNet.down_levels a = [] -> UNet.__init__ a = inl (Raised IndexError)) /\
  (UNet.down_levels a <> [] -> (0 < UNet.num_labels a)%Z ->
   (2 ^ Z.of_nat (length (UNet.down_levels a) - 1) <= UNet.c_hidden a)%Z ->
   UNet.num_heads a = 0%Z ->
   UNet.__init__ a = inl ZeroDivisionError) /\
  (forall net,
     UNet.__init__ a = inr net ->
     length (UNet.down_blocks net) = length (UNet.down_levels a) /\
     length (UNet.up_blocks net) = length (UNet.up_levels a) /\
     UNet.embedding net
     = UNet.Embedding (UNet.num_labels a)
         (UNet.c_hidden a / 2 ^ Z.of_nat (length (UNet.down_levels a) - 1)) /\
     UNet.clf net
     = UNet.Conv2d
         (UNet.c_hidden a / 2 ^ Z.of_nat (length (UNet.down_levels a) - 1))
         (UNet.num_labels a) 1 1 0).
Proof.
  split; [|split].
  - intros H. unfold UNet.__init__. rewrite H. reflexivity.
  - intros Hne _ _ H0. unfold UNet.__init__. cbv zeta.
    rewrite (c_levels_lookup (UNet.c_hidden a) _ 0)
      by (destruct (UNet.down_levels a); [congruence|simpl; lia]).
    rewrite pybind_inr. unfold UNet.floordiv. rewrite H0. reflexivity.
  - intros net H. unfold UNet.__init__ in H. cbv zeta in H.
    set (n := length (UNet.down_levels a)) in *.
    destruct (Nat.eq_dec n 0) as [E|E].
    { rewrite E in H. discriminate. }
    rewrite (c_levels_lookup (UNet.c_hidden a) n 0 ltac:(lia)) in H.
    rewrite !pybind_inr in H. unfold UNet.floordiv in H.
    destruct (Z.eqb_spec (UNet.num_heads a) 0); [discriminate|].
    rewrite pybind_inr in H.
    destruct (pymap _ (UNet.enumerate (UNet.down_levels a)))
      as [e|down] eqn:Hdown; [discriminate|].
    rewrite pybind_inr in H.
    destruct (pymap _ (UNet.enumerate (UNet.up_levels a)))
      as [e|up] eqn:Hup; [discriminate|].
    rewrite pybind_inr in H. inversion H. subst net. clear H. simpl.
    rewrite <- (Forall2_length (pymap_inv _ _ _ Hdown)).
    rewrite <- (Forall2_length (pymap_inv _ _ _ Hup)).
    rewrite !enumerate_length.
    replace (n - 1 - 0)%nat with (n - 1)%nat by lia. auto.
Qed.

Lemma unet_init_returns_witness :
  UNet.__init__ (UNet.mkArgs 8192 1280 2048 64 [] [32; 16; 8; 4]%Z
                   320 8 1 2048)
  = inl (Raised IndexError) /\
  UNet.__init__ (UNet.mkArgs 8192 1280 2048 64 [4; 8; 16; 32]%Z
                   [32; 16; 8; 4]%Z 320 0 1 2048)
  = inl ZeroDivisionError /\
  length (UNet.down_blocks default_unet) = 4%nat /\
  length (UNet.up_blocks default_unet) = 4%nat /\
  UNet.embedding default_unet = UNet.Embedding 8192 (1280 / 2 ^ 3) /\
  UNet.clf default_unet = UNet.Conv2d (1280 / 2 ^ 3) 8192 1 1 0.
Proof.
  split; [|split].
  - refine (proj1 (unet_init_returns
                     (UNet.mkArgs 8192 1280 2048 64 [] [32; 16; 8; 4]%Z
                        320 8 1 2048)) eq_refl).
  - refine (proj1 (proj2 (unet_init_returns
                     (UNet.mkArgs 8192 1280 2048 64 [4; 8; 16; 32]%Z
                        [32; 16; 8; 4]%Z 320 0 1 2048))) _ _ _ eq_refl).
    + discriminate.
    + simpl. lia.
    + simpl. lia.
  - exact (proj2 (proj2 (unet_init_returns (UNet.default_args 8192)))
             default_unet default_unet_built).
Defined.

Lemma Forall2_lookup_l {A B : Type} (P : A -> B -> Prop) (l : list A)
  (l' : list B) (i : nat) (a : A) :
  Forall2 P l l' -> nth_error l i = Some a ->
  exists b, nth_error l' i = Some b /\ P a b.
Proof.
  intros H. revert i. induction H as [|x y l l' Hxy _ IH]; intros [|i] Hi;
    simpl in *; try discriminate.
  - injection Hi as <-. eauto.
  - now apply IH.
Qed.

Lemma length_concat_repeat {A : Type} (u : list A) (k : nat) :
  length (concat (repeat u k)) = (k * length u)%nat.
Proof. induction k as [|k IH]; simpl; [reflexivity|]. rewrite length_app. lia. Qed.

Lemma transformers_app (l1 l2 : list UNet.layer) :
  transformers (l1 ++ l2) = (transformers l1 + transformers l2)%nat.
Proof. unfold transformers. now rewrite filter_app, length_app. Qed.

Lemma transformers_concat_repeat (u : list UNet.layer) (k : nat) :
  transformers (concat (repeat u k)) = (k * transformers u)%nat.
Proof.
  induction k as [|k IH]; simpl; [reflexivity|].
  rewrite transformers_app. lia.
Qed.

Lemma length_concat_units {A : Type} (u : nat -> list A) (len : nat) (k : nat) :
  (forall j, length (u j) = len) ->
  forall s, length (concat (map u (seq s k))) = (k * len)%nat.
Proof.
  intros Hu. induction k as [|k IH]; intros s; simpl; [reflexivity|].
  rewrite length_app, Hu, IH. lia.
Qed.

Lemma transformers_concat_units (u : nat -> list UNet.layer) (t : nat)
  (k : nat) :
  (forall j, transformers (u j) = t) ->
  forall s, transformers (concat (map u (seq s k))) = (k * t)%nat.
Proof.
  intros Hu. induction k as [|k IH]; intros s; simpl; [reflexivity|].
  rewrite transformers_app, Hu, IH. lia.
Qed.

(** X26: the size of every level of a network that [__init__] returns.
    Down level [i] holds its [num_blocks] blocks, three modules each at
    level 1 and one elsewhere, after a strided convolution when [i > 0].
    Up level [i] holds its blocks, three modules each at the level before
    the last, and a transposed convolution, but the last up level holds
    nothing. The transformers are the [num_blocks] ones of down level 1
    and of the up level before the last. *)
Theorem unet_level_sizes (a : UNet.args) (net : UNet.net) :
  UNet.down_levels a <> [] -> UNet.num_heads a <> 0%Z ->
  Forall (fun k => 0 <= k)%Z (UNet.down_levels a) ->
  (0 < UNet.c_hidden a)%Z ->
  UNet.__init__ a = inr net ->
  (forall i k blocks,
     nth_error (UNet.down_levels a) i = Some k ->
     nth_error (UNet.down_blocks net) i = Some blocks ->
     length blocks
     = ((if (0 <? i)%nat then 1 else 0)
        + Z.to_nat k * (if (i =? 1)%nat then 3 else 1))%nat /\
     transformers blocks = (if (i =? 1)%nat then Z.to_nat k else 0%nat)) /\
  (forall i k blocks,
     nth_error (UNet.up_levels a) i = Some k ->
     nth_error (UNet.up_blocks net) i = Some blocks ->
     length blocks
     = (if (S i <? length (UNet.up_levels a))%nat
        then Z.to_nat k
             * (if (S (S i) =? length (UNet.up_levels a))%nat then 3 else 1)
             + 1
        else 0)%nat /\
     transformers blocks
     = (if (S (S i) =? length (UNet.up_levels a))%nat
        then Z.to_nat k else 0%nat)).
Proof.
  intros Hne Hh Hpos Hc Hinit.
  destruct (init_value a Hne Hh Hpos Hc) as (down & up & E & Hd & Hu).
  rewrite E in Hinit. injection Hinit as <-.
  cbn [UNet.down_blocks UNet.up_blocks]. split.
  - intros i k blocks Hk Hb.
    pose proof (enumerate_nth _ _ _ Hk) as He.
    destruct (Forall2_lookup_l _ _ _ _ _ Hd He) as (blocks' & Hb' & Hv).
    rewrite Hb in Hb'. injection Hb' as <-. cbn [fst snd] in Hv.
    rewrite down_level_value in Hv.
    + injection Hv as <-. split.
      * rewrite length_app, length_concat_repeat.
        destruct (0 <? i)%nat, (i =? 1)%nat; simpl; lia.
      * rewrite transformers_app, transformers_concat_repeat.
        destruct (0 <? i)%nat, (i =? 1)%nat; unfold transformers; simpl; lia.
    + apply nth_error_Some. congruence.
    + intros Hkpos. apply nth_error_In in Hk.
      apply not_eq_sym, Z.lt_neq. exact (sum_pos _ _ Hpos Hk Hkpos).
  - intros i k blocks Hk Hb.
    pose proof (enumerate_nth _ _ _ Hk) as He.
    destruct (Forall2_lookup_l _ _ _ _ _ Hu He) as (blocks' & Hb' & Hv).
    rewrite Hb in Hb'. injection Hb' as <-. cbn [fst snd] in Hv.
    assert (Hi : (i < length (UNet.up_levels a))%nat)
      by (apply nth_error_Some; congruence).
    rewrite up_level_value in Hv;
      [|exact Hi
       |intros _ _; apply not_eq_sym, Z.lt_neq;
        apply c_levels_up_sum_pos; [exact Hc|lia]].
    revert Hv.
    destruct (Nat.ltb_spec (S i) (length (UNet.up_levels a))) as [Hlt|Hge];
      destruct (Nat.eqb_spec (S (S i)) (length (UNet.up_levels a)))
        as [Heq|Hneq]; try (exfalso; lia); intros [= <-].
    + rewrite length_app, transformers_app.
      rewrite (length_concat_units _ 3), (transformers_concat_units _ 1);
        [split; [reflexivity|unfold transformers; cbn [filter length];
                             unfold UNet.is_transformer; simpl length; lia]
        |intros; reflexivity|intros; reflexivity].
    + rewrite length_app, transformers_app.
      rewrite (length_concat_units _ 1), (transformers_concat_units _ 0);
        [split; [reflexivity|unfold transformers; cbn [filter length];
                             unfold UNet.is_transformer; simpl length; lia]
        |intros; reflexivity|intros; reflexivity].
    + split; reflexivity.
Qed.

Lemma combine_seq_snoc {A : Type} (l : list A) (x : A) :
  forall s, combine (seq s (length (l ++ [x]))) (l ++ [x])
            = combine (seq s (length l)) l ++ [((s + length l)%nat, x)].
Proof.
  induction l as [|a l IH]; intros s; simpl.
  - now rewrite Nat.add_0_r.
  - rewrite IH. do 4 f_equal. lia.
Qed.

Lemma enumerate_snoc {A : Type} (l : list A) (x : A) :
  UNet.enumerate (l ++ [x]) = UNet.enumerate l ++ [(length l, x)].
Proof. unfold UNet.enumerate. apply (combine_seq_snoc l x 0). Qed.

Lemma pymap_app {A B : Type} (f : A -> Py B) (l1 l2 : list A) :
  pymap f (l1 ++ l2)
  = (b1 <- pymap f l1 ;; b2 <- pymap f l2 ;; inr (b1 ++ b2))%py.
Proof.
  induction l1 as [|a l1 IH]; simpl.
  - destruct (pymap f l2); reflexivity.
  - destruct (f a) as [e|b]; [reflexivity|]. simpl. rewrite IH.
    destruct (pymap f l1) as [e|b1]; [reflexivity|]. simpl.
    destruct (pymap f l2); reflexivity.
Qed.

(** The last up level is left without modules, whatever its number of
    blocks. *)
Lemma up_level_last (a : UNet.args) (dim_head : Z) (c_levels_up : list Z)
  (i : nat) (num_blocks : Z) :
  length c_levels_up = length (UNet.up_levels a) ->
  S i = length (UNet.up_levels a) ->
  UNet.up_level a dim_head c_levels_up i num_blocks = inr [].
Proof.
  intros Hl Hi. unfold UNet.up_level. rewrite Hl, <- Hi.
  destruct (Z.ltb_spec (Z.of_nat i) (Z.of_nat (S i) - 1)) as [|_]; [lia|].
  destruct (Z.eqb_spec (Z.of_nat i) (Z.of_nat (S i) - 1)) as [_|]; [|lia].
  reflexivity.
Qed.

Lemma up_level_with_up_levels (a : UNet.args) (l : list Z) (dim_head : Z)
  (c_levels_up : list Z) (i : nat) (num_blocks : Z) :
  length l = length (UNet.up_levels a) ->
  UNet.up_level (with_up_levels a l) dim_head c_levels_up i num_blocks
  = UNet.up_level a dim_head c_levels_up i num_blocks.
Proof.
  intros Hl. unfold UNet.up_level. cbn [UNet.up_levels with_up_levels].
  rewrite Hl. reflexivity.
Qed.

(** X27: the last entry of [up_levels] is never used. The last up level of
    the network is left without any module, and [__init__] builds the same
    network when that entry is replaced by any other number; with the
    defaults, the 4 of [up_levels=[32, 16, 8, 4]] has no effect. *)
Theorem unet_last_up_level_unused (a : UNet.args) (l : list Z) (x : Z) :
  UNet.up_levels a = l ++ [x] ->
  (forall y, UNet.__init__ (with_up_levels a (l ++ [y])) = UNet.__init__ a) /\
  (forall net, UNet.__init__ a = inr net ->
               nth_error (UNet.up_blocks net) (length l) = Some []).
Proof.
  intros H.
  assert (Hlen : forall y, length (l ++ [y]) = length (UNet.up_levels a))
    by (intros y; rewrite H, !length_app; reflexivity).
  assert (Hup : forall y dim_head,
            pymap (fun '(i, num_blocks) =>
                     UNet.up_level (with_up_levels a (l ++ [y])) dim_head
                       (rev (UNet.c_levels_of (UNet.c_hidden a)
                               (length (UNet.up_levels a)))) i num_blocks)
              (UNet.enumerate (l ++ [y]))
            = (b1 <- pymap (fun '(i, num_blocks) =>
                              UNet.up_level a dim_head
                                (rev (UNet.c_levels_of (UNet.c_hidden a)
                                        (length (UNet.up_levels a))))
                                i num_blocks)
                       (UNet.enumerate l) ;;
               inr (b1 ++ [[]]))%py).
  { intros y dim_head. rewrite enumerate_snoc, pymap_app.
    rewrite (pymap_ext _ (fun '(i, num_blocks) =>
                            UNet.up_level a dim_head
                              (rev (UNet.c_levels_of (UNet.c_hidden a)
                                      (length (UNet.up_levels a))))
                              i num_blocks) (UNet.enumerate l))
      by (apply Forall_forall; intros [i k] _;
          apply up_level_with_up_levels; apply Hlen).
    destruct (pymap _ (UNet.enumerate l)) as [e|b1]; [reflexivity|].
    rewrite pybind_inr. cbn [pymap].
    rewrite up_level_with_up_levels by apply Hlen.
    rewrite up_level_last;
      [reflexivity
      |now rewrite length_rev, c_levels_length
      |rewrite H, length_app; simpl; lia]. }
  assert (Hinit : forall y,
            UNet.__init__ (with_up_levels a (l ++ [y]))
            = (c_0 <- list_index
                        (UNet.c_levels_of (UNet.c_hidden a)
                           (length (UNet.down_levels a))) 0 ;;
               dim_head <- UNet.floordiv (UNet.model_channels a)
                             (UNet.num_heads a) ;;
               down <- pymap (fun '(i, num_blocks) =>
                                UNet.down_level a dim_head
                                  (UNet.c_levels_of (UNet.c_hidden a)
                                     (length (UNet.down_levels a)))
                                  i num_blocks)
                         (UNet.enumerate (UNet.down_levels a)) ;;
               b1 <- pymap (fun '(i, num_blocks) =>
                              UNet.up_level a dim_head
                                (rev (UNet.c_levels_of (UNet.c_hidden a)
                                        (length (UNet.up_levels a))))
                                i num_blocks)
                       (UNet.enumerate l) ;;
               inr (UNet.mkNet (UNet.Embedding (UNet.num_labels a) c_0)
                      down (b1 ++ [[]])
                      (UNet.Conv2d c_0 (UNet.num_labels a) 1 1 0)))%py).
  { intros y. unfold UNet.__init__. cbv zeta.
    cbn [UNet.up_levels UNet.down_levels UNet.c_hidden UNet.num_labels
         UNet.model_channels UNet.num_heads with_up_levels].
    rewrite (Hlen y).
    destruct (list_index _ 0) as [e|c_0]; [reflexivity|]. rewrite !pybind_inr.
    destruct (UNet.floordiv _ _) as [e|dim_head]; [reflexivity|].
    rewrite !pybind_inr.
    change (pymap (fun '(i, num_blocks) =>
                     UNet.down_level (with_up_levels a (l ++ [y])) dim_head
                       (UNet.c_levels_of (UNet.c_hidden a)
                          (length (UNet.down_levels a))) i num_blocks)
              (UNet.enumerate (UNet.down_levels a)))
      with (pymap (fun '(i, num_blocks) =>
                     UNet.down_level a dim_head
                       (UNet.c_levels_of (UNet.c_hidden a)
                          (length (UNet.down_levels a))) i num_blocks)
              (UNet.enumerate (UNet.down_levels a))).
    destruct (pymap _ (UNet.enumerate (UNet.down_levels a))) as [e|down];
      [reflexivity|].
    rewrite !pybind_inr, Hup.
    destruct (pymap _ (UNet.enumerate l)) as [e|b1]; reflexivity. }
  assert (Hself : with_up_levels a (l ++ [x]) = a)
    by (rewrite <- H; destruct a; reflexivity).
  split.
  - intros y. rewrite (Hinit y), <- (Hinit x), Hself. reflexivity.
  - intros net Hnet. rewrite <- Hself, (Hinit x) in Hnet.
    destruct (list_index _ 0) as [e|c_0]; [discriminate|].
    rewrite pybind_inr in Hnet.
    destruct (UNet.floordiv _ _) as [e|dim_head]; [discriminate|].
    rewrite pybind_inr in Hnet.
    destruct (pymap _ (UNet.enumerate (UNet.down_levels a))) as [e|down];
      [discriminate|].
    rewrite pybind_inr in Hnet.
    destruct (pymap _ (UNet.enumerate l)) as [e|b1] eqn:Hb1; [discriminate|].
    rewrite pybind_inr in Hnet. injection Hnet as <-.
    cbn [UNet.up_blocks].
    apply pymap_inv in Hb1. apply Forall2_length in Hb1.
    rewrite enumerate_length in Hb1.
    rewrite nth_error_app2 by lia. rewrite Hb1, Nat.sub_diag. reflexivity.
Qed.

Lemma unet_level_sizes_witness :
  (forall i k blocks,
     nth_error (UNet.down_levels (UNet.default_args 8192)) i = Some k ->
     nth_error (UNet.down_blocks default_unet) i = Some blocks ->
     length blocks
     = ((if (0 <? i)%nat then 1 else 0)
        + Z.to_nat k * (if (i =? 1)%nat then 3 else 1))%nat /\
     transformers blocks = (if (i =? 1)%nat then Z.to_nat k else 0%nat)) /\
  (forall i k blocks,
     nth_error (UNet.up_levels (UNet.default_args 8192)) i = Some k ->
     nth_error (UNet.up_blocks default_unet) i = Some blocks ->
     length blocks
     = (if (S i <? length (UNet.up_levels (UNet.default_args 8192)))%nat
        then Z.to_nat k
             * (if (S (S i)
                    =? length (UNet.up_levels (UNet.default_args 8192)))%nat
                then 3 else 1)
             + 1
        else 0)%nat /\
     transformers blocks
     = (if (S (S i) =? length (UNet.up_levels (UNet.default_args 8192)))%nat
        then Z.to_nat k else 0%nat)).
Proof.
  refine (unet_level_sizes (UNet.default_args 8192) default_unet
            _ _ _ _ default_unet_built).
  - discriminate.
  - discriminate.
  - simpl. repeat (apply Forall_cons; [lia|]). apply Forall_nil.
  - simpl. lia.
Defined.

Lemma unet_last_up_level_unused_witness :
  (forall y,
     UNet.__init__ (with_up_levels (UNet.default_args 8192) ([32; 16; 8]%Z ++ [y]))
     = UNet.__init__ (UNet.default_args 8192)) /\
  (forall net,
     UNet.__init__ (UNet.default_args 8192) = inr net ->
     nth_error (UNet.up_blocks net) (length [32; 16; 8]%Z) = Some []).
Proof.
  refine (unet_last_up_level_unused (UNet.default_args 8192) [32; 16; 8]%Z 4
            eq_refl).
Defined.

Lemma nth_error_concat_units (u : nat -> list UNet.layer) (P : UNet.layer -> Prop)
  (k : nat) :
  forall s, (forall j, (s <= j)%nat -> Forall P (u j)) ->
            Forall P (concat (map u (seq s k))).
Proof.
  induction k as [|k IH]; intros s H; simpl; [constructor|].
  apply Forall_app. split; [apply H; lia|]. apply IH. intros j Hj. apply H. lia.
Qed.

(** The modules of an up level after the first one are plain: a [ResBlock]
    among them has the channels of the level and no skip input. *)
Lemma up_level_tail (a : UNet.args) (dim_head : Z) (i : nat) (num_blocks : Z)
  (blocks : list UNet.layer) :
  let m := length (UNet.up_levels a) in
  (i < m)%nat ->
  UNet.up_level a dim_head (rev (UNet.c_levels_of (UNet.c_hidden a) m)) i
    num_blocks = inr blocks ->
  match blocks with
  | [] => True
  | first :: rest =>
      Forall (plain_block (UNet.c_hidden a / 2 ^ Z.of_nat i)) rest /\
      match first with
      | UNet.ResBlock c _ _ c_skip _ =>
          c = (UNet.c_hidden a / 2 ^ Z.of_nat i)%Z /\
          c_skip = (if (0 <? i)%nat
                    then (UNet.c_hidden a / 2 ^ Z.of_nat i)%Z else 0%Z)
      | _ => True
      end
  end.
Proof.
  intros m Hi Hv.
  destruct (Z.le_gt_cases num_blocks 0) as [Hk|Hk].
  - rewrite up_level_value in Hv by (auto; lia). injection Hv as <-.
    replace (Z.to_nat num_blocks) with 0%nat by lia. simpl concat.
    destruct (S i <? length (UNet.up_levels a))%nat; simpl; auto.
  - destruct (Nat.ltb_spec (S i) m) as [Hlt|Hge].
    + assert (Htot : UNet.sum (rev (UNet.c_levels_of (UNet.c_hidden a) m))
                     <> 0%Z).
      { intros E. unfold UNet.up_level, UNet.for_range in Hv.
        rewrite length_rev, c_levels_length in Hv. fold m in Hv.
        destruct (Z.ltb_spec (Z.of_nat i) (Z.of_nat m - 1)) as [_|]; [|lia].
        destruct (Z.to_nat num_blocks) as [|k] eqn:Ek; [lia|].
        simpl in Hv. unfold UNet.up_iteration at 1 in Hv.
        rewrite c_levels_up_lookup in Hv by exact Hi.
        rewrite pybind_inr in Hv. unfold UNet.weight_scale at 1 in Hv.
        rewrite E in Hv. discriminate. }
      rewrite up_level_value in Hv by auto. fold m in Hv.
      destruct (Nat.ltb_spec (S i) m) as [_|]; [|lia]. injection Hv as <-.
      destruct (Z.to_nat num_blocks) as [|k] eqn:Ek; [lia|].
      cbn [seq map concat app]. split.
      * apply Forall_app. split; [apply Forall_app; split|].
        -- match goal with
           | |- context [if ?b then _ else _] => destruct b
           end; repeat constructor.
        -- apply nth_error_concat_units. intros j Hj.
           replace (j =? 0)%nat with false by (symmetry; apply Nat.eqb_neq; lia).
           cbn [andb].
           match goal with
           | |- context [if ?b then _ else _] => destruct b
           end; repeat constructor.
        -- repeat constructor.
      * rewrite Nat.eqb_refl. cbn [andb]. auto.
    + rewrite up_level_last in Hv;
        [injection Hv as <-; exact I
        |now rewrite length_rev, c_levels_length|fold m; lia].
Qed.

Lemma Forall2_lookup_r {A B : Type} (P : A -> B -> Prop) (l : list A)
  (l' : list B) (i : nat) (b : B) :
  Forall2 P l l' -> nth_error l' i = Some b ->
  exists a, nth_error l i = Some a /\ P a b.
Proof.
  intros H. revert i. induction H as [|x y l l' Hxy _ IH]; intros [|i] Hi;
    simpl in *; try discriminate.
  - injection Hi as <-. eauto.
  - now apply IH.
Qed.

Lemma enumerate_nth_inv {A : Type} (l : list A) (i : nat) (p : nat * A) :
  nth_error (UNet.enumerate l) i = Some p ->
  fst p = i /\ nth_error l i = Some (snd p).
Proof.
  intros H.
  assert (Hi : (i < length l)%nat).
  { rewrite <- (enumerate_length l). apply nth_error_Some. congruence. }
  destruct (nth_error l i) as [a|] eqn:Ha;
    [|apply nth_error_None in Ha; lia].
  rewrite (enumerate_nth _ _ _ Ha) in H. injection H as <-. auto.
Qed.

Lemma down_level_plain (a : UNet.args) (dim_head : Z) (i : nat)
  (num_blocks : Z) (blocks : list UNet.layer) :
  let n := length (UNet.down_levels a) in
  (i < n)%nat ->
  ((0 < num_blocks)%Z -> UNet.sum (UNet.down_levels a) <> 0%Z) ->
  UNet.down_level a dim_head (UNet.c_levels_of (UNet.c_hidden a) n) i
    num_blocks = inr blocks ->
  Forall (plain_block (UNet.c_hidden a / 2 ^ Z.of_nat (n - 1 - i))) blocks.
Proof.
  intros n Hi Htot Hv. rewrite down_level_value in Hv by assumption.
  injection Hv as <-. apply Forall_app. split.
  - destruct (0 <? i)%nat; repeat constructor.
  - generalize (Z.to_nat num_blocks). intros k.
    induction k as [|k IH]; simpl; [constructor|].
    apply Forall_app. split; [|exact IH].
    destruct (i =? 1)%nat; repeat constructor.
Qed.

(** X28: the skip inputs of the up path are wired as they were sized. In a
    network that [__init__] returns, a [ResBlock] of up level [i] has
    [c_hidden // 2^i] channels, and it was built with a skip input, of as
    many channels, exactly when [_up_decode] calls it with one: when it is
    the first module of a level [i > 0]. The skip it is then given,
    [level_outputs[i]], comes out of down level [n - 1 - i], whose
    [ResBlock]s have those [c_hidden // 2^i] channels too. *)
Theorem unet_skip_wiring (a : UNet.args) (net : UNet.net) :
  UNet.down_levels a <> [] -> UNet.num_heads a <> 0%Z ->
  Forall (fun k => 0 <= k)%Z (UNet.down_levels a) ->
  (0 < UNet.c_hidden a)%Z ->
  UNet.__init__ a = inr net ->
  (forall i j blocks block,
     nth_error (UNet.up_blocks net) i = Some blocks ->
     nth_error blocks j = Some block ->
     match block with
     | UNet.ResBlock c _ _ c_skip _ =>
         c = (UNet.c_hidden a / 2 ^ Z.of_nat i)%Z /\
         c_skip = (if UNet.takes_skip i j block
                   then (UNet.c_hidden a / 2 ^ Z.of_nat i)%Z else 0%Z)
     | _ => True
     end) /\
  (forall i j blocks block,
     (i < length (UNet.down_levels a))%nat ->
     nth_error (UNet.down_blocks net) (length (UNet.down_levels a) - 1 - i)
     = Some blocks ->
     nth_error blocks j = Some block ->
     plain_block (UNet.c_hidden a / 2 ^ Z.of_nat i) block).
Proof.
  intros Hne Hh Hpos Hc Hinit.
  destruct (init_value a Hne Hh Hpos Hc) as (down & up & E & Hd & Hu).
  rewrite E in Hinit. injection Hinit as <-.
  cbn [UNet.down_blocks UNet.up_blocks]. split.
  - intros i j blocks block Hb Hj.
    destruct (Forall2_lookup_r _ _ _ _ _ Hu Hb) as ([i' k] & Hp & Hv).
    destruct (enumerate_nth_inv _ _ _ Hp) as [Hfst Hk].
    cbn [fst snd] in *. subst i'.
    assert (Hi : (i < length (UNet.up_levels a))%nat)
      by (apply nth_error_Some; congruence).
    pose proof (up_level_tail a _ i k blocks Hi Hv) as Ht.
    destruct blocks as [|first rest]; [destruct j; discriminate|].
    destruct Ht as [Hrest Hfirst]. destruct j as [|j]; simpl in Hj.
    + injection Hj as <-. destruct first; try exact I.
      cbn [UNet.takes_skip]. rewrite Nat.eqb_refl, andb_true_r. exact Hfirst.
    + apply nth_error_In in Hj. rewrite Forall_forall in Hrest.
      specialize (Hrest _ Hj). destruct block; try exact I.
      cbn [UNet.takes_skip]. replace (S j =? 0)%nat with false by reflexivity.
      rewrite andb_false_r. exact Hrest.
  - intros i j blocks block Hi Hb Hj.
    destruct (Forall2_lookup_r _ _ _ _ _ Hd Hb) as ([i' k] & Hp & Hv).
    destruct (enumerate_nth_inv _ _ _ Hp) as [Hfst Hk].
    cbn [fst snd] in *. subst i'.
    apply down_level_plain in Hv.
    + rewrite Forall_forall in Hv. apply nth_error_In in Hj.
      specialize (Hv _ Hj).
      replace (length (UNet.down_levels a) - 1
               - (length (UNet.down_levels a) - 1 - i))%nat with i in Hv
        by lia.
      exact Hv.
    + lia.
    + intros Hkpos. apply nth_error_In in Hk.
      apply not_eq_sym, Z.lt_neq. exact (sum_pos _ _ Hpos Hk Hkpos).
Qed.

Lemma unet_skip_wiring_witness :
  (forall i j blocks block,
     nth_error (UNet.up_blocks default_unet) i = Some blocks ->
     nth_error blocks j = Some block ->
     match block with
     | UNet.ResBlock c _ _ c_skip _ =>
         c = (UNet.c_hidden (UNet.default_args 8192) / 2 ^ Z.of_nat i)%Z /\
         c_skip = (if UNet.takes_skip i j block
                   then (UNet.c_hidden (UNet.default_args 8192)
                         / 2 ^ Z.of_nat i)%Z
                   else 0%Z)
     | _ => True
     end) /\
  (forall i j blocks block,
     (i < length (UNet.down_levels (UNet.default_args 8192)))%nat ->
     nth_error (UNet.down_blocks default_unet)
       (length (UNet.down_levels (UNet.default_args 8192)) - 1 - i)
     = Some blocks ->
     nth_error blocks j = Some block ->
     plain_block (UNet.c_hidden (UNet.default_args 8192) / 2 ^ Z.of_nat i)
       block).
Proof.
  refine (unet_skip_wiring (UNet.default_args 8192) default_unet
            _ _ _ _ default_unet_built).
  - discriminate.
  - discriminate.
  - simpl. repeat (apply Forall_cons; [lia|]). apply Forall_nil.
  - simpl. lia.
Defined.

(** ** The calls of _down_encode_ and _up_decode *)

Section ForwardFacts.

Variable X : Type.
Variable run : UNet.layer -> X -> option X -> X.

Lemma down_encode_from_value (down_blocks : list (list UNet.layer)) :
  forall x outs,
    down_encode_from X run down_blocks x outs
    = rev (map (fun k => fold_left (fun x blocks => run_level X run blocks x)
                           (firstn (S k) down_blocks) x)
             (seq 0 (length down_blocks))) ++ outs.
Proof.
  induction down_blocks as [|blocks rest IH]; intros x outs; [reflexivity|].
  cbn [down_encode_from length]. cbv zeta. rewrite IH.
  rewrite <- cons_seq, <- seq_shift, map_cons, map_map.
  cbn [rev]. rewrite <- app_assoc. reflexivity.
Qed.

(** X29: [_down_encode_] returns one output per down level, the deepest
    first: entry [i] of [level_outputs] is what comes out of the first
    [n - i] levels, that is of level [n - 1 - i]; entry 0, from which
    [_up_decode] starts, is the output of the whole down path. *)
Theorem down_encode_outputs (down_blocks : list (list UNet.layer)) (x : X)
  (i : nat) :
  (i < length down_blocks)%nat ->
  length (_down_encode_ X run down_blocks x) = length down_blocks /\
  nth_error (_down_encode_ X run down_blocks x) i
  = Some (fold_left (fun x blocks => run_level X run blocks x)
            (firstn (length down_blocks - i) down_blocks) x).
Proof.
  intros Hi. unfold _down_encode_. rewrite down_encode_from_value, app_nil_r.
  split; [now rewrite length_rev, length_map, length_seq|].
  rewrite nth_error_rev, length_map, length_seq.
  destruct (Nat.ltb_spec i (length down_blocks)) as [_|]; [|lia].
  rewrite nth_error_map, nth_error_seq0 by lia. cbn [option_map].
  replace (S (length down_blocks - S i)) with (length down_blocks - i)%nat
    by lia.
  reflexivity.
Qed.

Lemma up_level_later (level_outputs : list X) (i : nat)
  (blocks : list UNet.layer) :
  forall j x, (0 < j)%nat ->
    exists y, up_level_from X run level_outputs i j blocks x = inr y.
Proof.
  induction blocks as [|block rest IH]; intros j x Hj; simpl; [eauto|].
  assert (E : UNet.takes_skip i j block = false).
  { destruct block; try reflexivity. cbn [UNet.takes_skip].
    replace (j =? 0)%nat with false by (symmetry; apply Nat.eqb_neq; lia).
    apply andb_false_r. }
  rewrite E, pybind_inr. apply IH. lia.
Qed.

Lemma up_level_first (level_outputs : list X) (i : nat)
  (blocks : list UNet.layer) (x : X) :
  (first_takes_skip i blocks = true -> (length level_outputs <= i)%nat ->
   up_level_from X run level_outputs i 0 blocks x = inl (Raised IndexError)) /\
  ((first_takes_skip i blocks = true -> (i < length level_outputs)%nat) ->
   exists y, up_level_from X run level_outputs i 0 blocks x = inr y).
Proof.
  destruct blocks as [|first rest]; simpl.
  - split; [discriminate|eauto].
  - split.
    + intros -> Hle. unfold list_index.
      now rewrite (proj2 (nth_error_None level_outputs i) Hle).
    + intros H. destruct (UNet.takes_skip i 0 first).
      * specialize (H eq_refl). unfold list_index.
        destruct (nth_error level_outputs i) as [skip|] eqn:Hs;
          [|apply nth_error_None in Hs; lia].
        rewrite !pybind_inr. apply up_level_later. lia.
      * rewrite pybind_inr. apply up_level_later. lia.
Qed.

Lemma up_levels_return (level_outputs : list X)
  (up_blocks : list (list UNet.layer)) :
  forall s x,
    (forall i blocks, nth_error up_blocks i = Some blocks ->
                      first_takes_skip (s + i) blocks = true ->
                      (s + i < length level_outputs)%nat) ->
    exists y, up_levels_from X run level_outputs s up_blocks x = inr y.
Proof.
  induction up_blocks as [|blocks rest IH]; intros s x H; simpl; [eauto|].
  destruct (proj2 (up_level_first level_outputs s blocks x)) as [y Hy].
  { intros Hf. specialize (H 0%nat blocks eq_refl).
    rewrite Nat.add_0_r in H. auto. }
  rewrite Hy, pybind_inr. apply IH. intros i b Hb Hf.
  specialize (H (S i) b Hb). rewrite Nat.add_succ_r in H. auto.
Qed.

Lemma up_levels_raise (level_outputs : list X)
  (up_blocks : list (list UNet.layer)) :
  forall s x i blocks,
    nth_error up_blocks i = Some blocks ->
    first_takes_skip (s + i) blocks = true ->
    (length level_outputs <= s + i)%nat ->
    up_levels_from X run level_outputs s up_blocks x
    = inl (Raised IndexError).
Proof.
  induction up_blocks as [|b rest IH]; intros s x i blocks Hb Hf Hle;
    [destruct i; discriminate|].
  simpl. destruct i as [|i]; simpl in Hb.
  - injection Hb as ->. rewrite Nat.add_0_r in *.
    now rewrite (proj1 (up_level_first level_outputs s blocks x) Hf Hle).
  - destruct (first_takes_skip s b) eqn:Hfb.
    + destruct (Nat.le_gt_cases (length level_outputs) s) as [Hs|Hs].
      * now rewrite (proj1 (up_level_first level_outputs s b x) Hfb Hs).
      * destruct (proj2 (up_level_first level_outputs s b x)
                    ltac:(intros _; exact Hs)) as [y Hy].
        rewrite Hy, pybind_inr. apply (IH (S s) y i blocks Hb).
        -- now rewrite Nat.add_succ_l, <- Nat.add_succ_r.
        -- lia.
    + destruct (proj2 (up_level_first level_outputs s b x)
                  ltac:(intros Hc; congruence)) as [y Hy].
      rewrite Hy, pybind_inr. apply (IH (S s) y i blocks Hb).
      * now rewrite Nat.add_succ_l, <- Nat.add_succ_r.
      * lia.
Qed.

End ForwardFacts.

(** The first module of an up level is called with a skip input exactly
    when the level is neither the first nor the last and has a block. *)
Lemma up_level_first_skip (a : UNet.args) (dim_head : Z) (i : nat)
  (num_blocks : Z) (blocks : list UNet.layer) :
  let m := length (UNet.up_levels a) in
  (i < m)%nat -> (0 < UNet.c_hidden a)%Z ->
  UNet.up_level a dim_head (rev (UNet.c_levels_of (UNet.c_hidden a) m)) i
    num_blocks = inr blocks ->
  (first_takes_skip i blocks = true
   <-> (0 < i)%nat /\ (S i < m)%nat /\ (0 < num_blocks)%Z).
Proof.
  intros m Hi Hc Hv. rewrite up_level_value in Hv;
    [|exact Hi
     |intros _ _; apply not_eq_sym, Z.lt_neq;
      apply c_levels_up_sum_pos; [exact Hc|lia]].
  revert Hv. fold m.
  destruct (Nat.ltb_spec (S i) m) as [Hlt|Hge]; intros [= <-].
  - destruct (Z.to_nat num_blocks) as [|k] eqn:Ek.
    + simpl. split; [discriminate|lia].
    + cbn [seq map concat app first_takes_skip UNet.takes_skip].
      rewrite Nat.eqb_refl, andb_true_r. split.
      * intros H. apply Nat.ltb_lt in H. lia.
      * intros (H & _). now apply Nat.ltb_lt.
  - simpl. split; [discriminate|lia].
Qed.

(** X30: [_up_decode] finds the level outputs it asks for exactly when no
    up level that takes a skip lies beyond the down levels. On a network
    that [__init__] returns, with one output per down level, the walk over
    the up path returns when every up level with blocks, other than the
    last, has an index below the number of down levels, and it raises
    IndexError at [level_outputs[i]] when such a level has not; with at
    most one up level more than down levels it always returns. *)
Theorem unet_up_decode_indices (X : Type)
  (run : UNet.layer -> X -> option X -> X) (a : UNet.args) (net : UNet.net)
  (level_outputs : list X) :
  UNet.down_levels a <> [] -> UNet.num_heads a <> 0%Z ->
  Forall (fun k => 0 <= k)%Z (UNet.down_levels a) ->
  (0 < UNet.c_hidden a)%Z ->
  UNet.__init__ a = inr net ->
  length level_outputs = length (UNet.down_levels a) ->
  ((forall i k, nth_error (UNet.up_levels a) i = Some k -> (0 < k)%Z ->
                (S i < length (UNet.up_levels a))%nat ->
                (i < length (UNet.down_levels a))%nat) ->
   exists y, _up_decode X run (UNet.up_blocks net) level_outputs = inr y) /\
  (forall i k, nth_error (UNet.up_levels a) i = Some k -> (0 < k)%Z ->
               (S i < length (UNet.up_levels a))%nat ->
               (length (UNet.down_levels a) <= i)%nat ->
               _up_decode X run (UNet.up_blocks net) level_outputs
               = inl (Raised IndexError)) /\
  ((length (UNet.up_levels a) <= S (length (UNet.down_levels a)))%nat ->
   exists y, _up_decode X run (UNet.up_blocks net) level_outputs = inr y).
Proof.
  intros Hne Hh Hpos Hc Hinit Hlen.
  destruct (init_value a Hne Hh Hpos Hc) as (down & up & E & Hd & Hu).
  rewrite E in Hinit. injection Hinit as <-. cbn [UNet.up_blocks].
  assert (Hn : (0 < length (UNet.down_levels a))%nat)
    by (destruct (UNet.down_levels a); [congruence|simpl; lia]).
  assert (H0 : exists x0, list_index level_outputs 0 = inr x0).
  { unfold list_index. destruct level_outputs as [|x0 lo]; [simpl in Hlen; lia|].
    simpl. eauto. }
  destruct H0 as [x0 H0].
  assert (Hskip : forall i blocks,
            nth_error up i = Some blocks ->
            exists k, nth_error (UNet.up_levels a) i = Some k /\
                      (first_takes_skip i blocks = true
                       <-> (0 < i)%nat /\
                           (S i < length (UNet.up_levels a))%nat /\
                           (0 < k)%Z)).
  { intros i blocks Hb.
    destruct (Forall2_lookup_r _ _ _ _ _ Hu Hb) as ([i' k] & Hp & Hv).
    destruct (enumerate_nth_inv _ _ _ Hp) as [Hfst Hk].
    cbn [fst snd] in *. subst i'. exists k. split; [exact Hk|].
    apply (up_level_first_skip a (UNet.model_channels a / UNet.num_heads a)
             i k blocks); auto.
    apply nth_error_Some. congruence. }
  assert (Hret : (forall i k, nth_error (UNet.up_levels a) i = Some k ->
                    (0 < k)%Z -> (S i < length (UNet.up_levels a))%nat ->
                    (i < length (UNet.down_levels a))%nat) ->
                 exists y, _up_decode X run up level_outputs = inr y).
  { intros H. unfold _up_decode. rewrite H0, pybind_inr.
    apply up_levels_return. intros i blocks Hb Hf. simpl in Hf. simpl.
    destruct (Hskip i blocks Hb) as (k & Hk & Hiff).
    apply Hiff in Hf. destruct Hf as (_ & Hlt & Hkpos).
    rewrite Hlen. exact (H i k Hk Hkpos Hlt). }
  split; [exact Hret|]. split.
  - intros i k Hk Hkpos Hlt Hge. unfold _up_decode. rewrite H0, pybind_inr.
    destruct (nth_error up i) as [blocks|] eqn:Hb.
    + apply (up_levels_raise X run level_outputs up 0 x0 i blocks Hb).
      * simpl. destruct (Hskip i blocks Hb) as (k' & Hk' & Hiff).
        rewrite Hk in Hk'. injection Hk' as <-. apply Hiff. lia.
      * simpl. lia.
    + apply nth_error_None in Hb. apply Forall2_length in Hu.
      rewrite enumerate_length in Hu. lia.
  - intros Hm. apply Hret. intros i k Hk Hkpos Hlt. lia.
Qed.

Lemma down_encode_outputs_witness :
  length (_down_encode_ Z count_calls (UNet.down_blocks default_unet) 0%Z)
  = length (UNet.down_blocks default_unet) /\
  nth_error (_down_encode_ Z count_calls (UNet.down_blocks default_unet) 0%Z) 1
  = Some (fold_left (fun x blocks => run_level Z count_calls blocks x)
            (firstn (length (UNet.down_blocks default_unet) - 1)
               (UNet.down_blocks default_unet)) 0%Z).
Proof.
  refine (down_encode_outputs Z count_calls (UNet.down_blocks default_unet)
            0%Z 1 _).
  vm_compute. lia.
Defined.

Lemma unet_up_decode_indices_witness :
  ((forall i k,
      nth_error (UNet.up_levels (UNet.default_args 8192)) i = Some k ->
      (0 < k)%Z ->
      (S i < length (UNet.up_levels (UNet.default_args 8192)))%nat ->
      (i < length (UNet.down_levels (UNet.default_args 8192)))%nat) ->
   exists y,
     _up_decode Z count_calls (UNet.up_blocks default_unet) [0; 0; 0; 0]%Z
     = inr y) /\
  (forall i k,
     nth_error (UNet.up_levels (UNet.default_args 8192)) i = Some k ->
     (0 < k)%Z ->
     (S i < length (UNet.up_levels (UNet.default_args 8192)))%nat ->
     (length (UNet.down_levels (UNet.default_args 8192)) <= i)%nat ->
     _up_decode Z count_calls (UNet.up_blocks default_unet) [0; 0; 0; 0]%Z
     = inl (Raised IndexError)) /\
  ((length (UNet.up_levels (UNet.default_args 8192))
    <= S (length (UNet.down_levels (UNet.default_args 8192))))%nat ->
   exists y,
     _up_decode Z count_calls (UNet.up_blocks default_unet) [0; 0; 0; 0]%Z
     = inr y).
Proof.
  refine (unet_up_decode_indices Z count_calls (UNet.default_args 8192)
            default_unet [0; 0; 0; 0]%Z _ _ _ _ default_unet_built eq_refl).
  - discriminate.
  - discriminate.
  - simpl. repeat (apply Forall_cons; [lia|]). apply Forall_nil.
  - simpl. lia.
Defined.
